(** * Invoice document parser: pipeline, chunk approval and review navigation

    A shallow embedding of the server core ([server/storage.ts],
    [server/services/fileProcessor.ts], [server/services/openai.ts],
    [server/routes.ts]) and of the client's review helpers
    ([hooks/useKeyboardNavigation.ts], [components/ChunkReview.tsx]),
    followed by the properties of the specification checked against it.

    Conventions of the embedding:
    - a JS [Map<string, V>] is an insertion-ordered association list: the code
      reads it back with [Array.from(map.values())], whose order is the order
      of first insertion, and sorts the result with a stable sort;
    - values that come out of [JSON.parse] are [json]; a property that may be
      [undefined] or [null] is an [option];
    - the readings of [randomUUID()] and [new Date()] are inputs of the
      operation that makes them;
    - a function that can throw returns a [result]. *)

From Stdlib Require Import List String ZArith QArith Bool Lia Permutation Sorted.
Import ListNotations.

Local Open Scope Z_scope.
Local Open Scope string_scope.
Local Open Scope list_scope.

Set Implicit Arguments.
Local Set Warnings "-register-all".

(** ** JavaScript values *)

Inductive json : Type :=
| JNull
| JBool (b : bool)
| JNum (q : Q)
| JStr (s : string)
| JArr (items : list json)
| JObj (fields : list (string * json)).

(** [v.k] for a value [v] produced by [JSON.parse] and a key [k] that is
    neither an array index nor [length]: the own property of an object,
    [undefined] ([None]) otherwise. The fields of a [JObj] are the own
    properties of the parsed object, so a key occurs at most once. *)
Fixpoint assoc (k : string) (fields : list (string * json)) : option json :=
  match fields with
  | [] => None
  | (k', v) :: rest => if String.eqb k k' then Some v else assoc k rest
  end.

Definition prop (v : json) (k : string) : option json :=
  match v with
  | JObj fields => assoc k fields
  | _ => None
  end.

(** JavaScript truthiness, as used by [||]. *)
Definition truthy (v : json) : bool :=
  match v with
  | JNull => false
  | JBool b => b
  | JNum q => negb (Qeq_bool q 0)
  | JStr s => negb (String.eqb s "")
  | JArr _ => true
  | JObj _ => true
  end.

(** Outcome of a call that may throw. *)
Inductive result (A : Type) : Type :=
| ok (a : A)
| throw (message : string).
Arguments ok {A} a.
Arguments throw {A} message.

(** ** [Map<string, V>] with insertion order *)

Module JsMap.
Section Defs.
Variable V : Type.

Definition t := list (string * V).

Definition empty : t := [].

Fixpoint get (k : string) (m : t) : option V :=
    match m with
    | [] => None
    | (k', v) :: m' => if String.eqb k k' then Some v else get k m'
    end.

  (** [map.set(k, v)]: an existing key keeps its position, a new key goes
      last. *)
Fixpoint set (k : string) (v : V) (m : t) : t :=
    match m with
    | [] => [(k, v)]
    | (k', v') :: m' =>
        if String.eqb k k' then (k, v) :: m' else (k', v') :: set k v m'
    end.

Definition keys (m : t) : list string := map fst m.
Definition values (m : t) : list V := map snd m.
End Defs.
Arguments empty {V}.
End JsMap.

(** ** Data model ([shared/schema.ts]) *)

Inductive InvoiceStatus : Type :=
| I_uploading | I_processing | I_ready_for_review | I_approved | I_rejected.

Inductive ChunkStatus : Type :=
| pending | approved | rejected | editing.

Definition ChunkStatus_eqb (a b : ChunkStatus) : bool :=
  match a, b with
  | pending, pending | approved, approved
  | rejected, rejected | editing, editing => true
  | _, _ => false
  end.

(** Timestamps are milliseconds since the epoch. *)
Definition Date := Z.

Module Invoice.
Record t : Type := mk {
    id : string;
    filename : string;
    originalPath : string;
    mimeType : string;
    fileSize : Z;
    status : InvoiceStatus;
    extractedText : option json;
    processingProgress : Z;
    totalChunks : Z;
    approvedChunks : Z;
    rejectedChunks : Z;
    createdAt : Date;
    updatedAt : Date
  }.
End Invoice.

(** [InsertInvoice]: the columns with a default are optional. *)
Module InsertInvoice.
Record t : Type := mk {
    filename : string;
    originalPath : string;
    mimeType : string;
    fileSize : Z;
    status : option InvoiceStatus;
    extractedText : option json;
    processingProgress : option Z;
    totalChunks : option Z;
    approvedChunks : option Z;
    rejectedChunks : option Z
  }.
End InsertInvoice.

(** [Partial<Invoice>] restricted to the keys the server ever passes to
    [updateInvoice]; [None] is an absent key. *)
Module InvoiceUpdates.
Record t : Type := mk {
    status : option InvoiceStatus;
    processingProgress : option Z;
    extractedText : option json;
    totalChunks : option Z;
    approvedChunks : option Z;
    rejectedChunks : option Z
  }.
Definition none : t := mk None None None None None None.
End InvoiceUpdates.

Module Chunk.
Record t : Type := mk {
    id : string;
    invoiceId : string;
    chunkType : option json;
    sequenceNumber : Z;
    title : option json;
    extractedData : option json;
    boundingBox : option json;
    confidence : option json;
    status : ChunkStatus;
    isEdited : option bool;
    originalData : option json;
    createdAt : Date;
    updatedAt : Date
  }.
End Chunk.

Module InsertChunk.
Record t : Type := mk {
    invoiceId : string;
    chunkType : option json;
    sequenceNumber : Z;
    title : option json;
    extractedData : option json;
    boundingBox : option json;
    confidence : option json;
    status : option ChunkStatus;
    isEdited : option bool;
    originalData : option json
  }.
End InsertChunk.

(** The fields of an [UpdateChunk] other than [id] (all optional, from
    [insertChunkSchema.partial()]); [None] is an absent key, and the nullable
    columns [isEdited] and [originalData] carry their [null] as an inner
    [None]. *)
Module ChunkUpdates.
Record t : Type := mk {
    invoiceId : option string;
    chunkType : option json;
    sequenceNumber : option Z;
    title : option json;
    extractedData : option json;
    boundingBox : option json;
    confidence : option json;
    status : option ChunkStatus;
    isEdited : option (option bool);
    originalData : option (option json)
  }.
Definition none : t := mk None None None None None None None None None None.
End ChunkUpdates.

(** [a ?? b]. *)
Definition nullish {A : Type} (a : option A) (b : A) : A :=
  match a with
  | Some x => x
  | None => b
  end.
Notation "a ?? b" := (nullish a b) (at level 45, left associativity).

(** ** [MemStorage] ([server/storage.ts]) *)

Record Store : Type := mkStore {
  invoices : JsMap.t Invoice.t;
  chunks : JsMap.t Chunk.t
}.

(** [new MemStorage()]. *)
Definition MemStorage : Store := mkStore JsMap.empty JsMap.empty.

Definition createInvoice (insertInvoice : InsertInvoice.t)
    (id : string) (now : Date) (st : Store) : Invoice.t * Store :=
  let invoice :=
    Invoice.mk id
      (InsertInvoice.filename insertInvoice)
      (InsertInvoice.originalPath insertInvoice)
      (InsertInvoice.mimeType insertInvoice)
      (InsertInvoice.fileSize insertInvoice)
      (InsertInvoice.status insertInvoice ?? I_uploading)
      (InsertInvoice.extractedText insertInvoice)
      (InsertInvoice.processingProgress insertInvoice ?? 0)
      (InsertInvoice.totalChunks insertInvoice ?? 0)
      (InsertInvoice.approvedChunks insertInvoice ?? 0)
      (InsertInvoice.rejectedChunks insertInvoice ?? 0)
      now now in
  (invoice, mkStore (JsMap.set id invoice (invoices st)) (chunks st)).

Definition getInvoice (id : string) (st : Store) : option Invoice.t :=
  JsMap.get id (invoices st).

(** [{ ...invoice, ...updates, updatedAt: new Date() }]. *)
Definition applyInvoiceUpdates (invoice : Invoice.t)
    (updates : InvoiceUpdates.t) (now : Date) : Invoice.t :=
  Invoice.mk (Invoice.id invoice)
    (Invoice.filename invoice)
    (Invoice.originalPath invoice)
    (Invoice.mimeType invoice)
    (Invoice.fileSize invoice)
    (InvoiceUpdates.status updates ?? Invoice.status invoice)
    (match InvoiceUpdates.extractedText updates with
     | Some text => Some text
     | None => Invoice.extractedText invoice
     end)
    (InvoiceUpdates.processingProgress updates ?? Invoice.processingProgress invoice)
    (InvoiceUpdates.totalChunks updates ?? Invoice.totalChunks invoice)
    (InvoiceUpdates.approvedChunks updates ?? Invoice.approvedChunks invoice)
    (InvoiceUpdates.rejectedChunks updates ?? Invoice.rejectedChunks invoice)
    (Invoice.createdAt invoice)
    now.

Definition updateInvoice (id : string) (updates : InvoiceUpdates.t)
    (now : Date) (st : Store) : option Invoice.t * Store :=
  match JsMap.get id (invoices st) with
  | None => (None, st)
  | Some invoice =>
      let updatedInvoice := applyInvoiceUpdates invoice updates now in
      (Some updatedInvoice,
       mkStore (JsMap.set id updatedInvoice (invoices st)) (chunks st))
  end.

Definition createChunk (insertChunk : InsertChunk.t)
    (id : string) (now : Date) (st : Store) : Chunk.t * Store :=
  let chunk :=
    Chunk.mk id
      (InsertChunk.invoiceId insertChunk)
      (InsertChunk.chunkType insertChunk)
      (InsertChunk.sequenceNumber insertChunk)
      (InsertChunk.title insertChunk)
      (InsertChunk.extractedData insertChunk)
      (InsertChunk.boundingBox insertChunk)
      (InsertChunk.confidence insertChunk)
      (InsertChunk.status insertChunk ?? pending)
      (Some (InsertChunk.isEdited insertChunk ?? false))
      (InsertChunk.originalData insertChunk)
      now now in
  (chunk, mkStore (invoices st) (JsMap.set id chunk (chunks st))).

Definition getChunk (id : string) (st : Store) : option Chunk.t :=
  JsMap.get id (chunks st).

(** [Array.prototype.sort] with the comparator
    [(a, b) => a.sequenceNumber - b.sequenceNumber]: the sort is stable, so
    the result is the one of a stable insertion sort. Elements are inserted
    from the last to the first, each in front of the elements that do not
    come before it, so equal sequence numbers keep their order. *)
Fixpoint insertBySequence (c : Chunk.t) (sorted : list Chunk.t) : list Chunk.t :=
  match sorted with
  | [] => [c]
  | d :: rest =>
      if Z.leb (Chunk.sequenceNumber c) (Chunk.sequenceNumber d)
      then c :: d :: rest
      else d :: insertBySequence c rest
  end.

Definition sortBySequence (l : list Chunk.t) : list Chunk.t :=
  fold_right insertBySequence [] l.

Definition getChunksByInvoice (invoiceId : string) (st : Store) : list Chunk.t :=
  sortBySequence
    (filter (fun chunk => String.eqb (Chunk.invoiceId chunk) invoiceId)
       (JsMap.values (chunks st))).

(** [{ ...chunk, ...updates, updatedAt: new Date() }]. *)
Definition applyChunkUpdates (chunk : Chunk.t) (updates : ChunkUpdates.t)
    (now : Date) : Chunk.t :=
  Chunk.mk (Chunk.id chunk)
    (ChunkUpdates.invoiceId updates ?? Chunk.invoiceId chunk)
    (match ChunkUpdates.chunkType updates with
     | Some v => Some v | None => Chunk.chunkType chunk end)
    (ChunkUpdates.sequenceNumber updates ?? Chunk.sequenceNumber chunk)
    (match ChunkUpdates.title updates with
     | Some v => Some v | None => Chunk.title chunk end)
    (match ChunkUpdates.extractedData updates with
     | Some v => Some v | None => Chunk.extractedData chunk end)
    (match ChunkUpdates.boundingBox updates with
     | Some v => Some v | None => Chunk.boundingBox chunk end)
    (match ChunkUpdates.confidence updates with
     | Some v => Some v | None => Chunk.confidence chunk end)
    (ChunkUpdates.status updates ?? Chunk.status chunk)
    (ChunkUpdates.isEdited updates ?? Chunk.isEdited chunk)
    (ChunkUpdates.originalData updates ?? Chunk.originalData chunk)
    (Chunk.createdAt chunk)
    now.

Definition updateChunk (id : string) (updates : ChunkUpdates.t)
    (now : Date) (st : Store) : option Chunk.t * Store :=
  match JsMap.get id (chunks st) with
  | None => (None, st)
  | Some chunk =>
      let updatedChunk := applyChunkUpdates chunk updates now in
      (Some updatedChunk,
       mkStore (invoices st) (JsMap.set id updatedChunk (chunks st)))
  end.

Definition updateChunkStatus (id : string) (status : ChunkStatus)
    (now : Date) (st : Store) : option Chunk.t * Store :=
  match JsMap.get id (chunks st) with
  | None => (None, st)
  | Some chunk =>
      let updatedChunk :=
        Chunk.mk (Chunk.id chunk) (Chunk.invoiceId chunk)
          (Chunk.chunkType chunk) (Chunk.sequenceNumber chunk)
          (Chunk.title chunk) (Chunk.extractedData chunk)
          (Chunk.boundingBox chunk) (Chunk.confidence chunk)
          status
          (Chunk.isEdited chunk) (Chunk.originalData chunk)
          (Chunk.createdAt chunk) now in
      (Some updatedChunk,
       mkStore (invoices st) (JsMap.set id updatedChunk (chunks st)))
  end.

(** ** Handlers as store transformers that record their writes

    A handler runs to completion between two requests (every storage call of
    [MemStorage] resolves without yielding to the event loop), so it is a
    function of the store. Besides its result and the final store it returns
    the store after each storage call it made, oldest first. *)

Definition Run (A : Type) : Type := Store -> A * Store * list Store.

Definition ret {A : Type} (a : A) : Run A := fun st => (a, st, []).

Definition bind {A B : Type} (m : Run A) (k : A -> Run B) : Run B :=
  fun st =>
    let '(a, st1, log1) := m st in
    let '(b, st2, log2) := k a st1 in
    (b, st2, log1 ++ log2).

(** A storage call that may write. *)
Definition call {A : Type} (op : Store -> A * Store) : Run A :=
  fun st => let '(a, st') := op st in (a, st', [st']).

(** A storage call that only reads. *)
Definition query {A : Type} (f : Store -> A) : Run A :=
  fun st => (f st, st, []).

Notation "x <- m ;; k" := (bind m (fun x => k))
  (at level 61, m at next level, right associativity).
Notation "m ;;; k" := (bind m (fun _ => k))
  (at level 61, right associativity).

Definition result_of {A : Type} (r : A * Store * list Store) : A := fst (fst r).
Definition store_of {A : Type} (r : A * Store * list Store) : Store := snd (fst r).
Definition log_of {A : Type} (r : A * Store * list Store) : list Store := snd r.

(** ** The extraction collaborator ([server/services/openai.ts]) *)

(** The properties of one entry of [parsedData.chunks] that the pipeline
    reads. The entry is [{ ...chunk, sequenceNumber: index + 1 }] for a parsed
    [chunk]: its named properties are those of [chunk] when [chunk] is an
    object, and [undefined] for any other value. *)
Module ExtractedChunk.
Record t : Type := mk {
    type : option json;
    title : option json;
    data : option json;
    boundingBox : option json;
    confidence : option json;
    sequenceNumber : Z
  }.
End ExtractedChunk.

Record ParsedInvoiceData : Type := mkParsed {
  parsed_chunks : list ExtractedChunk.t;
  parsed_extractedText : json
}.

(** [array.map((x, index) => f x index)]. *)
Fixpoint mapi_from {A B : Type} (f : A -> nat -> B) (index : nat) (l : list A)
  : list B :=
  match l with
  | [] => []
  | x :: rest => f x index :: mapi_from f (S index) rest
  end.

Definition mapi {A B : Type} (f : A -> nat -> B) (l : list A) : list B :=
  mapi_from f 0 l.

(** What comes back from [openai.chat.completions.create]: the call (or the
    reading of [choices[0].message] in its response) throws, or there is a
    message whose [content || "{}"] is handed to [JSON.parse], which returns
    a value or throws. *)
Inductive VisionReply : Type :=
| vision_throws (message : string)
| vision_content (parsed : result json).

Definition spreadChunk (chunk : json) (index : nat) : ExtractedChunk.t :=
  ExtractedChunk.mk (prop chunk "type") (prop chunk "title")
    (prop chunk "data") (prop chunk "boundingBox") (prop chunk "confidence")
    (Z.of_nat index + 1).

Definition parseInvoiceWithVision (reply : VisionReply)
  : result ParsedInvoiceData :=
  let failed message := throw ("Failed to parse invoice: " ++ message) in
  match reply with
  | vision_throws message => failed message
  | vision_content (throw message) => failed message
  | vision_content (ok JNull) =>
      failed "Cannot read properties of null (reading 'chunks')"
  | vision_content (ok result) =>
      match prop result "chunks" with
      | Some (JArr items) =>
          ok (mkParsed (mapi spreadChunk items)
                (match prop result "extractedText" with
                 | Some text => if truthy text then text else JStr ""
                 | None => JStr ""
                 end))
      | _ => failed "Invalid response format from OpenAI"
      end
  end.

(** ** The pipeline ([server/services/fileProcessor.ts]) *)

(** [sharp] is the outcome of the [sharp(...).toBuffer()] conversion. *)
Definition convertToBase64Image (mimeType : string) (sharp : result string)
  : result string :=
  if String.prefix "image/" mimeType then sharp
  else if String.eqb mimeType "application/pdf" then
    throw "PDF processing requires additional setup. Please use image files for now."
  else throw ("Unsupported file type: " ++ mimeType).

(** The readings of [new Date()] and [randomUUID()] made by one background
    run: one reading per storage call, and one of each per chunk. *)
Record RunClock : Type := mkRunClock {
  at25 : Date;
  at50 : Date;
  at75 : Date;
  atChunk : nat -> Date;
  atReady : Date;
  atCatch : Date;
  uuidOfChunk : nat -> string
}.

Definition progressUpdate (p : Z) : InvoiceUpdates.t :=
  InvoiceUpdates.mk None (Some p) None None None None.

Definition readyUpdate (text : json) (total : Z) : InvoiceUpdates.t :=
  InvoiceUpdates.mk (Some I_ready_for_review) (Some 100) (Some text)
    (Some total) (Some 0) (Some 0).

Definition failedUpdate : InvoiceUpdates.t :=
  InvoiceUpdates.mk (Some I_rejected) (Some 0) None None None None.

Definition insertChunkOf (invoiceId : string) (chunkData : ExtractedChunk.t)
    (index : nat) : InsertChunk.t :=
  InsertChunk.mk invoiceId
    (ExtractedChunk.type chunkData)
    (Z.of_nat index + 1)
    (ExtractedChunk.title chunkData)
    (ExtractedChunk.data chunkData)
    (ExtractedChunk.boundingBox chunkData)
    (ExtractedChunk.confidence chunkData)
    (Some pending)
    (Some false)
    None.

(** [Promise.all(parsedData.chunks.map(async (chunkData, index) => ...))]:
    each callback runs up to its [await storage.createChunk(...)] when [map]
    calls it, so the chunks are created in array order. *)
Fixpoint createChunks (invoiceId : string) (clock : RunClock)
    (index : nat) (entries : list ExtractedChunk.t) : Run (list Chunk.t) :=
  match entries with
  | [] => ret []
  | chunkData :: rest =>
      chunk <- call (createChunk (insertChunkOf invoiceId chunkData index)
                       (uuidOfChunk clock index) (atChunk clock index)) ;;
      chunks <- createChunks invoiceId clock (S index) rest ;;
      ret (chunk :: chunks)
  end.

(** The [catch] block. *)
Definition onPipelineError (invoiceId : string) (clock : RunClock) : Run unit :=
  call (updateInvoice invoiceId failedUpdate (atCatch clock)) ;;; ret tt.

(** From the resolution of [parseInvoiceWithVision] to the end of the run. *)
Definition afterVision (invoiceId : string) (clock : RunClock)
    (outcome : result ParsedInvoiceData) : Run unit :=
  match outcome with
  | throw _ => onPipelineError invoiceId clock
  | ok parsedData =>
      call (updateInvoice invoiceId (progressUpdate 75) (at75 clock)) ;;;
      chunks <- createChunks invoiceId clock 0 (parsed_chunks parsedData) ;;
      call (updateInvoice invoiceId
              (readyUpdate (parsed_extractedText parsedData)
                 (Z.of_nat (List.length chunks)))
              (atReady clock)) ;;;
      ret tt
  end.

(** From the resolution of [convertToBase64Image] to the call of
    [parseInvoiceWithVision]; [true] when the run goes on. *)
Definition afterConvert (invoiceId : string) (clock : RunClock)
    (outcome : result string) : Run bool :=
  match outcome with
  | throw _ => onPipelineError invoiceId clock ;;; ret false
  | ok _ =>
      call (updateInvoice invoiceId (progressUpdate 50) (at50 clock)) ;;;
      ret true
  end.

Definition processFileInBackground (invoiceId mimeType : string)
    (clock : RunClock) (sharp : result string) (reply : VisionReply)
  : Run unit :=
  call (updateInvoice invoiceId (progressUpdate 25) (at25 clock)) ;;;
  goesOn <- afterConvert invoiceId clock (convertToBase64Image mimeType sharp) ;;
  if goesOn : bool
  then afterVision invoiceId clock (parseInvoiceWithVision reply)
  else ret tt.

(** [processUploadedFile] followed by the background run it launches, with
    no other request in between. [id] and [now] are the readings made by
    [createInvoice]. *)
Definition processUploadedFile (filePath filename mimeType : string)
    (fileSize : Z) (id : string) (now : Date)
    (clock : RunClock) (sharp : result string) (reply : VisionReply)
  : Run string :=
  let invoiceData :=
    InsertInvoice.mk filename filePath mimeType fileSize
      (Some I_processing) None (Some 10) None None None in
  invoice <- call (createInvoice invoiceData id now) ;;
  processFileInBackground (Invoice.id invoice) mimeType clock sharp reply ;;;
  ret (Invoice.id invoice).

(** ** The routes ([server/routes.ts]) *)

Inductive Response (A : Type) : Type :=
| res_json (body : A)
| res_error (code : Z) (error : string).
Arguments res_json {A} body.
Arguments res_error {A} code error.

Definition hasStatus (s : ChunkStatus) (c : Chunk.t) : bool :=
  ChunkStatus_eqb (Chunk.status c) s.

(** [chunks.filter(c => c.status === s).length]. *)
Definition countStatus (s : ChunkStatus) (chunks : list Chunk.t) : Z :=
  Z.of_nat (List.length (filter (hasStatus s) chunks)).

Definition statsUpdate (approvedCount rejectedCount : Z) : InvoiceUpdates.t :=
  InvoiceUpdates.mk None None None None (Some approvedCount) (Some rejectedCount).

(** The block under the comment "Update invoice stats". *)
Definition updateInvoiceStats (invoiceId : string) (now : Date) : Run unit :=
  chunks <- query (getChunksByInvoice invoiceId) ;;
  let approvedCount := countStatus approved chunks in
  let rejectedCount := countStatus rejected chunks in
  call (updateInvoice invoiceId (statsUpdate approvedCount rejectedCount) now) ;;;
  ret tt.

(** [POST /api/chunks/:id/approve] and [POST /api/chunks/:id/reject], which
    differ in the status they write; [now1] and [now2] are the readings of
    the two storage calls. *)
Definition decideChunk (status : ChunkStatus) (id : string)
    (now1 now2 : Date) : Run (Response Chunk.t) :=
  updatedChunk <- call (updateChunkStatus id status now1) ;;
  match updatedChunk with
  | None => ret (res_error 404 "Chunk not found")
  | Some updatedChunk =>
      updateInvoiceStats (Chunk.invoiceId updatedChunk) now2 ;;;
      ret (res_json updatedChunk)
  end.

Definition approveChunk : string -> Date -> Date -> Run (Response Chunk.t) :=
  decideChunk approved.

Definition rejectChunk : string -> Date -> Date -> Run (Response Chunk.t) :=
  decideChunk rejected.

(** A request body of [PATCH /api/chunks/:id] that passes
    [updateChunkSchema]: the keys of the schema, among them an [id] that, in
    [{ id, ...req.body }], takes the place of the one in the URL. *)
Record PatchBody : Type := mkPatchBody {
  body_id : option string;
  body_updates : ChunkUpdates.t
}.

Definition isSome {A : Type} (o : option A) : bool :=
  match o with
  | Some _ => true
  | None => false
  end.

(** [PATCH /api/chunks/:id]. [body] is the outcome of
    [updateChunkSchema.parse({ id, ...req.body })]: the validated body, or
    the error thrown by the validation. A validated [status] is one of the
    four status strings, so [req.body.status] is truthy exactly when the key
    is present. *)
Definition patchChunk (id : string) (body : result PatchBody)
    (now1 now2 : Date) : Run (Response Chunk.t) :=
  match body with
  | throw message => ret (res_error 400 message)
  | ok body =>
      updatedChunk <- call (updateChunk (body_id body ?? id)
                              (body_updates body) now1) ;;
      match updatedChunk with
      | None => ret (res_error 404 "Chunk not found")
      | Some updatedChunk =>
          (if isSome (ChunkUpdates.status (body_updates body))
           then updateInvoiceStats (Chunk.invoiceId updatedChunk) now2
           else ret tt) ;;;
          ret (res_json updatedChunk)
      end
  end.

(** [POST /api/invoices/:id/finalize]. *)
Definition finalizeInvoice (id : string) (now : Date)
  : Run (Response Invoice.t) :=
  chunks <- query (getChunksByInvoice id) ;;
  let hasRejectedChunks := existsb (hasStatus rejected) chunks in
  let allChunksReviewed :=
    forallb (fun c => negb (hasStatus pending c) && negb (hasStatus editing c))
      chunks in
  if negb allChunksReviewed
  then ret (res_error 400 "All chunks must be reviewed before finalizing")
  else
    let finalStatus := if hasRejectedChunks then I_rejected else I_approved in
    updatedInvoice <-
      call (updateInvoice id
              (InvoiceUpdates.mk (Some finalStatus) None None None None None)
              now) ;;
    match updatedInvoice with
    | None => ret (res_error 404 "Invoice not found")
    | Some updatedInvoice => ret (res_json updatedInvoice)
    end.

(** ** The review panel ([components/ChunkReview.tsx]) *)

(** [saveChanges(chunk)]: the request it sends through [onUpdate], which the
    page turns into [PATCH /api/chunks/${chunkId}] with [data] as the body.
    [updatedData] is [editData[chunk.id]]; an [undefined] value is dropped
    from the JSON body. *)
Definition saveChanges (chunk : Chunk.t) (updatedData : option json)
  : string * PatchBody :=
  (Chunk.id chunk,
   mkPatchBody None
     (ChunkUpdates.mk None None None None updatedData None None
        (Some pending) (Some (Some true)) None)).

(** "Save edit" end to end: the request of [saveChanges] served by the
    route. *)
Definition saveEdit (chunk : Chunk.t) (updatedData : option json)
    (now1 now2 : Date) : Run (Response Chunk.t) :=
  let '(chunkId, data) := saveChanges chunk updatedData in
  patchChunk chunkId (ok data) now1 now2.

(** ** Keyboard navigation ([hooks/useKeyboardNavigation.ts]) *)

Inductive EventTarget : Type :=
| HTMLInputElement | HTMLTextAreaElement | OtherTarget.

Record KeyboardEvent : Type := mkKey {
  key : string;
  shiftKey : bool;
  target : EventTarget
}.

(** What a key press does besides moving the focus. *)
Inductive NavEffect : Type :=
| preventDefault
| onApprove (chunk : Chunk.t)
| onReject (chunk : Chunk.t)
| onEdit (chunk : Chunk.t).

(** [chunks[i]]: [undefined] outside the array. *)
Definition at_index (chunks : list Chunk.t) (i : Z) : option Chunk.t :=
  if Z.ltb i 0 then None else nth_error chunks (Z.to_nat i).

(** [array.findIndex((x, index) => p x index)], which is [-1] when nothing
    matches. *)
Fixpoint findIndex_from (p : Chunk.t -> Z -> bool) (index : Z)
    (l : list Chunk.t) : Z :=
  match l with
  | [] => -1
  | x :: rest => if p x index then index else findIndex_from p (index + 1) rest
  end.

Definition findIndex (p : Chunk.t -> Z -> bool) (l : list Chunk.t) : Z :=
  findIndex_from p 0 l.

(** The effect run on mount and whenever [chunks] changes. *)
Definition focusFirstPending (chunks : list Chunk.t) (focusedChunkIndex : Z) : Z :=
  let firstPendingIndex := findIndex (fun chunk _ => hasStatus pending chunk) chunks in
  if Z.geb firstPendingIndex 0 then firstPendingIndex else focusedChunkIndex.

(** The body shared by the [Enter] and [r]/[R] cases. *)
Definition decideFocused (notify : Chunk.t -> NavEffect)
    (chunks : list Chunk.t) (focusedChunkIndex : Z) (focusedChunk : Chunk.t)
  : Z * list NavEffect :=
  if hasStatus pending focusedChunk then
    let nextPendingIndex :=
      findIndex (fun chunk index =>
                   Z.gtb index focusedChunkIndex && hasStatus pending chunk)
        chunks in
    (if Z.geb nextPendingIndex 0 then nextPendingIndex else focusedChunkIndex,
     [preventDefault; notify focusedChunk])
  else (focusedChunkIndex, [preventDefault]).

(** [handleKeyDown] as a reducer: the new [focusedChunkIndex] and the
    effects, in order. The state updaters [prev => ...] are applied to the
    current [focusedChunkIndex]. *)
Definition handleKeyDown (chunks : list Chunk.t) (focusedChunkIndex : Z)
    (event : KeyboardEvent) : Z * list NavEffect :=
  match target event with
  | HTMLInputElement | HTMLTextAreaElement => (focusedChunkIndex, [])
  | OtherTarget =>
      match at_index chunks focusedChunkIndex with
      | None => (focusedChunkIndex, [])
      | Some focusedChunk =>
          let len := Z.of_nat (List.length chunks) in
          let prev := focusedChunkIndex in
          if String.eqb (key event) "Tab" then
            if shiftKey event
            then (if Z.gtb prev 0 then prev - 1 else len - 1, [preventDefault])
            else (if Z.ltb prev (len - 1) then prev + 1 else 0, [preventDefault])
          else if String.eqb (key event) "Enter" then
            decideFocused onApprove chunks focusedChunkIndex focusedChunk
          else if String.eqb (key event) "r" || String.eqb (key event) "R" then
            decideFocused onReject chunks focusedChunkIndex focusedChunk
          else if String.eqb (key event) "e" || String.eqb (key event) "E" then
            (focusedChunkIndex, [preventDefault; onEdit focusedChunk])
          else if String.eqb (key event) "Escape" then
            (focusedChunkIndex, [preventDefault])
          else if String.eqb (key event) "ArrowDown" then
            (if Z.ltb prev (len - 1) then prev + 1 else prev, [preventDefault])
          else if String.eqb (key event) "ArrowUp" then
            (if Z.gtb prev 0 then prev - 1 else prev, [preventDefault])
          else (focusedChunkIndex, [])
      end
  end.

(** ** The server as a transition system

    Between two awaits on a collaborator (the image conversion, the vision
    call) a background run is one atomic segment; requests are served
    between segments. A task records a run that is waiting for a
    collaborator. The steps of a run are taken one collaborator outcome at a
    time, so every interleaving the event loop allows is a sequence of
    [Op]s. *)

Inductive Stage : Type :=
| AwaitingConvert | AwaitingVision.

Record Task : Type := mkTask {
  task_invoiceId : string;
  task_mimeType : string;
  task_stage : Stage
}.

Record World : Type := mkWorld {
  store : Store;
  tasks : list Task;
  (** every store written so far, oldest first *)
  history : list Store
}.

Definition initial : World := mkWorld MemStorage [] [MemStorage].

Inductive Op : Type :=
| Upload (filePath filename mimeType : string) (fileSize : Z)
    (id : string) (now : Date) (clock : RunClock)
| ConvertDone (invoiceId : string) (clock : RunClock) (sharp : result string)
| VisionDone (invoiceId : string) (clock : RunClock) (reply : VisionReply)
| Approve (id : string) (now1 now2 : Date)
| Reject (id : string) (now1 now2 : Date)
| Patch (id : string) (body : result PatchBody) (now1 now2 : Date)
| Finalize (id : string) (now : Date).

Definition mem (k : string) (l : list string) : bool :=
  existsb (String.eqb k) l.

Fixpoint distinct (l : list string) : bool :=
  match l with
  | [] => true
  | k :: rest => negb (mem k rest) && distinct rest
  end.

(** [randomUUID()] never returns an identifier it returned before: the [n]
    identifiers drawn for the chunks of a run are new keys, all different. *)
Definition freshChunkIds (clock : RunClock) (n : nat) (st : Store) : bool :=
  let ids := map (uuidOfChunk clock) (seq 0 n) in
  distinct ids && forallb (fun k => negb (mem k (JsMap.keys (chunks st)))) ids.

Definition isStage (s : Stage) (t : Task) : bool :=
  match s, task_stage t with
  | AwaitingConvert, AwaitingConvert | AwaitingVision, AwaitingVision => true
  | _, _ => false
  end.

Definition findTask (invoiceId : string) (s : Stage) (ts : list Task)
  : option Task :=
  find (fun t => String.eqb (task_invoiceId t) invoiceId && isStage s t) ts.

Definition dropTask (invoiceId : string) (ts : list Task) : list Task :=
  filter (fun t => negb (String.eqb (task_invoiceId t) invoiceId)) ts.

Definition commit {A : Type} (w : World) (ts : list Task)
    (r : A * Store * list Store) : World :=
  mkWorld (store_of r) ts (history w ++ log_of r).

(** The upload request: [createInvoice], then the part of
    [processFileInBackground] that runs before the conversion. *)
Definition uploadSegment (filePath filename mimeType : string) (fileSize : Z)
    (id : string) (now : Date) (clock : RunClock) : Run string :=
  let invoiceData :=
    InsertInvoice.mk filename filePath mimeType fileSize
      (Some I_processing) None (Some 10) None None None in
  invoice <- call (createInvoice invoiceData id now) ;;
  call (updateInvoice (Invoice.id invoice) (progressUpdate 25) (at25 clock)) ;;;
  ret (Invoice.id invoice).

Definition entriesOf (outcome : result ParsedInvoiceData) : nat :=
  match outcome with
  | ok parsedData => List.length (parsed_chunks parsedData)
  | throw _ => 0%nat
  end.

(** One step; [None] when the step cannot happen in [w] (no such task, or
    identifiers that [randomUUID()] cannot return). *)
Definition exec (op : Op) (w : World) : option World :=
  match op with
  | Upload filePath filename mimeType fileSize id now clock =>
      if mem id (JsMap.keys (invoices (store w))) then None
      else Some (commit w (mkTask id mimeType AwaitingConvert :: tasks w)
                   (uploadSegment filePath filename mimeType fileSize id now
                      clock (store w)))
  | ConvertDone invoiceId clock sharp =>
      match findTask invoiceId AwaitingConvert (tasks w) with
      | None => None
      | Some t =>
          let r := afterConvert invoiceId clock
                     (convertToBase64Image (task_mimeType t) sharp) (store w) in
          Some (commit w
                  (if result_of r
                   then mkTask invoiceId (task_mimeType t) AwaitingVision
                          :: dropTask invoiceId (tasks w)
                   else dropTask invoiceId (tasks w))
                  r)
      end
  | VisionDone invoiceId clock reply =>
      match findTask invoiceId AwaitingVision (tasks w) with
      | None => None
      | Some _ =>
          let outcome := parseInvoiceWithVision reply in
          if freshChunkIds clock (entriesOf outcome) (store w)
          then Some (commit w (dropTask invoiceId (tasks w))
                       (afterVision invoiceId clock outcome (store w)))
          else None
      end
  | Approve id now1 now2 =>
      Some (commit w (tasks w) (approveChunk id now1 now2 (store w)))
  | Reject id now1 now2 =>
      Some (commit w (tasks w) (rejectChunk id now1 now2 (store w)))
  | Patch id body now1 now2 =>
      Some (commit w (tasks w) (patchChunk id body now1 now2 (store w)))
  | Finalize id now =>
      Some (commit w (tasks w) (finalizeInvoice id now (store w)))
  end.

(** A [PATCH] that gives its chunk another [invoiceId]. *)
Definition reparents (st : Store) (op : Op) : bool :=
  match op with
  | Patch id (ok body) _ _ =>
      match ChunkUpdates.invoiceId (body_updates body),
            getChunk (body_id body ?? id) st with
      | Some invoiceId, Some chunk =>
          negb (String.eqb invoiceId (Chunk.invoiceId chunk))
      | _, _ => false
      end
  | _ => false
  end.

(** Run a sequence of steps, each of which must be [allowed] where it is
    taken. *)
Fixpoint run (allowed : Store -> Op -> bool) (ops : list Op) (w : World)
  : option World :=
  match ops with
  | [] => Some w
  | op :: rest =>
      if allowed (store w) op then
        match exec op w with
        | Some w' => run allowed rest w'
        | None => None
        end
      else None
  end.

Definition anyOp (_ : Store) (_ : Op) : bool := true.
Definition keepsOwner (st : Store) (op : Op) : bool := negb (reparents st op).

Definition reachable (w : World) : Prop :=
  exists ops, run anyOp ops initial = Some w.

Definition reachableKeepingOwners (w : World) : Prop :=
  exists ops, run keepsOwner ops initial = Some w.

(** ** The rest of the storage and of the routes *)

(** [array.sort(compare)] for a comparator that orders by a key: a stable
    insertion sort, [x] going in front of the first [y] with
    [compare x y <= 0]. *)
Fixpoint insertWith {A : Type} (compare : A -> A -> Z) (x : A) (sorted : list A)
  : list A :=
  match sorted with
  | [] => [x]
  | y :: rest =>
      if Z.leb (compare x y) 0 then x :: y :: rest
      else y :: insertWith compare x rest
  end.

Definition sortWith {A : Type} (compare : A -> A -> Z) (l : list A) : list A :=
  fold_right (insertWith compare) [] l.

(** [(a, b) => new Date(b.createdAt).getTime() - new Date(a.createdAt).getTime()]. *)
Definition byRecency (a b : Invoice.t) : Z :=
  Invoice.createdAt b - Invoice.createdAt a.

Definition getAllInvoices (st : Store) : list Invoice.t :=
  sortWith byRecency (JsMap.values (invoices st)).

(** The status strings of the schema. *)
Definition InvoiceStatus_name (s : InvoiceStatus) : string :=
  match s with
  | I_uploading => "uploading"
  | I_processing => "processing"
  | I_ready_for_review => "ready_for_review"
  | I_approved => "approved"
  | I_rejected => "rejected"
  end.

(** A value of [req.query] as the query parser leaves it: a string, an
    array for a repeated parameter ([?status=a&status=b]), an object for a
    nested one ([?status[k]=a]). *)
Inductive QueryValue : Type :=
| q_string (s : string)
| q_array (items : list QueryValue)
| q_object (fields : list (string * QueryValue)).

(** Truthiness of a query value: of these only the empty string is falsy. *)
Definition q_truthy (v : QueryValue) : bool :=
  match v with
  | q_string s => negb (String.eqb s "")
  | q_array _ | q_object _ => true
  end.

(** [invoice.status === status]: a string is strictly equal to the same
    string only, never to an array or an object. *)
Definition statusIs (status : QueryValue) (invoice : Invoice.t) : bool :=
  match status with
  | q_string s => String.eqb (InvoiceStatus_name (Invoice.status invoice)) s
  | q_array _ | q_object _ => false
  end.

(** [getInvoicesByStatus(status)]; the route passes the query value as it
    comes ([status as any]), so [status] is any query value. *)
Definition getInvoicesByStatus (status : QueryValue) (st : Store)
  : list Invoice.t :=
  sortWith byRecency (filter (statusIs status) (JsMap.values (invoices st))).

(** [InvoiceWithChunks]: [{ ...invoice, chunks }]. *)
Module InvoiceWithChunks.
Record t : Type := mk {
    invoice : Invoice.t;
    chunks : list Chunk.t
  }.
End InvoiceWithChunks.

Definition getInvoiceWithChunks (id : string) (st : Store)
  : option InvoiceWithChunks.t :=
  match JsMap.get id (invoices st) with
  | None => None
  | Some invoice =>
      let invoiceChunks :=
        sortBySequence
          (filter (fun chunk => String.eqb (Chunk.invoiceId chunk) id)
             (JsMap.values (chunks st))) in
      Some (InvoiceWithChunks.mk invoice invoiceChunks)
  end.

(** [GET /api/invoices]: [status] is [req.query.status], absent ([None]) or
    a query value. *)
Definition listInvoices (status : option QueryValue)
  : Run (Response (list Invoice.t)) :=
  match status with
  | Some v =>
      if q_truthy v then
        invoices <- query (getInvoicesByStatus v) ;; ret (res_json invoices)
      else
        invoices <- query getAllInvoices ;; ret (res_json invoices)
  | None => invoices <- query getAllInvoices ;; ret (res_json invoices)
  end.

(** [GET /api/invoices/:id]. *)
Definition getInvoiceRoute (id : string) : Run (Response InvoiceWithChunks.t) :=
  invoice <- query (getInvoiceWithChunks id) ;;
  match invoice with
  | None => ret (res_error 404 "Invoice not found")
  | Some invoice => ret (res_json invoice)
  end.

(** The [fileFilter] of the upload middleware: [true] when the file is let
    through. *)
Definition allowedTypes : list string :=
  ["image/jpeg"; "image/png"; "image/webp"; "application/pdf"].

Definition fileFilter (mimetype : string) : bool :=
  existsb (String.eqb mimetype) allowedTypes.

(** [req.file] as the middleware leaves it. *)
Record MulterFile : Type := mkFile {
  file_filename : string;
  file_mimetype : string;
  file_size : Z;
  file_path : string
}.

(** [POST /api/invoices/upload], up to its response: the part of the
    background run that has run by then is the one of [uploadSegment]. *)
Definition uploadRoute (file : option MulterFile) (id : string) (now : Date)
    (clock : RunClock) : Run (Response string) :=
  match file with
  | None => ret (res_error 400 "No file uploaded")
  | Some file =>
      invoiceId <- uploadSegment (file_path file) (file_filename file)
                     (file_mimetype file) (file_size file) id now clock ;;
      ret (res_json invoiceId)
  end.

(** ** The review page ([pages/ApprovalWorkflow.tsx]) *)

(** [x || 0] for a number. *)
Definition orZero (x : Z) : Z := if Z.eqb x 0 then 0 else x.

(** [pendingChunks], which disables the "Finalize" button when positive. *)
Definition pendingChunks (invoice : Invoice.t) : Z :=
  orZero (Invoice.totalChunks invoice)
  - orZero (Invoice.approvedChunks invoice)
  - orZero (Invoice.rejectedChunks invoice).

(** ** The bulk approval of the review panel ([components/ChunkReview.tsx]) *)

(** The "Approve All Remaining" button:
    [chunks.filter(chunk => chunk.status === 'pending').forEach(chunk => onApprove(chunk.id))].
    The identifiers it sends for approval, in order. *)
Definition approveAllRemaining (chunks : list Chunk.t) : list string :=
  map Chunk.id (filter (hasStatus pending) chunks).

(** [disabled] of that button, the loading flag apart:
    [chunks.every(chunk => chunk.status !== 'pending')]. *)
Definition approveAllDisabled (chunks : list Chunk.t) : bool :=
  forallb (fun chunk => negb (hasStatus pending chunk)) chunks.

(** ** The upload list ([components/UploadZone.tsx]) *)

Inductive UploadStatus : Type :=
| st_uploading | st_success | st_error.

(** [UploadedFile]; of the [File] only the [name] is read by the state
    updates. *)
Record UploadedFile : Type := mkUploaded {
  up_name : string;
  up_progress : Z;
  up_status : UploadStatus;
  up_invoiceId : option string;
  up_error : option string
}.

(** What happens to the list: files are dropped, the timer of a file
    ticks, an upload succeeds or fails, a file is removed. *)
Inductive UploadEvent : Type :=
| ev_drop (names : list string)
| ev_tick (name : string)
| ev_success (name : string) (invoiceId : string)
| ev_error (name : string) (message : string)
| ev_remove (name : string).

Definition isUploading (uf : UploadedFile) : bool :=
  match up_status uf with
  | st_uploading => true
  | _ => false
  end.

(** The state updates [setUploadedFiles(prev => ...)]. *)
Definition uploadStep (prev : list UploadedFile) (ev : UploadEvent)
  : list UploadedFile :=
  match ev with
  | ev_drop names =>
      prev ++ map (fun name => mkUploaded name 0 st_uploading None None) names
  | ev_tick name =>
      map (fun uf =>
             if String.eqb (up_name uf) name && isUploading uf
             then mkUploaded (up_name uf) (Z.min (up_progress uf + 10) 90)
                    (up_status uf) (up_invoiceId uf) (up_error uf)
             else uf) prev
  | ev_success name invoiceId =>
      map (fun uf =>
             if String.eqb (up_name uf) name
             then mkUploaded (up_name uf) 100 st_success (Some invoiceId)
                    (up_error uf)
             else uf) prev
  | ev_error name message =>
      map (fun uf =>
             if String.eqb (up_name uf) name
             then mkUploaded (up_name uf) 0 st_error (up_invoiceId uf)
                    (Some message)
             else uf) prev
  | ev_remove name =>
      filter (fun uf => negb (String.eqb (up_name uf) name)) prev
  end.

(** ** Vocabulary of the statements *)

(** [c] is a chunk of document [invoiceId] in [st]. *)
Definition chunkOf (st : Store) (invoiceId : string) (c : Chunk.t) : Prop :=
  In c (JsMap.values (chunks st)) /\ Chunk.invoiceId c = invoiceId.

(** The counters of every document of [st] respect the bound. *)
Definition countsBounded (st : Store) : Prop :=
  forall id invoice,
    getInvoice id st = Some invoice ->
    Invoice.approvedChunks invoice + Invoice.rejectedChunks invoice
      <= Invoice.totalChunks invoice.

Definition progressOf (id : string) (st : Store) : option Z :=
  option_map Invoice.processingProgress (getInvoice id st).

(** ** Vocabulary of the proofs *)

(** [st] after [invoices.set(id, invoice)]. *)
Definition withInvoice (st : Store) (id : string) (invoice : Invoice.t) : Store :=
  mkStore (JsMap.set id invoice (invoices st)) (chunks st).

(** The chunk that [createChunk] stores for the entry at [index]. *)
Definition createdChunk (invoiceId : string) (clock : RunClock)
    (chunkData : ExtractedChunk.t) (index : nat) : Chunk.t :=
  Chunk.mk (uuidOfChunk clock index) invoiceId
    (ExtractedChunk.type chunkData)
    (Z.of_nat index + 1)
    (ExtractedChunk.title chunkData)
    (ExtractedChunk.data chunkData)
    (ExtractedChunk.boundingBox chunkData)
    (ExtractedChunk.confidence chunkData)
    pending (Some false) None
    (atChunk clock index) (atChunk clock index).

(** The stores written while a list of chunks is stored one by one. *)
Fixpoint storing (invs : JsMap.t Invoice.t) (m : JsMap.t Chunk.t)
    (cs : list Chunk.t) : list Store :=
  match cs with
  | [] => []
  | c :: rest =>
      mkStore invs (JsMap.set (Chunk.id c) c m)
      :: storing invs (JsMap.set (Chunk.id c) c m) rest
  end.

(** The chunk map after a list of chunks is stored one by one. *)
Definition storeAll (m : JsMap.t Chunk.t) (cs : list Chunk.t) : JsMap.t Chunk.t :=
  fold_left (fun m c => JsMap.set (Chunk.id c) c m) cs m.

(** The document as [createInvoice] stores it for [processUploadedFile]. *)
Definition uploadedInvoice (filePath filename mimeType : string) (fileSize : Z)
    (id : string) (now : Date) : Invoice.t :=
  Invoice.mk id filename filePath mimeType fileSize I_processing None
    10 0 0 0 now now.

(** [c] belongs to document [k]. *)
Definition owned (k : string) (c : Chunk.t) : bool :=
  String.eqb (Chunk.invoiceId c) k.

(** [c] belongs to document [k] and has status [s]. *)
Definition ownedWith (k : string) (s : ChunkStatus) (c : Chunk.t) : bool :=
  owned k c && hasStatus s c.

(** The number of stored chunks that satisfy [p]. *)
Definition tally (p : Chunk.t -> bool) (st : Store) : Z :=
  Z.of_nat (List.length (filter p (JsMap.values (chunks st)))).

(** The invariant on a store, given the documents whose run is waiting for
    a collaborator. With [except = Some k] the two counters of document [k]
    are left out: that is the state between a status write and the
    recount that follows it. *)
Record Sound (except : option string) (waiting : list string) (st : Store)
  : Prop := mkSound {
  sound_total :
    forall k invoice, getInvoice k st = Some invoice ->
      Invoice.totalChunks invoice = tally (owned k) st;
  sound_counters :
    forall k invoice, getInvoice k st = Some invoice -> except <> Some k ->
      Invoice.approvedChunks invoice = tally (ownedWith k approved) st
      /\ Invoice.rejectedChunks invoice = tally (ownedWith k rejected) st;
  sound_waiting :
    forall k, In k waiting ->
      tally (owned k) st = 0 /\ getInvoice k st <> None;
  sound_owners :
    forall c, In c (JsMap.values (chunks st)) ->
      getInvoice (Chunk.invoiceId c) st <> None
}.

(** An update that carries none of the three counters. *)
Definition keepsCounters (u : InvoiceUpdates.t) : Prop :=
  InvoiceUpdates.totalChunks u = None
  /\ InvoiceUpdates.approvedChunks u = None
  /\ InvoiceUpdates.rejectedChunks u = None.

(** [st] after [chunks.set(id, c)]. *)
Definition withChunk (st : Store) (id : string) (c : Chunk.t) : Store :=
  mkStore (invoices st) (JsMap.set id c (chunks st)).

(** What a handler must deliver: the invariant on its final store and the
    bound on every store it has written. *)
Definition Keeps {A : Type} (waiting : list string)
    (r : A * Store * list Store) : Prop :=
  Sound None waiting (store_of r) /\ Forall countsBounded (log_of r).

(** The invariant of the server: the one of its store, and the bound on
    every store in its history. *)
Definition Inv (w : World) : Prop :=
  Sound None (map task_invoiceId (tasks w)) (store w)
  /\ Forall countsBounded (history w).

(** ** Vocabulary of the further properties *)

(** [a] may come before [b] in a list sorted by sequence number. *)
Definition bySequence (a b : Chunk.t) : Prop :=
  Chunk.sequenceNumber a <= Chunk.sequenceNumber b.

(** The chunks numbered [n]. *)
Definition hasSequence (n : Z) (c : Chunk.t) : bool :=
  Z.eqb (Chunk.sequenceNumber c) n.

(** [a] may come before [b] in a list sorted by recency. *)
Definition newestFirst (a b : Invoice.t) : Prop :=
  Invoice.createdAt b <= Invoice.createdAt a.

(** The documents created at [t]. *)
Definition createdOn (t : Date) (i : Invoice.t) : bool :=
  Z.eqb (Invoice.createdAt i) t.

(** The chunk that a decision stores: the status and [updatedAt] are new,
    the rest is kept. *)
Definition decided (status : ChunkStatus) (now : Date) (c : Chunk.t) : Chunk.t :=
  Chunk.mk (Chunk.id c) (Chunk.invoiceId c) (Chunk.chunkType c)
    (Chunk.sequenceNumber c) (Chunk.title c) (Chunk.extractedData c)
    (Chunk.boundingBox c) (Chunk.confidence c) status (Chunk.isEdited c)
    (Chunk.originalData c) (Chunk.createdAt c) now.

(** [invoice] written again at [now] without any change. *)
Definition touched (now : Date) (invoice : Invoice.t) : Invoice.t :=
  Invoice.mk (Invoice.id invoice) (Invoice.filename invoice)
    (Invoice.originalPath invoice) (Invoice.mimeType invoice)
    (Invoice.fileSize invoice) (Invoice.status invoice)
    (Invoice.extractedText invoice) (Invoice.processingProgress invoice)
    (Invoice.totalChunks invoice) (Invoice.approvedChunks invoice)
    (Invoice.rejectedChunks invoice) (Invoice.createdAt invoice) now.

(** [c] belongs to document [k] and is neither approved nor rejected. *)
Definition awaiting (k : string) (c : Chunk.t) : bool :=
  owned k c && (hasStatus pending c || hasStatus editing c).

(** The progress at which a run waits for a collaborator. *)
Definition stageProgress (s : Stage) : Z :=
  match s with
  | AwaitingConvert => 25
  | AwaitingVision => 50
  end.

(** Every waiting run has its document at the progress of its stage, and
    every document is at 0 or 100 unless a run is waiting for it. *)
Definition Staged (st : Store) (ts : list Task) : Prop :=
  (forall t, In t ts ->
     progressOf (task_invoiceId t) st = Some (stageProgress (task_stage t)))
  /\ (forall k p, progressOf k st = Some p ->
        p = 0 \/ p = 100 \/ exists t, In t ts /\ task_invoiceId t = k).

(** The file of a document and its creation date. *)
Definition sameFile (a b : Invoice.t) : Prop :=
  Invoice.id b = Invoice.id a
  /\ Invoice.filename b = Invoice.filename a
  /\ Invoice.originalPath b = Invoice.originalPath a
  /\ Invoice.mimeType b = Invoice.mimeType a
  /\ Invoice.fileSize b = Invoice.fileSize a
  /\ Invoice.createdAt b = Invoice.createdAt a.

(** Every document and every chunk of [st] is still in [st'], under the
    same key, with what is never rewritten. *)
Definition Extends (st st' : Store) : Prop :=
  (forall k invoice, getInvoice k st = Some invoice ->
     exists invoice', getInvoice k st' = Some invoice'
                      /\ sameFile invoice invoice')
  /\ (forall k c, getChunk k st = Some c ->
        exists c', getChunk k st' = Some c'
                   /\ Chunk.id c' = Chunk.id c
                   /\ Chunk.createdAt c' = Chunk.createdAt c).

(** Every document and every chunk is stored under its own [id]. *)
Definition KeyedById (st : Store) : Prop :=
  (forall k invoice, getInvoice k st = Some invoice -> Invoice.id invoice = k)
  /\ (forall k c, getChunk k st = Some c -> Chunk.id c = k).

(** The list after a sequence of events, from the empty list of the first
    render. *)
Definition uploadList (events : list UploadEvent) : list UploadedFile :=
  fold_left uploadStep events [].

(** What the progress bar and the fields of an entry can show together. *)
Definition coherent (uf : UploadedFile) : Prop :=
  match up_status uf with
  | st_uploading =>
      0 <= up_progress uf <= 90 /\ up_progress uf mod 10 = 0
      /\ up_invoiceId uf = None /\ up_error uf = None
  | st_success => up_progress uf = 100 /\ up_invoiceId uf <> None
  | st_error => up_progress uf = 0 /\ up_error uf <> None
  end.

(** No key occurs twice in either map. *)
Definition UniqueKeys (st : Store) : Prop :=
  NoDup (JsMap.keys (invoices st)) /\ NoDup (JsMap.keys (chunks st)).

(** The approve requests that the button sends, as the server receives
    them: the identifier and the two clock readings of each. *)
Definition approvals (reqs : list (string * Date * Date)) : list Op :=
  map (fun r => Approve (fst (fst r)) (snd (fst r)) (snd r)) reqs.

(** What of a document no approval, rejection or update of a chunk
    rewrites. *)
Definition reviewKeeps (a b : Invoice.t) : Prop :=
  Invoice.status b = Invoice.status a
  /\ Invoice.extractedText b = Invoice.extractedText a
  /\ Invoice.processingProgress b = Invoice.processingProgress a
  /\ Invoice.totalChunks b = Invoice.totalChunks a
  /\ sameFile a b.

(** ** A worked scenario

    One image is uploaded and the vision model returns four chunks; the
    reviewer then approves the first two and rejects the third. *)

Module Demo.

Definition entry (type title : string) (confidence : Q) : json :=
  JObj [("type", JStr type);
        ("title", JStr title);
        ("data", JObj [("value", JStr title)]);
        ("boundingBox",
         JObj [("x", JNum 0); ("y", JNum 0);
               ("width", JNum 100); ("height", JNum 15)]);
        ("confidence", JNum confidence)].

Definition extraction : json :=
  JObj [("chunks",
         JArr [entry "header" "Header Information" (95 # 100);
               entry "line_item" "Line 1" (9 # 10);
               entry "totals" "Totals" (99 # 100);
               entry "payment_terms" "Payment Terms" (8 # 10)]);
        ("extractedText", JStr "ACME Corp. Invoice 42")].

Definition reply : VisionReply := vision_content (ok extraction).

Definition clock : RunClock :=
  mkRunClock 1002 1003 1004 (fun i => 1005 + Z.of_nat i) 1100 1101
    (fun i => nth i ["chunk-1"; "chunk-2"; "chunk-3"; "chunk-4"] "chunk-n").

Definition upload : Op :=
  Upload "uploads/3f9a" "invoice.png" "image/png" 48213 "invoice-1" 1001 clock.

Definition processed : list Op :=
  [upload;
   ConvertDone "invoice-1" clock (ok "aW1hZ2U=");
   VisionDone "invoice-1" clock reply].

Definition reviewed : list Op :=
  processed ++
  [Approve "chunk-1" 2001 2002;
   Approve "chunk-2" 2003 2004;
   Reject "chunk-3" 2005 2006].

Definition worldAfter (ops : list Op) : World :=
  match run anyOp ops initial with
  | Some w => w
  | None => initial
  end.

(** The document is being processed: uploaded, not yet converted. *)
Definition uploadedWorld : World := Eval vm_compute in worldAfter [upload].

(** Ready for review, nothing decided yet. *)
Definition processedWorld : World := Eval vm_compute in worldAfter processed.

(** Two chunks approved, one rejected, one pending. *)
Definition reviewedWorld : World := Eval vm_compute in worldAfter reviewed.

(** Every chunk decided. *)
Definition decidedWorld : World :=
  Eval vm_compute in worldAfter (reviewed ++ [Approve "chunk-4" 2007 2008]).

Definition chunkAt (w : World) (id : string) : Chunk.t :=
  match getChunk id (store w) with
  | Some c => c
  | None =>
      Chunk.mk id "" None 0 None None None None pending None None 0 0
  end.

Definition enter : KeyboardEvent := mkKey "Enter" false OtherTarget.

(** The reviewer edits the fourth chunk and saves. *)
Definition saveFourth : Op :=
  Patch "chunk-4"
    (ok (snd (saveChanges (chunkAt reviewedWorld "chunk-4")
                (Some (JObj [("value", JStr "Net 30")])))))
    2101 2102.

Definition editedWorld : World :=
  Eval vm_compute in worldAfter (reviewed ++ [saveFourth]).

(** A second document with one chunk, and a [PATCH] that moves the first
    chunk of the first document into it. *)
Definition clock2 : RunClock :=
  mkRunClock 3002 3003 3004 (fun i => 3005 + Z.of_nat i) 3100 3101
    (fun i => nth i ["chunk-5"] "chunk-m").

Definition reply2 : VisionReply :=
  vision_content
    (ok (JObj [("chunks", JArr [entry "header" "Header Information" 1]);
               ("extractedText", JStr "Globex Invoice 7")])).

Definition twoDocuments : list Op :=
  processed ++
  [Upload "uploads/77c0" "second.png" "image/png" 1024 "invoice-2" 3001 clock2;
   ConvertDone "invoice-2" clock2 (ok "c2Vjb25k");
   VisionDone "invoice-2" clock2 reply2;
   Approve "chunk-1" 4001 4002;
   Approve "chunk-2" 4003 4004;
   Approve "chunk-5" 4005 4006].

Definition moveTo (invoiceId : string) (status : option ChunkStatus)
  : result PatchBody :=
  ok (mkPatchBody None
        (ChunkUpdates.mk (Some invoiceId) None None None None None None
           status None None)).

(** The first chunk of the first document is moved to the second one and
    approved there. *)
Definition movedWorld : World :=
  Eval vm_compute in
    worldAfter (twoDocuments
                ++ [Patch "chunk-1" (moveTo "invoice-2" (Some approved))
                      5001 5002]).



(** The second chunk of the first document is moved to the second one. *)
Definition staleWorld : World :=
  Eval vm_compute in
    worldAfter (twoDocuments
                ++ [Patch "chunk-2" (moveTo "invoice-2" None) 5001 5002]).

End Demo.

(** * Properties *)

(** ** The insertion-ordered map *)

Section JsMapFacts.
Variable V : Type.
Implicit Types (m : JsMap.t V) (k : string) (v : V).

Lemma get_set_same m k v : JsMap.get k (JsMap.set k v m) = Some v.
Proof.
  induction m as [|[k' v'] m IH]; simpl.
  - now rewrite String.eqb_refl.
  - destruct (String.eqb k k') eqn:E; simpl.
    + now rewrite String.eqb_refl.
    + now rewrite E.
Qed.

Lemma get_set_other m k k' v :
  k' <> k -> JsMap.get k' (JsMap.set k v m) = JsMap.get k' m.
Proof.
  intros Hne. induction m as [|[k0 v0] m IH]; simpl.
  - destruct (String.eqb_spec k' k); [contradiction | reflexivity].
  - destruct (String.eqb_spec k k0) as [->|Hk]; simpl.
    + destruct (String.eqb_spec k' k0); [contradiction | reflexivity].
    + destruct (String.eqb_spec k' k0); [reflexivity | exact IH].
Qed.

Lemma mem_In k (l : list string) : mem k l = true <-> In k l.
Proof.
  unfold mem. rewrite existsb_exists. split.
  - intros [x [Hx E]]. apply String.eqb_eq in E. now subst.
  - intros H. exists k. split; [exact H | apply String.eqb_refl].
Qed.

Lemma get_None_keys m k : JsMap.get k m = None <-> ~ In k (JsMap.keys m).
Proof.
  induction m as [|[k' v'] m IH]; simpl.
  - tauto.
  - destruct (String.eqb_spec k k') as [->|Hne].
    + split; [discriminate | intros H; exfalso; apply H; now left].
    + rewrite IH. split.
      * intros H [E|HIn]; [now apply Hne | now apply H].
      * intros H HIn. apply H. now right.
Qed.

Lemma get_Some_In m k v : JsMap.get k m = Some v -> In v (JsMap.values m).
Proof.
  induction m as [|[k' v'] m IH]; simpl; [discriminate|].
  destruct (String.eqb k k').
  - intros [= ->]. now left.
  - intros H. right. now apply IH.
Qed.

Lemma In_values_get m v :
  In v (JsMap.values m) -> exists k, In k (JsMap.keys m) /\ In (k, v) m.
Proof.
  unfold JsMap.values, JsMap.keys. intros H. apply in_map_iff in H.
  destruct H as [[k v0] [E HIn]]. simpl in E. subst v0.
  exists k. split; [|exact HIn].
  apply in_map_iff. now exists (k, v).
Qed.

(** Writing under a new key appends. *)
Lemma values_set_fresh m k v :
  ~ In k (JsMap.keys m) ->
  JsMap.values (JsMap.set k v m) = JsMap.values m ++ [v].
Proof.
  induction m as [|[k' v'] m IH]; simpl; intros Hk; [reflexivity|].
  destruct (String.eqb_spec k k') as [->|Hne].
  - exfalso. apply Hk. now left.
  - simpl. f_equal. apply IH. intros HIn. apply Hk. now right.
Qed.

Lemma keys_set_fresh m k v :
  ~ In k (JsMap.keys m) ->
  JsMap.keys (JsMap.set k v m) = JsMap.keys m ++ [k].
Proof.
  induction m as [|[k' v'] m IH]; simpl; intros Hk; [reflexivity|].
  destruct (String.eqb_spec k k') as [->|Hne].
  - exfalso. apply Hk. now left.
  - simpl. f_equal. apply IH. intros HIn. apply Hk. now right.
Qed.

(** Writing under an existing key replaces one value: a count that cannot
    tell the old value from the new one does not change. *)
Lemma filter_set_same_length m k v v' (p : V -> bool) :
  JsMap.get k m = Some v -> p v' = p v ->
  List.length (filter p (JsMap.values (JsMap.set k v' m)))
  = List.length (filter p (JsMap.values m)).
Proof.
  induction m as [|[k0 v0] m IH]; simpl; [discriminate|].
  destruct (String.eqb k k0); simpl.
  - intros [= ->] Hp. rewrite Hp. now destruct (p v).
  - intros Hget Hp. destruct (p v0); simpl; rewrite (IH Hget Hp); reflexivity.
Qed.

(** ... and a selection that takes neither value is the same list. *)
Lemma filter_set_unselected m k v v' (p : V -> bool) :
  JsMap.get k m = Some v -> p v = false -> p v' = false ->
  filter p (JsMap.values (JsMap.set k v' m)) = filter p (JsMap.values m).
Proof.
  induction m as [|[k0 v0] m IH]; simpl; [discriminate|].
  destruct (String.eqb k k0); simpl.
  - intros [= ->] Hp Hp'. rewrite Hp, Hp'. reflexivity.
  - intros Hget Hp Hp'. rewrite (IH Hget Hp Hp'). reflexivity.
Qed.

Lemma In_values_set m k v' x :
  In x (JsMap.values (JsMap.set k v' m)) -> x = v' \/ In x (JsMap.values m).
Proof.
  induction m as [|[k0 v0] m IH]; simpl.
  - intros [E|[]]. now left.
  - destruct (String.eqb k k0); simpl.
    + intros [E|H]; [now left | right; now right].
    + intros [E|H]; [right; now left|].
      destruct (IH H) as [E|HIn]; [now left | right; now right].
Qed.

End JsMapFacts.

(** ** Sorting by sequence number *)

Lemma insertBySequence_In c x l :
  In x (insertBySequence c l) <-> x = c \/ In x l.
Proof.
  induction l as [|d l IH]; simpl.
  - intuition congruence.
  - destruct (Z.leb _ _); simpl; [intuition congruence|].
    rewrite IH. intuition congruence.
Qed.

Lemma sortBySequence_In x l : In x (sortBySequence l) <-> In x l.
Proof.
  induction l as [|c l IH]; simpl; [tauto|].
  rewrite insertBySequence_In, IH. intuition congruence.
Qed.

Lemma insertBySequence_filter_length (p : Chunk.t -> bool) c l :
  List.length (filter p (insertBySequence c l))
  = List.length (filter p (c :: l)).
Proof.
  induction l as [|d l IH]; [reflexivity|].
  simpl insertBySequence. destruct (Z.leb _ _); [reflexivity|].
  simpl in *. destruct (p d), (p c); simpl in *; lia.
Qed.

Lemma sortBySequence_filter_length (p : Chunk.t -> bool) l :
  List.length (filter p (sortBySequence l)) = List.length (filter p l).
Proof.
  induction l as [|c l IH]; [reflexivity|].
  simpl sortBySequence. rewrite insertBySequence_filter_length.
  simpl. destruct (p c); simpl; now rewrite IH.
Qed.

Lemma insertBySequence_length c l :
  List.length (insertBySequence c l) = S (List.length l).
Proof.
  induction l as [|d l IH]; simpl; [reflexivity|].
  destruct (Z.leb _ _); simpl; [reflexivity | now rewrite IH].
Qed.

Lemma sortBySequence_length l :
  List.length (sortBySequence l) = List.length l.
Proof.
  induction l as [|c l IH]; simpl; [reflexivity|].
  now rewrite insertBySequence_length, IH.
Qed.

Lemma getChunksByInvoice_In st invoiceId c :
  In c (getChunksByInvoice invoiceId st) <-> chunkOf st invoiceId c.
Proof.
  unfold getChunksByInvoice, chunkOf.
  rewrite sortBySequence_In, filter_In, String.eqb_eq. tauto.
Qed.

Lemma ChunkStatus_eqb_eq a b : ChunkStatus_eqb a b = true <-> a = b.
Proof. destruct a, b; simpl; split; congruence. Qed.

Lemma hasStatus_true s c : hasStatus s c = true <-> Chunk.status c = s.
Proof. apply ChunkStatus_eqb_eq. Qed.

Lemma hasStatus_false s c : hasStatus s c = false <-> Chunk.status c <> s.
Proof.
  rewrite <- hasStatus_true. destruct (hasStatus s c); split; congruence.
Qed.

(** ** The finalization gate *)

Lemma allReviewed_false st id :
  forallb (fun c => negb (hasStatus pending c) && negb (hasStatus editing c))
    (getChunksByInvoice id st) = false <->
  exists c, chunkOf st id c /\
            (Chunk.status c = pending \/ Chunk.status c = editing).
Proof.
  split.
  - intros H.
    destruct (forallb_forall
                (fun c => negb (hasStatus pending c) && negb (hasStatus editing c))
                (getChunksByInvoice id st)) as [_ Hall].
    assert (Hex : ~ forall c, In c (getChunksByInvoice id st) ->
                    negb (hasStatus pending c) && negb (hasStatus editing c) = true).
    { intros Hf. rewrite (Hall Hf) in H. discriminate. }
    clear Hall H. revert Hex.
    generalize (fun c => proj1 (getChunksByInvoice_In st id c)).
    induction (getChunksByInvoice id st) as [|c l IH]; intros Hof Hex.
    + exfalso. apply Hex. intros c [].
    + destruct (negb (hasStatus pending c) && negb (hasStatus editing c)) eqn:E.
      * apply IH.
        -- intros x Hx. apply Hof. now right.
        -- intros Hf. apply Hex. intros x [<-|Hx]; [exact E | now apply Hf].
      * exists c. split; [apply Hof; now left|].
        apply andb_false_iff in E. destruct E as [E|E];
          apply negb_false_iff, hasStatus_true in E; tauto.
  - intros [c [Hc Hs]]. apply getChunksByInvoice_In in Hc.
    destruct (forallb _ _) eqn:E; [|reflexivity].
    rewrite forallb_forall in E. specialize (E c Hc).
    apply andb_true_iff in E. destruct E as [E1 E2].
    apply negb_true_iff, hasStatus_false in E1.
    apply negb_true_iff, hasStatus_false in E2. tauto.
Qed.

Lemma allReviewed_true st id :
  (forall c, chunkOf st id c ->
             Chunk.status c = approved \/ Chunk.status c = rejected) ->
  forallb (fun c => negb (hasStatus pending c) && negb (hasStatus editing c))
    (getChunksByInvoice id st) = true.
Proof.
  intros H. apply forallb_forall. intros c Hc.
  apply getChunksByInvoice_In in Hc. unfold hasStatus.
  destruct (H c Hc) as [-> | ->]; reflexivity.
Qed.

Lemma hasRejected_iff st id :
  existsb (hasStatus rejected) (getChunksByInvoice id st) = true <->
  exists c, chunkOf st id c /\ Chunk.status c = rejected.
Proof.
  rewrite existsb_exists. split; intros [c [Hc Hs]]; exists c.
  - now rewrite <- getChunksByInvoice_In, <- hasStatus_true.
  - now rewrite getChunksByInvoice_In, hasStatus_true.
Qed.

(** What a finalize request that passes the gate does. *)
Lemma finalizeInvoice_passed st id now invoice :
  getInvoice id st = Some invoice ->
  forallb (fun c => negb (hasStatus pending c) && negb (hasStatus editing c))
    (getChunksByInvoice id st) = true ->
  let finalStatus :=
    if existsb (hasStatus rejected) (getChunksByInvoice id st)
    then I_rejected else I_approved in
  let updated :=
    applyInvoiceUpdates invoice
      (InvoiceUpdates.mk (Some finalStatus) None None None None None) now in
  let st' := mkStore (JsMap.set id updated (invoices st)) (chunks st) in
  finalizeInvoice id now st = (res_json updated, st', [st']).
Proof.
  intros Hget Hall. unfold finalizeInvoice, bind, query, call, ret.
  rewrite Hall. simpl. unfold updateInvoice.
  unfold getInvoice in Hget. rewrite Hget. reflexivity.
Qed.

(** C1. Finalizing a document while one of its chunks is pending or being
    edited answers 400 "All chunks must be reviewed before finalizing" and
    writes nothing: the store is the one before the call and no storage call
    was made. Finalizing a document all of whose chunks are approved or
    rejected answers with the updated document. *)
Theorem finalize_gate (st : Store) (id : string) (now : Date)
    (invoice : Invoice.t) :
  getInvoice id st = Some invoice ->
  ((exists c, chunkOf st id c /\
              (Chunk.status c = pending \/ Chunk.status c = editing)) ->
   finalizeInvoice id now st
   = (res_error 400 "All chunks must be reviewed before finalizing", st, []))
  /\
  ((forall c, chunkOf st id c ->
              Chunk.status c = approved \/ Chunk.status c = rejected) ->
   exists updated st' log,
     finalizeInvoice id now st = (res_json updated, st', log)).
Proof.
  intros Hget. split.
  - intros Hex. apply allReviewed_false in Hex.
    unfold finalizeInvoice, bind, query, ret. now rewrite Hex.
  - intros Hall. apply allReviewed_true in Hall.
    pose proof (finalizeInvoice_passed st id now Hget Hall) as H.
    simpl in H. eauto.
Qed.

(** C2. When finalize succeeds, the returned status is [rejected] exactly
    when the document has a rejected chunk and [approved] when it has none,
    and the stored document is the returned one. *)
Theorem finalize_outcome (st st' : Store) (id : string) (now : Date)
    (updated : Invoice.t) (log : list Store) :
  finalizeInvoice id now st = (res_json updated, st', log) ->
  (Invoice.status updated = I_rejected <->
   exists c, chunkOf st id c /\ Chunk.status c = rejected)
  /\ ((~ exists c, chunkOf st id c /\ Chunk.status c = rejected) ->
      Invoice.status updated = I_approved)
  /\ getInvoice id st' = Some updated.
Proof.
  intros H. unfold finalizeInvoice, bind, query, call, ret in H.
  destruct (forallb _ _) eqn:Hall; simpl in H; [|discriminate].
  unfold updateInvoice in H.
  destruct (JsMap.get id (invoices st)) as [invoice|] eqn:Hget;
    simpl in H; [|discriminate].
  injection H as <- <- _.
  rewrite <- hasRejected_iff.
  unfold getInvoice. simpl. rewrite get_set_same.
  destruct (existsb _ _); simpl; repeat split; intros; congruence.
Qed.

(** C10. Finalizing a document that has no chunk succeeds and stores the
    status [approved], whatever the status of the document was. *)
Theorem finalize_without_chunks (st : Store) (id : string) (now : Date)
    (invoice : Invoice.t) :
  getInvoice id st = Some invoice ->
  getChunksByInvoice id st = [] ->
  exists updated st' log,
    finalizeInvoice id now st = (res_json updated, st', log)
    /\ Invoice.status updated = I_approved
    /\ getInvoice id st' = Some updated.
Proof.
  intros Hget Hnone.
  assert (Hall : forallb (fun c => negb (hasStatus pending c)
                                   && negb (hasStatus editing c))
                   (getChunksByInvoice id st) = true)
    by now rewrite Hnone.
  pose proof (finalizeInvoice_passed st id now Hget Hall) as H.
  rewrite Hnone in H. simpl in H.
  eexists _, _, _. split; [exact H|]. split; [reflexivity|].
  unfold getInvoice. simpl. apply get_set_same.
Qed.

(** *** Witnesses *)

Lemma finalize_gate_witness :
  (finalizeInvoice "invoice-1" 6001 (store Demo.reviewedWorld)
   = (res_error 400 "All chunks must be reviewed before finalizing",
      store Demo.reviewedWorld, []))
  /\ exists updated st' log,
       finalizeInvoice "invoice-1" 6001 (store Demo.decidedWorld)
       = (res_json updated, st', log).
Proof.
  split.
  - refine (proj1 (finalize_gate (store Demo.reviewedWorld) "invoice-1" 6001
                     (invoice := _) eq_refl) _).
    exists (Demo.chunkAt Demo.reviewedWorld "chunk-4").
    vm_compute. repeat split; tauto.
  - refine (proj2 (finalize_gate (store Demo.decidedWorld) "invoice-1" 6001
                     (invoice := _) eq_refl) _).
    intros c Hc. apply getChunksByInvoice_In in Hc. vm_compute in Hc.
    repeat (destruct Hc as [<-|Hc]; [vm_compute; tauto|]). destruct Hc.
Defined.

Lemma finalize_outcome_witness :
  exists updated st' log,
    finalizeInvoice "invoice-1" 6001 (store Demo.decidedWorld)
    = (res_json updated, st', log)
    /\ Invoice.status updated = I_rejected
    /\ getInvoice "invoice-1" st' = Some updated.
Proof.
  eexists _, _, _.
  assert (H : finalizeInvoice "invoice-1" 6001 (store Demo.decidedWorld)
              = _) by (vm_compute; reflexivity).
  split; [exact H|].
  destruct (finalize_outcome _ _ _ H) as [Hiff [_ Hstored]].
  split; [|exact Hstored].
  apply Hiff. exists (Demo.chunkAt Demo.decidedWorld "chunk-3").
  vm_compute. repeat split. tauto.
Defined.

Lemma finalize_without_chunks_witness :
  exists updated st' log,
    finalizeInvoice "invoice-1" 6001 (store Demo.uploadedWorld)
    = (res_json updated, st', log)
    /\ Invoice.status updated = I_approved
    /\ getInvoice "invoice-1" st' = Some updated.
Proof.
  exact (finalize_without_chunks (store Demo.uploadedWorld) "invoice-1" 6001
           (invoice := _) eq_refl eq_refl).
Defined.

(** ** The review navigator *)

Lemma findIndex_from_range p i l :
  findIndex_from p i l = -1 \/ i <= findIndex_from p i l.
Proof.
  revert i. induction l as [|x l IH]; intros i; simpl; [now left|].
  destruct (p x i); [right; lia|].
  destruct (IH (i + 1)) as [E|E]; [now left | right; lia].
Qed.

Lemma findIndex_from_none p i l :
  findIndex_from p i l = -1 -> 0 <= i ->
  forall n x, nth_error l n = Some x -> p x (i + Z.of_nat n) = false.
Proof.
  revert i. induction l as [|y l IH]; intros i H Hi n x Hn.
  - destruct n; discriminate.
  - simpl in H. destruct (p y i) eqn:E; [lia|].
    destruct n as [|n]; simpl in Hn.
    + injection Hn as <-. now rewrite Z.add_0_r.
    + replace (i + Z.of_nat (S n)) with (i + 1 + Z.of_nat n) by lia.
      apply IH; [exact H | lia | exact Hn].
Qed.

Lemma findIndex_from_found p i l :
  0 <= i -> i <= findIndex_from p i l ->
  exists n x,
    findIndex_from p i l = i + Z.of_nat n
    /\ nth_error l n = Some x
    /\ p x (i + Z.of_nat n) = true
    /\ forall m y, (m < n)%nat -> nth_error l m = Some y ->
                   p y (i + Z.of_nat m) = false.
Proof.
  revert i. induction l as [|y l IH]; intros i Hi H; simpl in *; [lia|].
  destruct (p y i) eqn:E.
  - exists 0%nat, y. rewrite Z.add_0_r. repeat split; try assumption.
    intros m z Hm. lia.
  - destruct (IH (i + 1)) as [n [x [Hj [Hn [Hp Hbefore]]]]]; [lia | |].
    + destruct (findIndex_from_range p (i + 1) l); lia.
    + exists (S n), x.
      replace (i + Z.of_nat (S n)) with (i + 1 + Z.of_nat n) by lia.
      repeat split; try assumption.
      intros m z Hm Hz. destruct m as [|m]; simpl in Hz.
      * injection Hz as <-. now rewrite Z.add_0_r.
      * replace (i + Z.of_nat (S m)) with (i + 1 + Z.of_nat m) by lia.
        apply Hbefore with (m := m); [lia | exact Hz].
Qed.

Lemma at_index_nth chunks k c :
  at_index chunks k = Some c <-> 0 <= k /\ nth_error chunks (Z.to_nat k) = Some c.
Proof.
  unfold at_index. destruct (Z.ltb_spec k 0); split.
  - discriminate.
  - intros [H0 _]. lia.
  - intros Hn. now split.
  - now intros [_ Hn].
Qed.

(** The focus after a decision on a pending chunk at [cursor]: the first
    pending chunk after it, or [cursor] when there is none. *)
Lemma decideFocused_pending notify chunks cursor focused :
  0 <= cursor ->
  hasStatus pending focused = true ->
  snd (decideFocused notify chunks cursor focused)
  = [preventDefault; notify focused]
  /\ let cursor' := fst (decideFocused notify chunks cursor focused) in
     (cursor < cursor'
      /\ (exists c, at_index chunks cursor' = Some c /\ Chunk.status c = pending)
      /\ (forall k c, cursor < k < cursor' -> at_index chunks k = Some c ->
                      Chunk.status c <> pending))
     \/ (cursor' = cursor
         /\ forall k c, cursor < k -> at_index chunks k = Some c ->
                        Chunk.status c <> pending).
Proof.
  intros Hcur Hpend. unfold decideFocused. rewrite Hpend.
  split; [reflexivity|]. cbv zeta. unfold findIndex.
  set (p := fun (chunk : Chunk.t) (index : Z) =>
              Z.gtb index cursor && hasStatus pending chunk).
  destruct (findIndex_from_range p 0 chunks) as [Hnone|Hsome].
  - right. rewrite Hnone. simpl. split; [reflexivity|].
    intros k c Hk Hat. apply at_index_nth in Hat. destruct Hat as [Hk0 Hn].
    pose proof (findIndex_from_none p chunks Hnone (Z.le_refl 0) _ Hn) as Hp.
    unfold p in Hp. rewrite Z2Nat.id in Hp by lia. simpl in Hp.
    apply andb_false_iff in Hp. destruct Hp as [Hp|Hp].
    + rewrite Z.gtb_ltb, Z.ltb_ge in Hp. lia.
    + now apply hasStatus_false.
  - left.
    destruct (findIndex_from_found p chunks (Z.le_refl 0) Hsome)
      as [n [x [Hj [Hn [Hp Hbefore]]]]].
    rewrite Hj. simpl (0 + _) in *.
    assert (Hge : Z.geb (Z.of_nat n) 0 = true) by (apply Z.geb_le; lia).
    rewrite Hge. simpl fst.
    unfold p in Hp. apply andb_true_iff in Hp. destruct Hp as [Hgt Hx].
    rewrite Z.gtb_ltb, Z.ltb_lt in Hgt.
    split; [exact Hgt|]. split.
    + exists x. split; [|now apply hasStatus_true].
      apply at_index_nth. split; [lia|]. now rewrite Nat2Z.id.
    + intros k c [Hlo Hhi] Hat. apply at_index_nth in Hat.
      destruct Hat as [Hk0 Hk].
      assert (Hm : (Z.to_nat k < n)%nat) by lia.
      pose proof (Hbefore _ _ Hm Hk) as Hq. unfold p in Hq.
      rewrite Z2Nat.id in Hq by lia.
      apply andb_false_iff in Hq. destruct Hq as [Hq|Hq].
      * rewrite Z.gtb_ltb, Z.ltb_ge in Hq. lia.
      * now apply hasStatus_false.
Qed.

Lemma handleKeyDown_decides chunks cursor event notify focused :
  target event = OtherTarget ->
  (key event = "Enter" /\ notify = onApprove)
  \/ ((key event = "r" \/ key event = "R") /\ notify = onReject) ->
  at_index chunks cursor = Some focused ->
  handleKeyDown chunks cursor event
  = decideFocused notify chunks cursor focused.
Proof.
  intros Htarget Hkey Hat. unfold handleKeyDown. rewrite Htarget, Hat.
  destruct Hkey as [[-> ->] | [[-> | ->] ->]]; reflexivity.
Qed.

(** C9, as the code has it. On [Enter] (approve) or [r]/[R] (reject), with
    the focus outside a text field: when the chunk at the cursor is pending,
    the transition is invoked on it and the cursor moves to the first
    pending chunk strictly after it, staying put when there is none (the
    search does not wrap around); when the chunk at the cursor is not
    pending, no transition is invoked and the cursor stays put; when there
    is no chunk at the cursor, nothing happens. *)
Theorem decide_current_when_pending (chunks : list Chunk.t) (cursor : Z)
    (event : KeyboardEvent) (notify : Chunk.t -> NavEffect) :
  target event = OtherTarget ->
  (key event = "Enter" /\ notify = onApprove)
  \/ ((key event = "r" \/ key event = "R") /\ notify = onReject) ->
  let cursor' := fst (handleKeyDown chunks cursor event) in
  let effects := snd (handleKeyDown chunks cursor event) in
  match at_index chunks cursor with
  | None => cursor' = cursor /\ effects = []
  | Some focused =>
      if hasStatus pending focused then
        effects = [preventDefault; notify focused]
        /\ ((cursor < cursor'
             /\ (exists c, at_index chunks cursor' = Some c
                           /\ Chunk.status c = pending)
             /\ (forall k c, cursor < k < cursor' ->
                             at_index chunks k = Some c ->
                             Chunk.status c <> pending))
            \/ (cursor' = cursor
                /\ forall k c, cursor < k -> at_index chunks k = Some c ->
                               Chunk.status c <> pending))
      else cursor' = cursor /\ effects = [preventDefault]
  end.
Proof.
  intros Htarget Hkey. cbv zeta.
  destruct (at_index chunks cursor) as [focused|] eqn:Hat.
  2:{ unfold handleKeyDown. rewrite Htarget, Hat. now split. }
  assert (Hcur : 0 <= cursor) by (apply at_index_nth in Hat; tauto).
  rewrite (handleKeyDown_decides chunks cursor event Htarget Hkey Hat).
  destruct (hasStatus pending focused) eqn:Hp.
  - exact (decideFocused_pending notify chunks focused Hcur Hp).
  - unfold decideFocused. rewrite Hp. now split.
Qed.

Lemma decide_current_when_pending_witness :
  let chunks := getChunksByInvoice "invoice-1" (store Demo.processedWorld) in
  fst (handleKeyDown chunks 0 Demo.enter) = 1
  /\ snd (handleKeyDown chunks 0 Demo.enter)
     = [preventDefault; onApprove (Demo.chunkAt Demo.processedWorld "chunk-1")].
Proof.
  pose proof (decide_current_when_pending
                (getChunksByInvoice "invoice-1" (store Demo.processedWorld))
                0 Demo.enter (notify := onApprove) eq_refl
                (or_introl (conj eq_refl eq_refl))) as H.
  vm_compute in H. destruct H as [Heff _].
  split; [vm_compute; reflexivity | exact Heff].
Defined.

(** The navigation example of the specification: with statuses
    pending, approved, pending, rejected and the cursor on the first chunk,
    approving moves the cursor to the third chunk. *)
Example navigator_skips_to_next_pending :
  let w := Demo.worldAfter
             (Demo.processed ++ [Approve "chunk-2" 2001 2002;
                                 Reject "chunk-4" 2003 2004]) in
  let chunks := getChunksByInvoice "invoice-1" (store w) in
  map Chunk.status chunks = [pending; approved; pending; rejected]
  /\ fst (handleKeyDown chunks 0 Demo.enter) = 2.
Proof. vm_compute. split; reflexivity. Qed.

(** C9, as stated, fails: with the cursor on a rejected chunk, [Enter]
    invokes no approve transition on it. *)
Lemma approve_current_not_invoked_on_rejected :
  let chunks := getChunksByInvoice "invoice-1" (store Demo.reviewedWorld) in
  let focused := Demo.chunkAt Demo.reviewedWorld "chunk-3" in
  at_index chunks 2 = Some focused
  /\ Chunk.status focused = rejected
  /\ handleKeyDown chunks 2 Demo.enter = (2, [preventDefault])
  /\ ~ In (onApprove focused) (snd (handleKeyDown chunks 2 Demo.enter)).
Proof.
  vm_compute. repeat split.
  intros [H|[]]. discriminate H.
Qed.

(** ** Saving an edit *)

Lemma updateInvoice_chunks id updates now st :
  chunks (snd (updateInvoice id updates now st)) = chunks st.
Proof. unfold updateInvoice. now destruct (JsMap.get id (invoices st)). Qed.

Lemma updateInvoiceStats_chunks invoiceId now st :
  chunks (store_of (updateInvoiceStats invoiceId now st)) = chunks st.
Proof.
  unfold updateInvoiceStats, bind, query, call, ret, store_of.
  destruct (updateInvoice _ _ _ _) as [o st'] eqn:E. simpl.
  now rewrite <- (updateInvoice_chunks invoiceId
                    (statsUpdate
                       (countStatus approved (getChunksByInvoice invoiceId st))
                       (countStatus rejected (getChunksByInvoice invoiceId st)))
                    now st), E.
Qed.

(** What "save edit" does to the stored chunk: the new data, [isEdited],
    [pending] -- and [originalData] left as it was. *)
Lemma saveEdit_effect st chunk stored newData now1 now2 :
  getChunk (Chunk.id chunk) st = Some stored ->
  exists updated st' log,
    saveEdit chunk (Some newData) now1 now2 st = (res_json updated, st', log)
    /\ getChunk (Chunk.id chunk) st' = Some updated
    /\ Chunk.extractedData updated = Some newData
    /\ Chunk.isEdited updated = Some true
    /\ Chunk.status updated = pending
    /\ Chunk.originalData updated = Chunk.originalData stored.
Proof.
  intros Hget. unfold saveEdit, saveChanges, patchChunk. simpl.
  unfold bind at 1. unfold call at 1. unfold updateChunk.
  unfold getChunk in Hget. rewrite Hget.
  set (updated := applyChunkUpdates stored _ now1).
  set (st1 := mkStore (invoices st) (JsMap.set (Chunk.id chunk) updated (chunks st))).
  unfold bind at 1.
  destruct (updateInvoiceStats (Chunk.invoiceId updated) now2 st1)
    as [[u st2] log2] eqn:E.
  unfold ret. exists updated, st2, ([st1] ++ log2 ++ []).
  split; [reflexivity|].
  split.
  - unfold getChunk.
    replace (chunks st2) with (chunks st1).
    + simpl. apply get_set_same.
    + symmetry.
      change st2 with (store_of (u, st2, log2)). rewrite <- E.
      apply updateInvoiceStats_chunks.
  - repeat split.
Qed.

(** C8, at a first edit. The third chunk of the scenario has never been
    edited; after "save edit" with new data the stored chunk has the new
    data, [isEdited = true] and status [pending], but its [originalData] is
    still [null] instead of the data it had before the edit. *)
Example saveEdit_first_edit_keeps_no_snapshot :
  let before := Demo.chunkAt Demo.processedWorld "chunk-3" in
  let newData := JObj [("value", JStr "Totals (corrected)")] in
  let after :=
    getChunk "chunk-3"
      (store_of (saveEdit before (Some newData) 5001 5002
                   (store Demo.processedWorld))) in
  Chunk.isEdited before = Some false
  /\ Chunk.originalData before = None
  /\ Chunk.extractedData before = Some (JObj [("value", JStr "Totals")])
  /\ option_map Chunk.extractedData after = Some (Some newData)
  /\ option_map Chunk.isEdited after = Some (Some true)
  /\ option_map Chunk.status after = Some pending
  /\ option_map Chunk.originalData after = Some None.
Proof. vm_compute. repeat split. Qed.

(** ** The pipeline, run symbolically *)

Lemma updateInvoice_found st id invoice updates now :
  getInvoice id st = Some invoice ->
  updateInvoice id updates now st
  = (Some (applyInvoiceUpdates invoice updates now),
     withInvoice st id (applyInvoiceUpdates invoice updates now)).
Proof. unfold getInvoice, updateInvoice. now intros ->. Qed.

Lemma getInvoice_withInvoice st id invoice :
  getInvoice id (withInvoice st id invoice) = Some invoice.
Proof. apply get_set_same. Qed.

Lemma getInvoice_withInvoice_other st id id' invoice :
  id' <> id -> getInvoice id' (withInvoice st id invoice) = getInvoice id' st.
Proof. intros H. now apply get_set_other. Qed.

Lemma createChunks_run invoiceId clock entries :
  forall index st,
    createChunks invoiceId clock index entries st
    = (mapi_from (createdChunk invoiceId clock) index entries,
       mkStore (invoices st)
         (storeAll (chunks st)
            (mapi_from (createdChunk invoiceId clock) index entries)),
       storing (invoices st) (chunks st)
         (mapi_from (createdChunk invoiceId clock) index entries)).
Proof.
  induction entries as [|e entries IH]; intros index st.
  - now destruct st.
  - simpl. unfold bind, call, ret. simpl.
    rewrite IH. simpl. now rewrite app_nil_r.
Qed.

Lemma mapi_from_length {A B : Type} (f : A -> nat -> B) l :
  forall index, List.length (mapi_from f index l) = List.length l.
Proof. induction l; intros; simpl; [reflexivity | now rewrite IHl]. Qed.

Lemma mapi_from_nth {A B : Type} (f : A -> nat -> B) l :
  forall index i,
    nth_error (mapi_from f index l) i
    = option_map (fun x => f x (index + i)%nat) (nth_error l i).
Proof.
  induction l as [|x l IH]; intros index i.
  - now destruct i.
  - destruct i as [|i]; simpl.
    + now rewrite Nat.add_0_r.
    + rewrite IH. now rewrite Nat.add_succ_r.
Qed.

Lemma storing_invoices invs m cs :
  Forall (fun s => invoices s = invs) (storing invs m cs).
Proof.
  revert m. induction cs as [|c cs IH]; intros m; simpl; constructor; auto.
Qed.

Lemma storing_length invs m cs :
  List.length (storing invs m cs) = List.length cs.
Proof.
  revert m. induction cs as [|c cs IH]; intros m; simpl; [|rewrite IH]; reflexivity.
Qed.

Section BackgroundRun.
Variables (id mimeType : string) (clock : RunClock).
Variables (sharp : result string) (reply : VisionReply).
Variables (st : Store) (invoice : Invoice.t).
Hypothesis Hstored : getInvoice id st = Some invoice.

Let i25 := applyInvoiceUpdates invoice (progressUpdate 25) (at25 clock).
Let s25 := withInvoice st id i25.
Let i50 := applyInvoiceUpdates i25 (progressUpdate 50) (at50 clock).
Let s50 := withInvoice s25 id i50.
Let i75 := applyInvoiceUpdates i50 (progressUpdate 75) (at75 clock).
Let s75 := withInvoice s50 id i75.

Lemma background_convert_fails message :
  convertToBase64Image mimeType sharp = throw message ->
  processFileInBackground id mimeType clock sharp reply st
  = (tt,
     withInvoice s25 id (applyInvoiceUpdates i25 failedUpdate (atCatch clock)),
     [s25;
      withInvoice s25 id (applyInvoiceUpdates i25 failedUpdate (atCatch clock))]).
Proof.
  intros Hc. unfold processFileInBackground, afterConvert, onPipelineError.
  rewrite Hc. unfold bind, call, ret.
  rewrite (@updateInvoice_found _ _ _ _ _ Hstored). fold i25 s25.
  now rewrite (@updateInvoice_found _ _ _ _ _ (getInvoice_withInvoice st id i25)).
Qed.

Lemma background_vision_fails image message :
  convertToBase64Image mimeType sharp = ok image ->
  parseInvoiceWithVision reply = throw message ->
  processFileInBackground id mimeType clock sharp reply st
  = (tt,
     withInvoice s50 id (applyInvoiceUpdates i50 failedUpdate (atCatch clock)),
     [s25; s50;
      withInvoice s50 id (applyInvoiceUpdates i50 failedUpdate (atCatch clock))]).
Proof.
  intros Hc Hp.
  unfold processFileInBackground, afterConvert, afterVision, onPipelineError.
  rewrite Hc, Hp. unfold bind, call, ret.
  rewrite (@updateInvoice_found _ _ _ _ _ Hstored). fold i25 s25.
  rewrite (@updateInvoice_found _ _ _ _ _ (getInvoice_withInvoice st id i25)).
  fold i50 s50.
  now rewrite (@updateInvoice_found _ _ _ _ _ (getInvoice_withInvoice s25 id i50)).
Qed.

Lemma background_succeeds image parsedData :
  convertToBase64Image mimeType sharp = ok image ->
  parseInvoiceWithVision reply = ok parsedData ->
  let created :=
    mapi_from (createdChunk id clock) 0 (parsed_chunks parsedData) in
  let stored := mkStore (invoices s75) (storeAll (chunks st) created) in
  let ready :=
    withInvoice stored id
      (applyInvoiceUpdates i75
         (readyUpdate (parsed_extractedText parsedData)
            (Z.of_nat (List.length created)))
         (atReady clock)) in
  processFileInBackground id mimeType clock sharp reply st
  = (tt, ready,
     [s25; s50; s75] ++ storing (invoices s75) (chunks st) created ++ [ready]).
Proof.
  intros Hc Hp created stored ready.
  unfold processFileInBackground, afterConvert, afterVision.
  rewrite Hc, Hp. unfold bind, call, ret.
  rewrite (@updateInvoice_found _ _ _ _ _ Hstored). fold i25 s25.
  rewrite (@updateInvoice_found _ _ _ _ _ (getInvoice_withInvoice st id i25)).
  fold i50 s50.
  rewrite (@updateInvoice_found _ _ _ _ _ (getInvoice_withInvoice s25 id i50)).
  fold i75 s75.
  rewrite createChunks_run. fold created. simpl chunks. fold stored.
  assert (Hget : getInvoice id stored = Some i75)
    by apply (getInvoice_withInvoice s50 id i75).
  rewrite (@updateInvoice_found _ _ _ _ _ Hget). fold ready.
  simpl. reflexivity.
Qed.

End BackgroundRun.

Lemma processUploadedFile_run filePath filename mimeType fileSize id now
    clock sharp reply st :
  let s10 := withInvoice st id
               (uploadedInvoice filePath filename mimeType fileSize id now) in
  let r := processFileInBackground id mimeType clock sharp reply s10 in
  processUploadedFile filePath filename mimeType fileSize id now clock sharp
    reply st
  = (id, store_of r, s10 :: log_of r).
Proof.
  cbv zeta. unfold processUploadedFile, bind, call, ret, createInvoice. simpl.
  fold (uploadedInvoice filePath filename mimeType fileSize id now).
  fold (withInvoice st id (uploadedInvoice filePath filename mimeType fileSize id now)).
  destruct (processFileInBackground _ _ _ _ _ _) as [[u s] l].
  simpl. now rewrite app_nil_r.
Qed.

Lemma storing_progress id invs m cs :
  map (progressOf id) (storing invs m cs)
  = repeat (option_map Invoice.processingProgress (JsMap.get id invs))
      (List.length cs).
Proof.
  revert m. induction cs as [|c cs IH]; intros m; simpl; [reflexivity|].
  now rewrite IH.
Qed.

Lemma storing_chunks_In invs m cs s :
  In s (storing invs m cs) -> cs <> [].
Proof. destruct cs; simpl; [tauto | discriminate]. Qed.

(** C4. When the conversion and the extraction succeed, the progress of the
    document after the successive storage calls of the run is 10, 25, 50,
    75 (once more after each chunk is stored) and 100, and the document
    ends ready for review with progress 100, the extracted text, a total
    equal to the number of extracted entries and both counters at 0. *)
Theorem pipeline_checkpoints (filePath filename mimeType : string)
    (fileSize : Z) (id : string) (now : Date) (clock : RunClock)
    (sharp : result string) (reply : VisionReply) (st : Store)
    (image : string) (parsedData : ParsedInvoiceData) :
  convertToBase64Image mimeType sharp = ok image ->
  parseInvoiceWithVision reply = ok parsedData ->
  let r := processUploadedFile filePath filename mimeType fileSize id now
             clock sharp reply st in
  let n := List.length (parsed_chunks parsedData) in
  map (progressOf id) (log_of r)
  = [Some 10; Some 25; Some 50; Some 75] ++ repeat (Some 75) n ++ [Some 100]
  /\ exists invoice,
       getInvoice id (store_of r) = Some invoice
       /\ Invoice.status invoice = I_ready_for_review
       /\ Invoice.processingProgress invoice = 100
       /\ Invoice.extractedText invoice
          = Some (parsed_extractedText parsedData)
       /\ Invoice.totalChunks invoice = Z.of_nat n
       /\ Invoice.approvedChunks invoice = 0
       /\ Invoice.rejectedChunks invoice = 0.
Proof.
  intros Hc Hp. cbv zeta. rewrite processUploadedFile_run. cbv zeta.
  rewrite (@background_succeeds _ _ clock _ _ _ _
             (getInvoice_withInvoice st id _) _ _ Hc Hp).
  unfold store_of, log_of. simpl fst; simpl snd. split.
  - rewrite !map_cons, map_app, storing_progress, mapi_from_length.
    unfold progressOf. rewrite !getInvoice_withInvoice.
    simpl invoices. rewrite get_set_same.
    simpl map. rewrite getInvoice_withInvoice. reflexivity.
  - eexists. split; [apply getInvoice_withInvoice|].
    rewrite mapi_from_length. simpl. repeat split.
Qed.

(** ** Storing the chunks of a run *)

Lemma distinct_cons k l :
  distinct (k :: l) = true <-> ~ In k l /\ distinct l = true.
Proof.
  simpl. rewrite andb_true_iff, negb_true_iff, <- mem_In.
  destruct (mem k l); intuition congruence.
Qed.

Lemma storeAll_get_other m cs k :
  ~ In k (map Chunk.id cs) ->
  JsMap.get k (storeAll m cs) = JsMap.get k m.
Proof.
  revert m. induction cs as [|c cs IH]; intros m Hk; [reflexivity|].
  simpl in *. unfold storeAll in *. simpl. rewrite IH by tauto.
  apply get_set_other. intros ->. tauto.
Qed.

Lemma storeAll_get m cs i c :
  distinct (map Chunk.id cs) = true ->
  nth_error cs i = Some c ->
  JsMap.get (Chunk.id c) (storeAll m cs) = Some c.
Proof.
  revert m i. induction cs as [|d cs IH]; intros m i Hd Hi.
  - destruct i; discriminate.
  - simpl map in Hd. apply distinct_cons in Hd. destruct Hd as [Hnew Hd].
    unfold storeAll in *. simpl.
    destruct i as [|i]; simpl in Hi.
    + injection Hi as ->.
      fold (storeAll (JsMap.set (Chunk.id c) c m) cs).
      rewrite storeAll_get_other by exact Hnew. apply get_set_same.
    + now apply IH with (i := i).
Qed.

Lemma storeAll_values m cs :
  distinct (map Chunk.id cs) = true ->
  (forall k, In k (map Chunk.id cs) -> ~ In k (JsMap.keys m)) ->
  JsMap.values (storeAll m cs) = JsMap.values m ++ cs
  /\ JsMap.keys (storeAll m cs) = JsMap.keys m ++ map Chunk.id cs.
Proof.
  revert m. induction cs as [|c cs IH]; intros m Hd Hfresh.
  - simpl. now rewrite !app_nil_r.
  - simpl map in Hd. apply distinct_cons in Hd. destruct Hd as [Hnew Hd].
    unfold storeAll in *. simpl.
    assert (Hc : ~ In (Chunk.id c) (JsMap.keys m))
      by (apply Hfresh; now left).
    destruct (IH (JsMap.set (Chunk.id c) c m) Hd) as [Hv Hk].
    + intros k Hk. rewrite keys_set_fresh by exact Hc.
      rewrite in_app_iff. intros [H|[<-|[]]].
      * revert H. apply Hfresh. now right.
      * now apply Hnew.
    + rewrite Hv, Hk, values_set_fresh, keys_set_fresh by exact Hc.
      now rewrite <- !app_assoc.
Qed.

Lemma created_ids invoiceId clock entries :
  forall index,
    map Chunk.id (mapi_from (createdChunk invoiceId clock) index entries)
    = map (uuidOfChunk clock) (seq index (List.length entries)).
Proof.
  induction entries as [|e entries IH]; intros index; simpl; [reflexivity|].
  now rewrite IH.
Qed.

Lemma freshChunkIds_spec clock n st :
  freshChunkIds clock n st = true ->
  distinct (map (uuidOfChunk clock) (seq 0 n)) = true
  /\ forall k, In k (map (uuidOfChunk clock) (seq 0 n)) ->
               ~ In k (JsMap.keys (chunks st)).
Proof.
  unfold freshChunkIds. rewrite andb_true_iff, forallb_forall.
  intros [Hd Hf]. split; [exact Hd|].
  intros k Hk. specialize (Hf k Hk). rewrite negb_true_iff in Hf.
  rewrite <- mem_In. now rewrite Hf.
Qed.

Lemma insertBySequence_front c d l :
  Chunk.sequenceNumber c <= Chunk.sequenceNumber d ->
  insertBySequence c (d :: l) = c :: d :: l.
Proof. intros H. simpl. apply Z.leb_le in H. now rewrite H. Qed.

(** Chunks created by a run are already in sequence order. *)
Lemma created_sorted invoiceId clock entries :
  forall index,
    sortBySequence (mapi_from (createdChunk invoiceId clock) index entries)
    = mapi_from (createdChunk invoiceId clock) index entries.
Proof.
  induction entries as [|e entries IH]; intros index; [reflexivity|].
  cbn [mapi_from sortBySequence fold_right].
  fold (sortBySequence
          (mapi_from (createdChunk invoiceId clock) (S index) entries)).
  rewrite IH. destruct entries as [|e' entries]; [reflexivity|].
  cbn [mapi_from]. apply insertBySequence_front.
  unfold createdChunk. cbn [Chunk.sequenceNumber]. lia.
Qed.

Lemma created_owned invoiceId clock entries :
  forall index,
    filter (fun chunk => String.eqb (Chunk.invoiceId chunk) invoiceId)
      (mapi_from (createdChunk invoiceId clock) index entries)
    = mapi_from (createdChunk invoiceId clock) index entries.
Proof.
  induction entries as [|e entries IH]; intros index; [reflexivity|].
  simpl. rewrite String.eqb_refl. now rewrite IH.
Qed.

Lemma sortBySequence_nil l : sortBySequence l = [] -> l = [].
Proof.
  intros H. apply (f_equal (@List.length _)) in H.
  rewrite sortBySequence_length in H. now destruct l.
Qed.

Lemma parse_entries result items :
  prop result "chunks" = Some (JArr items) ->
  exists text,
    parseInvoiceWithVision (vision_content (ok result))
    = ok (mkParsed (mapi spreadChunk items) text).
Proof.
  intros H. destruct result; try discriminate H.
  simpl. simpl in H. rewrite H. eauto.
Qed.

Lemma run_chunks_success filePath filename mimeType fileSize id now clock
    sharp reply st image parsedData :
  convertToBase64Image mimeType sharp = ok image ->
  parseInvoiceWithVision reply = ok parsedData ->
  chunks (store_of (processUploadedFile filePath filename mimeType fileSize
                      id now clock sharp reply st))
  = storeAll (chunks st)
      (mapi_from (createdChunk id clock) 0 (parsed_chunks parsedData)).
Proof.
  intros Hc Hp. rewrite processUploadedFile_run. cbv zeta.
  now rewrite (@background_succeeds _ _ clock _ _ _ _
                 (getInvoice_withInvoice st id _) _ _ Hc Hp).
Qed.

(** The run taken alone, with no request served while it waits: when the
    conversion succeeds and the extraction result has the chunk list
    [items], for a document that had no chunk and with new identifiers, the
    chunks of the document after the run are, in order, one per entry. *)
Lemma uninterrupted_chunks_in_order (filePath filename mimeType : string)
    (fileSize : Z) (id : string) (now : Date) (clock : RunClock)
    (sharp : result string) (result : json) (items : list json)
    (st : Store) (image : string) :
  convertToBase64Image mimeType sharp = ok image ->
  prop result "chunks" = Some (JArr items) ->
  getChunksByInvoice id st = [] ->
  freshChunkIds clock (List.length items) st = true ->
  let final :=
    store_of (processUploadedFile filePath filename mimeType fileSize id now
                clock sharp (vision_content (ok result)) st) in
  let created := getChunksByInvoice id final in
  List.length created = List.length items
  /\ forall i item,
       nth_error items i = Some item ->
       exists c,
         nth_error created i = Some c
         /\ Chunk.sequenceNumber c = Z.of_nat i + 1
         /\ Chunk.chunkType c = prop item "type"
         /\ Chunk.title c = prop item "title"
         /\ Chunk.extractedData c = prop item "data"
         /\ Chunk.boundingBox c = prop item "boundingBox"
         /\ Chunk.confidence c = prop item "confidence"
         /\ Chunk.status c = pending
         /\ Chunk.isEdited c = Some false
         /\ Chunk.originalData c = None.
Proof.
  intros Hc Hitems Hnone Hfresh. cbv zeta.
  destruct (parse_entries result Hitems) as [text Hp].
  unfold getChunksByInvoice at 1 2.
  rewrite (@run_chunks_success filePath filename mimeType fileSize id now
             clock sharp _ st _ _ Hc Hp).
  simpl parsed_chunks. unfold mapi.
  set (cs := mapi_from (createdChunk id clock) 0 (mapi_from spreadChunk 0 items)).
  destruct (freshChunkIds_spec _ _ _ Hfresh) as [Hd Hnew].
  assert (Hids : map Chunk.id cs
                 = map (uuidOfChunk clock) (seq 0 (List.length items))).
  { unfold cs. rewrite created_ids. now rewrite mapi_from_length. }
  destruct (storeAll_values (chunks st) cs) as [Hv _];
    [now rewrite Hids | now rewrite Hids |].
  rewrite Hv, filter_app.
  unfold getChunksByInvoice in Hnone. apply sortBySequence_nil in Hnone.
  rewrite Hnone. cbn [app]. unfold cs.
  rewrite created_owned, created_sorted. split.
  - now rewrite !mapi_from_length.
  - intros i item Hi.
    rewrite mapi_from_nth, mapi_from_nth, Hi. simpl.
    eexists. split; [reflexivity|]. simpl. repeat split.
Qed.

(** ** Failure of a run *)

(** A reply without a chunk list, or whose [chunks] is not an array, makes
    the extraction throw. *)
Lemma malformed_extraction_throws (parsed : json) :
  (forall items, prop parsed "chunks" <> Some (JArr items)) ->
  exists message,
    parseInvoiceWithVision (vision_content (ok parsed)) = throw message.
Proof.
  intros H. destruct parsed; simpl; eauto.
  simpl in H. destruct (assoc "chunks" fields) as [[| | | |items|]|]; eauto.
  now destruct (H items).
Qed.

(** C3. Whatever the collaborators answer: if the conversion or the
    extraction throws, the run ends with the document [rejected] at
    progress 0 and no storage call of the run has touched the chunks; and
    in every case the chunks are either untouched or, when the identifiers
    drawn for them are all different, every entry has its chunk stored. *)
Theorem pipeline_failure_policy (filePath filename mimeType : string)
    (fileSize : Z) (id : string) (now : Date) (clock : RunClock)
    (sharp : result string) (reply : VisionReply) (st : Store) :
  let r := processUploadedFile filePath filename mimeType fileSize id now
             clock sharp reply st in
  ((exists message,
       convertToBase64Image mimeType sharp = throw message
       \/ parseInvoiceWithVision reply = throw message) ->
   (exists invoice,
       getInvoice id (store_of r) = Some invoice
       /\ Invoice.status invoice = I_rejected
       /\ Invoice.processingProgress invoice = 0)
   /\ chunks (store_of r) = chunks st
   /\ Forall (fun s => chunks s = chunks st) (log_of r))
  /\
  (chunks (store_of r) = chunks st
   \/ exists parsedData,
        parseInvoiceWithVision reply = ok parsedData
        /\ (distinct (map (uuidOfChunk clock)
                        (seq 0 (List.length (parsed_chunks parsedData))))
            = true ->
            forall i e,
              nth_error (parsed_chunks parsedData) i = Some e ->
              getChunk (uuidOfChunk clock i) (store_of r)
              = Some (createdChunk id clock e i))).
Proof.
  cbv zeta. rewrite processUploadedFile_run. cbv zeta.
  set (s10 := withInvoice st id
                (uploadedInvoice filePath filename mimeType fileSize id now)).
  assert (H10 : getInvoice id s10 = Some
                  (uploadedInvoice filePath filename mimeType fileSize id now))
    by apply getInvoice_withInvoice.
  destruct (convertToBase64Image mimeType sharp) as [image|m1] eqn:Hc.
  - destruct (parseInvoiceWithVision reply) as [parsedData|m2] eqn:Hp.
    + split.
      * intros [message [H|H]]; discriminate H.
      * right. exists parsedData. split; [reflexivity|].
        intros Hd i e Hi.
        rewrite (@background_succeeds _ _ clock _ _ _ _ H10 _ _ Hc Hp).
        unfold store_of, getChunk. simpl.
        set (cs := mapi_from (createdChunk id clock) 0
                     (parsed_chunks parsedData)).
        change (uuidOfChunk clock i)
          with (Chunk.id (createdChunk id clock e i)).
        apply storeAll_get with (i := i).
        -- unfold cs. now rewrite created_ids.
        -- unfold cs. now rewrite mapi_from_nth, Hi.
    + rewrite (@background_vision_fails _ _ clock _ _ _ _ H10 _ _ Hc Hp).
      unfold store_of, log_of. simpl. split; [|now left].
      intros _. split; [|split].
      * eexists. split; [apply getInvoice_withInvoice|]. now split.
      * reflexivity.
      * repeat constructor.
  - rewrite (@background_convert_fails _ _ clock _ reply _ _ H10 _ Hc).
    unfold store_of, log_of. simpl. split; [|now left].
    intros _. split; [|split].
    + eexists. split; [apply getInvoice_withInvoice|]. now split.
    + reflexivity.
    + repeat constructor.
Qed.

(** ** Witnesses for the pipeline *)

Lemma pipeline_failure_policy_witness :
  let r := processUploadedFile "uploads/3f9a" "invoice.png" "image/png" 48213
             "invoice-1" 1001 Demo.clock (ok "aW1hZ2U=")
             (vision_content (ok (JObj [("extractedText", JStr "no list")])))
             MemStorage in
  (exists invoice,
      getInvoice "invoice-1" (store_of r) = Some invoice
      /\ Invoice.status invoice = I_rejected
      /\ Invoice.processingProgress invoice = 0)
  /\ chunks (store_of r) = chunks MemStorage
  /\ Forall (fun s => chunks s = chunks MemStorage) (log_of r).
Proof.
  refine (proj1 (pipeline_failure_policy "uploads/3f9a" "invoice.png"
                   "image/png" 48213 "invoice-1" 1001 Demo.clock
                   (ok "aW1hZ2U=")
                   (vision_content
                      (ok (JObj [("extractedText", JStr "no list")])))
                   MemStorage) _).
  destruct (malformed_extraction_throws
              (JObj [("extractedText", JStr "no list")])) as [message H].
  - intros items. discriminate.
  - exists message. right. exact H.
Defined.

Lemma pipeline_checkpoints_witness :
  let r := processUploadedFile "uploads/3f9a" "invoice.png" "image/png" 48213
             "invoice-1" 1001 Demo.clock (ok "aW1hZ2U=") Demo.reply
             MemStorage in
  map (progressOf "invoice-1") (log_of r)
  = [Some 10; Some 25; Some 50; Some 75; Some 75; Some 75; Some 75; Some 75;
     Some 100]
  /\ option_map Invoice.totalChunks (getInvoice "invoice-1" (store_of r))
     = Some 4.
Proof.
  destruct (pipeline_checkpoints "uploads/3f9a" "invoice.png" "image/png"
              48213 "invoice-1" 1001 Demo.clock (ok "aW1hZ2U=") Demo.reply
              MemStorage (image := "aW1hZ2U=") eq_refl eq_refl)
    as [Hlog [invoice [Hget [_ [_ [_ [Htotal _]]]]]]].
  split; [exact Hlog|].
  rewrite Hget. simpl. now rewrite Htotal.
Defined.

(** ** Counters and chunks: the invariant of the server *)

Lemma filter_filter_length {A : Type} (p q : A -> bool) l :
  List.length (filter p (filter q l))
  = List.length (filter (fun x => q x && p x) l).
Proof.
  induction l as [|x l IH]; simpl; [reflexivity|].
  destruct (q x); simpl; [destruct (p x); simpl|]; now rewrite IH.
Qed.

Lemma countStatus_tally st k s :
  countStatus s (getChunksByInvoice k st) = tally (ownedWith k s) st.
Proof.
  unfold countStatus, getChunksByInvoice, tally.
  now rewrite sortBySequence_filter_length, filter_filter_length.
Qed.

Lemma length_tally st k :
  Z.of_nat (List.length (getChunksByInvoice k st)) = tally (owned k) st.
Proof.
  unfold getChunksByInvoice, tally. now rewrite sortBySequence_length.
Qed.

Lemma tally_nonneg p st : 0 <= tally p st.
Proof. unfold tally. lia. Qed.

(** Approved and rejected chunks of a document are among its chunks. *)
Lemma tally_decided_le st k :
  tally (ownedWith k approved) st + tally (ownedWith k rejected) st
  <= tally (owned k) st.
Proof.
  unfold tally. induction (JsMap.values (chunks st)) as [|c l IH];
    [simpl; lia|].
  cbn [filter].
  assert (Hc : ownedWith k approved c = owned k c && hasStatus approved c)
    by reflexivity.
  assert (Hr : ownedWith k rejected c = owned k c && hasStatus rejected c)
    by reflexivity.
  rewrite Hc, Hr. unfold hasStatus.
  destruct (owned k c); cbn [andb]; [|exact IH].
  destruct (Chunk.status c); cbn [ChunkStatus_eqb List.length]; lia.
Qed.

Lemma tally_same_chunks p st st' :
  chunks st' = chunks st -> tally p st' = tally p st.
Proof. unfold tally. now intros ->. Qed.

Lemma tally_zero_none p st c :
  tally p st = 0 -> In c (JsMap.values (chunks st)) -> p c = false.
Proof.
  unfold tally. intros H Hc.
  destruct (p c) eqn:E; [|reflexivity].
  assert (Hin : In c (filter p (JsMap.values (chunks st))))
    by (apply filter_In; now split).
  destruct (filter p (JsMap.values (chunks st))); [destruct Hin | discriminate].
Qed.

Lemma tally_none_zero p st :
  (forall c, In c (JsMap.values (chunks st)) -> p c = false) ->
  tally p st = 0.
Proof.
  unfold tally. intros H.
  induction (JsMap.values (chunks st)) as [|c l IH]; [reflexivity|].
  simpl. rewrite (H c) by now left. apply IH. intros x Hx. apply H. now right.
Qed.

Lemma tally_weaken (p q : Chunk.t -> bool) st :
  (forall c, p c = true -> q c = true) -> tally q st = 0 -> tally p st = 0.
Proof.
  intros Hpq Hq. apply tally_none_zero. intros c Hc.
  pose proof (tally_zero_none q st c Hq Hc) as Hf.
  destruct (p c) eqn:E; [|reflexivity].
  rewrite (Hpq c E) in Hf. discriminate.
Qed.

Lemma Sound_bounded waiting st : Sound None waiting st -> countsBounded st.
Proof.
  intros [Ht Hc _ _] k invoice Hget.
  destruct (Hc k invoice Hget) as [Ha Hr]; [discriminate|].
  rewrite Ha, Hr, (Ht k invoice Hget). apply tally_decided_le.
Qed.

Lemma Sound_relax k waiting st : Sound None waiting st -> Sound (Some k) waiting st.
Proof.
  intros [Ht Hc Hw Ho]. constructor; auto.
  intros k' invoice Hget _. apply Hc; [exact Hget | discriminate].
Qed.

Lemma Sound_initial : Sound None [] MemStorage.
Proof.
  constructor; try discriminate.
  - intros k [].
  - intros c [].
Qed.

(** *** Writes to a document *)

Lemma getInvoice_updateInvoice id updates now st k :
  getInvoice k (snd (updateInvoice id updates now st))
  = if String.eqb k id
    then option_map (fun i => applyInvoiceUpdates i updates now) (getInvoice id st)
    else getInvoice k st.
Proof.
  unfold updateInvoice, getInvoice.
  destruct (String.eqb_spec k id) as [->|Hne].
  - destruct (JsMap.get id (invoices st)) eqn:E; simpl.
    + apply get_set_same.
    + exact E.
  - destruct (JsMap.get id (invoices st)) eqn:E; simpl; [|reflexivity].
    now apply get_set_other.
Qed.

Lemma getInvoice_updateInvoice_exists id updates now st k :
  getInvoice k st <> None ->
  getInvoice k (snd (updateInvoice id updates now st)) <> None.
Proof.
  rewrite getInvoice_updateInvoice.
  destruct (String.eqb_spec k id) as [->|Hne]; [|tauto].
  now destruct (getInvoice id st).
Qed.

Lemma updateInvoice_Sound except waiting id updates now st :
  keepsCounters updates ->
  Sound except waiting st ->
  Sound except waiting (snd (updateInvoice id updates now st)).
Proof.
  intros [Hu1 [Hu2 Hu3]] [Ht Hc Hw Ho].
  pose proof (updateInvoice_chunks id updates now st) as Hch.
  assert (Hsame : forall k invoice',
             getInvoice k (snd (updateInvoice id updates now st)) = Some invoice' ->
             exists invoice,
               getInvoice k st = Some invoice
               /\ Invoice.totalChunks invoice' = Invoice.totalChunks invoice
               /\ Invoice.approvedChunks invoice' = Invoice.approvedChunks invoice
               /\ Invoice.rejectedChunks invoice' = Invoice.rejectedChunks invoice).
  { intros k invoice'. rewrite getInvoice_updateInvoice.
    destruct (String.eqb_spec k id) as [->|Hne].
    - destruct (getInvoice id st) as [invoice|]; simpl; [|discriminate].
      intros [= <-]. exists invoice. split; [reflexivity|].
      unfold applyInvoiceUpdates. simpl. now rewrite Hu1, Hu2, Hu3.
    - intros H. now exists invoice'. }
  constructor.
  - intros k invoice' Hget. destruct (Hsame k invoice' Hget) as [i [Hi [E _]]].
    rewrite E, (tally_same_chunks _ _ _ Hch). now apply Ht.
  - intros k invoice' Hget Hex.
    destruct (Hsame k invoice' Hget) as [i [Hi [_ [Ea Er]]]].
    rewrite Ea, Er, !(tally_same_chunks _ _ _ Hch). now apply Hc.
  - intros k Hk. destruct (Hw k Hk) as [Hz He]. split.
    + now rewrite (tally_same_chunks _ _ _ Hch).
    + now apply getInvoice_updateInvoice_exists.
  - intros c Hin. rewrite Hch in Hin.
    apply getInvoice_updateInvoice_exists. now apply Ho.
Qed.

Lemma updateInvoice_bounded id updates now st :
  keepsCounters updates ->
  countsBounded st ->
  countsBounded (snd (updateInvoice id updates now st)).
Proof.
  intros [Hu1 [Hu2 Hu3]] Hb k invoice'. rewrite getInvoice_updateInvoice.
  destruct (String.eqb_spec k id) as [->|Hne]; [|apply Hb].
  destruct (getInvoice id st) as [invoice|] eqn:E; simpl; [|discriminate].
  intros [= <-]. unfold applyInvoiceUpdates. simpl.
  rewrite Hu1, Hu2, Hu3. simpl. now apply (Hb id).
Qed.

(** The recount after a status write restores the invariant. *)
Lemma updateInvoiceStats_Sound waiting k now st :
  Sound (Some k) waiting st ->
  Sound None waiting (store_of (updateInvoiceStats k now st)).
Proof.
  intros [Ht Hc Hw Ho].
  unfold updateInvoiceStats, bind, query, call, ret, store_of.
  rewrite !countStatus_tally.
  set (u := statsUpdate _ _).
  destruct (updateInvoice k u now st) as [o st'] eqn:E. simpl.
  assert (Est : st' = snd (updateInvoice k u now st)) by now rewrite E.
  pose proof (updateInvoice_chunks k u now st) as Hch. rewrite <- Est in Hch.
  constructor.
  - intros k' invoice'. rewrite Est, getInvoice_updateInvoice, <- Est.
    rewrite (tally_same_chunks _ _ _ Hch).
    destruct (String.eqb_spec k' k) as [->|Hne]; [|apply Ht].
    destruct (getInvoice k st) as [invoice|] eqn:G; simpl; [|discriminate].
    intros [= <-]. simpl. now apply Ht.
  - intros k' invoice'. rewrite Est, getInvoice_updateInvoice, <- Est.
    rewrite !(tally_same_chunks _ _ _ Hch).
    destruct (String.eqb_spec k' k) as [->|Hne].
    + destruct (getInvoice k st) as [invoice|] eqn:G; simpl; [|discriminate].
      intros [= <-] _. simpl. now split.
    + intros G _. apply Hc; [exact G | congruence].
  - intros k' Hk. destruct (Hw k' Hk) as [Hz He]. split.
    + now rewrite (tally_same_chunks _ _ _ Hch).
    + rewrite Est. now apply getInvoice_updateInvoice_exists.
  - intros c Hin. rewrite Hch in Hin. rewrite Est.
    apply getInvoice_updateInvoice_exists. now apply Ho.
Qed.

Lemma updateInvoiceStats_log k now st :
  log_of (updateInvoiceStats k now st)
  = [store_of (updateInvoiceStats k now st)].
Proof.
  unfold updateInvoiceStats, bind, query, call, ret, store_of, log_of.
  now destruct (updateInvoice _ _ _ _).
Qed.

Lemma countsBounded_invoices st st' :
  invoices st' = invoices st -> countsBounded st -> countsBounded st'.
Proof. unfold countsBounded, getInvoice. now intros ->. Qed.

(** *** Writes to a chunk *)

Lemma tally_withChunk p st id c c' :
  getChunk id st = Some c -> p c' = p c ->
  tally p (withChunk st id c') = tally p st.
Proof.
  intros Hget Hp. unfold tally, withChunk. simpl. f_equal.
  now apply filter_set_same_length with (v := c).
Qed.

(** Replacing a stored chunk by one of the same document keeps the
    invariant, up to the counters of that document when the status has
    changed. *)
Lemma withChunk_Sound except waiting st id c c' :
  Sound None waiting st ->
  getChunk id st = Some c ->
  Chunk.invoiceId c' = Chunk.invoiceId c ->
  except = Some (Chunk.invoiceId c) \/ Chunk.status c' = Chunk.status c ->
  Sound except waiting (withChunk st id c').
Proof.
  intros [Ht Hc Hw Ho] Hget Hinv Hcase.
  assert (Howned : forall k, owned k c' = owned k c)
    by (intros k; unfold owned; now rewrite Hinv).
  constructor.
  - intros k invoice Hk. rewrite (tally_withChunk (owned k) st id c' Hget (Howned k)).
    now apply Ht.
  - intros k invoice Hk Hex.
    assert (Hsame : forall s, ownedWith k s c' = ownedWith k s c).
    { intros s. unfold ownedWith. rewrite Howned.
      destruct Hcase as [-> | Hs].
      - assert (Hne : owned k c = false).
        { unfold owned. apply String.eqb_neq. congruence. }
        now rewrite Hne.
      - unfold hasStatus. now rewrite Hs. }
    rewrite !(tally_withChunk _ st id c' Hget (Hsame _)).
    apply Hc; [exact Hk | discriminate].
  - intros k Hk. destruct (Hw k Hk) as [Hz He]. split; [|exact He].
    now rewrite (tally_withChunk (owned k) st id c' Hget (Howned k)).
  - intros x Hx. unfold withChunk in Hx. simpl in Hx.
    apply In_values_set in Hx. destruct Hx as [-> | Hx].
    + rewrite Hinv. apply (Ho c). now apply get_Some_In with (k := id).
    + now apply (Ho x).
Qed.

(** *** A new document *)

Lemma createInvoice_Sound waiting insertInvoice id now st :
  InsertInvoice.totalChunks insertInvoice = None ->
  InsertInvoice.approvedChunks insertInvoice = None ->
  InsertInvoice.rejectedChunks insertInvoice = None ->
  getInvoice id st = None ->
  Sound None waiting st ->
  Sound None (id :: waiting) (snd (createInvoice insertInvoice id now st)).
Proof.
  intros H1 H2 H3 Hnew [Ht Hc Hw Ho].
  assert (Hnone : tally (owned id) st = 0).
  { apply tally_none_zero. intros c Hin. unfold owned.
    apply String.eqb_neq. intros E. apply (Ho c Hin). now rewrite E. }
  unfold createInvoice. simpl. rewrite H1, H2, H3. simpl.
  set (invoice := Invoice.mk _ _ _ _ _ _ _ _ _ _ _ _ _).
  fold (withInvoice st id invoice).
  assert (Hch : chunks (withInvoice st id invoice) = chunks st) by reflexivity.
  assert (Hget : forall k i, getInvoice k (withInvoice st id invoice) = Some i ->
                             (k = id /\ i = invoice)
                             \/ (k <> id /\ getInvoice k st = Some i)).
  { intros k i. destruct (String.eqb_spec k id) as [->|Hne].
    - rewrite getInvoice_withInvoice. intros [= <-]. now left.
    - rewrite getInvoice_withInvoice_other by exact Hne. now right. }
  constructor.
  - intros k i Hk. rewrite (tally_same_chunks _ _ _ Hch).
    destruct (Hget k i Hk) as [[-> ->] | [_ Hk']]; [now rewrite Hnone | now apply Ht].
  - intros k i Hk _. rewrite !(tally_same_chunks _ _ _ Hch).
    destruct (Hget k i Hk) as [[-> ->] | [_ Hk']].
    + split; symmetry; apply (tally_weaken _ (owned id)); try exact Hnone;
        intros c Hc'; unfold ownedWith in Hc'; now apply andb_true_iff in Hc'.
    + apply Hc; [exact Hk' | discriminate].
  - intros k [<- | Hk].
    + split; [now rewrite (tally_same_chunks _ _ _ Hch)|].
      now rewrite getInvoice_withInvoice.
    + destruct (Hw k Hk) as [Hz He]. split.
      * now rewrite (tally_same_chunks _ _ _ Hch).
      * rewrite getInvoice_withInvoice_other; [exact He|].
        intros ->. now apply He.
  - intros c Hin. rewrite Hch in Hin.
    destruct (String.eqb_spec (Chunk.invoiceId c) id) as [->|Hne].
    + now rewrite getInvoice_withInvoice.
    + rewrite getInvoice_withInvoice_other by exact Hne. now apply Ho.
Qed.

Lemma createInvoice_bounded insertInvoice id now st :
  InsertInvoice.totalChunks insertInvoice = None ->
  InsertInvoice.approvedChunks insertInvoice = None ->
  InsertInvoice.rejectedChunks insertInvoice = None ->
  countsBounded st ->
  countsBounded (snd (createInvoice insertInvoice id now st)).
Proof.
  intros H1 H2 H3 Hb k i. unfold createInvoice. simpl.
  rewrite H1, H2, H3. simpl.
  set (invoice := Invoice.mk _ _ _ _ _ _ _ _ _ _ _ _ _).
  fold (withInvoice st id invoice).
  destruct (String.eqb_spec k id) as [->|Hne].
  - rewrite getInvoice_withInvoice. intros [= <-]. simpl. lia.
  - rewrite getInvoice_withInvoice_other by exact Hne. apply Hb.
Qed.

(** *** The chunks of a run *)

Lemma tally_stored p invs m cs :
  distinct (map Chunk.id cs) = true ->
  (forall k, In k (map Chunk.id cs) -> ~ In k (JsMap.keys m)) ->
  tally p (mkStore invs (storeAll m cs))
  = Z.of_nat (List.length (filter p (JsMap.values m)))
    + Z.of_nat (List.length (filter p cs)).
Proof.
  intros Hd Hf. unfold tally. simpl.
  destruct (storeAll_values m cs Hd Hf) as [-> _].
  rewrite filter_app, length_app. lia.
Qed.

Lemma created_all_owned invoiceId clock entries index c :
  In c (mapi_from (createdChunk invoiceId clock) index entries) ->
  Chunk.invoiceId c = invoiceId /\ Chunk.status c = pending.
Proof.
  revert index. induction entries as [|e entries IH]; intros index; simpl.
  - intros [].
  - intros [<- | H]; [now split | now apply IH with (index := S index)].
Qed.

Lemma filter_none {A : Type} (p : A -> bool) l :
  (forall x, In x l -> p x = false) -> filter p l = [].
Proof.
  induction l as [|x l IH]; intros H; [reflexivity|].
  simpl. rewrite (H x) by now left. apply IH. intros y Hy. apply H. now right.
Qed.

Lemma filter_all {A : Type} (p : A -> bool) l :
  (forall x, In x l -> p x = true) -> filter p l = l.
Proof.
  induction l as [|x l IH]; intros H; [reflexivity|].
  simpl. rewrite (H x) by now left. f_equal. apply IH.
  intros y Hy. apply H. now right.
Qed.

(** Storing the chunks of a waiting run and marking its document ready. *)
Lemma ready_Sound waiting st id clock entries text now :
  let created := mapi_from (createdChunk id clock) 0 entries in
  let stored := mkStore (invoices st) (storeAll (chunks st) created) in
  Sound None waiting st ->
  In id waiting ->
  freshChunkIds clock (List.length entries) st = true ->
  Sound None (filter (fun k => negb (String.eqb k id)) waiting)
    (snd (updateInvoice id
            (readyUpdate text (Z.of_nat (List.length created))) now stored)).
Proof.
  intros created stored [Ht Hc Hw Ho] Hid Hfresh.
  destruct (freshChunkIds_spec _ _ _ Hfresh) as [Hd Hnew].
  assert (Hids : map Chunk.id created
                 = map (uuidOfChunk clock) (seq 0 (List.length entries)))
    by apply created_ids.
  rewrite <- Hids in Hd, Hnew.
  assert (Htally : forall p, tally p stored
                             = tally p st + Z.of_nat (List.length (filter p created))).
  { intros p. unfold stored. now rewrite tally_stored. }
  destruct (Hw id Hid) as [Hzero Hexists].
  assert (Hmine : filter (owned id) created = created).
  { apply filter_all. intros c Hin. unfold owned.
    apply String.eqb_eq. now apply (created_all_owned id clock entries 0 c). }
  assert (Hother : forall k, k <> id -> filter (owned k) created = []).
  { intros k Hne. apply filter_none. intros c Hin. unfold owned.
    apply String.eqb_neq.
    destruct (created_all_owned id clock entries 0 c Hin) as [-> _].
    congruence. }
  assert (Hpending : forall k s, s <> pending ->
                                 filter (ownedWith k s) created = []).
  { intros k s Hs. apply filter_none. intros c Hin. unfold ownedWith.
    destruct (created_all_owned id clock entries 0 c Hin) as [_ Hp].
    assert (E : hasStatus s c = false)
      by (apply hasStatus_false; congruence).
    rewrite E. apply andb_false_r. }
  set (u := readyUpdate text (Z.of_nat (List.length created))).
  pose proof (updateInvoice_chunks id u now stored) as Hch.
  assert (Hinv : forall k, getInvoice k stored = getInvoice k st) by reflexivity.
  constructor.
  - intros k i. rewrite getInvoice_updateInvoice, (tally_same_chunks _ _ _ Hch), Htally.
    destruct (String.eqb_spec k id) as [->|Hne].
    + rewrite Hinv. destruct (getInvoice id st) as [i0|]; simpl; [|discriminate].
      intros [= <-]. simpl. rewrite Hmine, Hzero. lia.
    + rewrite Hinv, (Hother k Hne). simpl. rewrite Z.add_0_r. apply Ht.
  - intros k i. rewrite getInvoice_updateInvoice, !(tally_same_chunks _ _ _ Hch), !Htally.
    rewrite !Hpending by discriminate. simpl. rewrite !Z.add_0_r.
    destruct (String.eqb_spec k id) as [->|Hne].
    + rewrite Hinv. destruct (getInvoice id st) as [i0|]; simpl; [|discriminate].
      intros [= <-] _. simpl.
      split; symmetry; apply (tally_weaken _ (owned id)); try exact Hzero;
        intros c Hc'; unfold ownedWith in Hc'; now apply andb_true_iff in Hc'.
    + rewrite Hinv. intros G _. apply Hc; [exact G | discriminate].
  - intros k Hk. apply filter_In in Hk. destruct Hk as [Hk Hne].
    apply negb_true_iff, String.eqb_neq in Hne.
    destruct (Hw k Hk) as [Hz He]. split.
    + rewrite (tally_same_chunks _ _ _ Hch), Htally, (Hother k Hne), Hz.
      reflexivity.
    + apply getInvoice_updateInvoice_exists. now rewrite Hinv.
  - intros c Hin. rewrite Hch in Hin. unfold stored in Hin. simpl in Hin.
    destruct (storeAll_values (chunks st) created Hd Hnew) as [Hv _].
    rewrite Hv in Hin. apply in_app_iff in Hin.
    apply getInvoice_updateInvoice_exists. rewrite Hinv.
    destruct Hin as [Hin | Hin]; [now apply Ho|].
    now destruct (created_all_owned id clock entries 0 c Hin) as [-> _].
Qed.

(** *** Every handler keeps the invariant *)

Ltac bounded_log := repeat (apply Forall_cons || apply Forall_nil).

Lemma Sound_fewer except waiting waiting' st :
  (forall k, In k waiting' -> In k waiting) ->
  Sound except waiting st -> Sound except waiting' st.
Proof.
  intros Hsub [Ht Hc Hw Ho]. constructor; auto.
Qed.

Lemma call_run {A : Type} (op : Store -> A * Store) st :
  call op st = (fst (op st), snd (op st), [snd (op st)]).
Proof. unfold call. now destruct (op st). Qed.

Lemma progressUpdate_keepsCounters p : keepsCounters (progressUpdate p).
Proof. repeat split. Qed.

Lemma failedUpdate_keepsCounters : keepsCounters failedUpdate.
Proof. repeat split. Qed.

Lemma uploadSegment_Keeps waiting filePath filename mimeType fileSize id now
    clock st :
  getInvoice id st = None ->
  Sound None waiting st ->
  Keeps (id :: waiting)
    (uploadSegment filePath filename mimeType fileSize id now clock st).
Proof.
  intros Hnew HS. unfold uploadSegment, bind, ret. rewrite call_run.
  set (insertInvoice := InsertInvoice.mk _ _ _ _ _ _ _ _ _ _).
  cbv beta iota. change (Invoice.id (fst (createInvoice insertInvoice id now st)))
    with id.
  rewrite call_run. unfold Keeps, store_of, log_of. simpl fst; simpl snd.
  pose proof (@createInvoice_Sound waiting insertInvoice id now st
                eq_refl eq_refl eq_refl Hnew HS) as H10.
  pose proof (@updateInvoice_Sound _ _ id _ (at25 clock) _
                (progressUpdate_keepsCounters 25) H10) as H25.
  split; [exact H25|].
  bounded_log.
  - exact (@createInvoice_bounded insertInvoice id now st
             eq_refl eq_refl eq_refl (Sound_bounded HS)).
  - exact (Sound_bounded H25).
Qed.

Lemma onPipelineError_Keeps waiting id clock st :
  Sound None waiting st -> Keeps waiting (onPipelineError id clock st).
Proof.
  intros HS. unfold onPipelineError, bind, ret. rewrite call_run.
  unfold Keeps, store_of, log_of. simpl fst; simpl snd.
  pose proof (@updateInvoice_Sound _ _ id _ (atCatch clock) _
                failedUpdate_keepsCounters HS) as H.
  split; [exact H|]. bounded_log. exact (Sound_bounded H).
Qed.

Lemma afterConvert_Keeps waiting id clock outcome st :
  Sound None waiting st -> Keeps waiting (afterConvert id clock outcome st).
Proof.
  intros HS. destruct outcome as [image|message]; simpl.
  - unfold bind, ret. rewrite call_run.
    unfold Keeps, store_of, log_of. simpl fst; simpl snd.
    pose proof (@updateInvoice_Sound _ _ id _ (at50 clock) _
                  (progressUpdate_keepsCounters 50) HS) as H.
    split; [exact H|]. bounded_log. exact (Sound_bounded H).
  - destruct (@onPipelineError_Keeps _ id clock _ HS) as [H1 H2].
    unfold bind, ret. destruct (onPipelineError id clock st) as [[u s] l].
    unfold Keeps, store_of, log_of in *. simpl in *.
    rewrite app_nil_r. now split.
Qed.

Lemma freshChunkIds_same_chunks clock n st st' :
  chunks st' = chunks st ->
  freshChunkIds clock n st' = freshChunkIds clock n st.
Proof. unfold freshChunkIds. now intros ->. Qed.

Lemma storing_bounded invs m cs :
  (forall st, invoices st = invs -> countsBounded st) ->
  Forall countsBounded (storing invs m cs).
Proof.
  intros H. apply Forall_forall. intros s Hs.
  apply H. pose proof (storing_invoices invs m cs) as Hall.
  rewrite Forall_forall in Hall. now apply Hall.
Qed.

Lemma afterVision_Keeps waiting id clock outcome st :
  Sound None waiting st ->
  In id waiting ->
  freshChunkIds clock (entriesOf outcome) st = true ->
  Keeps (filter (fun k => negb (String.eqb k id)) waiting)
    (afterVision id clock outcome st).
Proof.
  intros HS Hid Hfresh. destruct outcome as [parsedData|message].
  - simpl in Hfresh. unfold afterVision, bind, ret. rewrite call_run.
    cbv beta iota.
    set (s75 := snd (updateInvoice id (progressUpdate 75) (at75 clock) st)).
    rewrite createChunks_run. cbv beta iota.
    set (created := mapi_from (createdChunk id clock) 0
                      (parsed_chunks parsedData)).
    rewrite call_run. unfold Keeps, store_of, log_of. simpl fst; simpl snd.
    assert (H75 : Sound None waiting s75)
      by (apply updateInvoice_Sound;
          [apply progressUpdate_keepsCounters | exact HS]).
    assert (Hch : chunks s75 = chunks st) by apply updateInvoice_chunks.
    rewrite <- (@freshChunkIds_same_chunks clock _ _ _ Hch) in Hfresh.
    pose proof (@ready_Sound waiting s75 id clock (parsed_chunks parsedData)
                  (parsed_extractedText parsedData) (atReady clock)
                  H75 Hid Hfresh) as Hready.
    cbv zeta in Hready. fold created in Hready.
    split; [exact Hready|].
    constructor; [exact (Sound_bounded H75)|].
    apply Forall_app. split.
    + apply storing_bounded. intros s Hs.
      apply (@countsBounded_invoices s75 s Hs). exact (Sound_bounded H75).
    + bounded_log. exact (Sound_bounded Hready).
  - destruct (@onPipelineError_Keeps _ id clock _ HS) as [H1 H2].
    split; [|exact H2].
    apply Sound_fewer with (waiting := waiting); [|exact H1].
    intros k Hk. apply filter_In in Hk. tauto.
Qed.

Section RunEquations.
Context {A B : Type}.
Implicit Types (m : Run A) (k : A -> Run B) (st : Store).

Lemma result_of_bind m k st :
  result_of (bind m k st) = result_of (k (result_of (m st)) (store_of (m st))).
Proof.
  unfold bind, result_of, store_of.
  destruct (m st) as [[a s] l]. simpl. now destruct (k a s) as [[b s'] l'].
Qed.

Lemma store_of_bind m k st :
  store_of (bind m k st) = store_of (k (result_of (m st)) (store_of (m st))).
Proof.
  unfold bind, result_of, store_of.
  destruct (m st) as [[a s] l]. simpl. now destruct (k a s) as [[b s'] l'].
Qed.

Lemma log_of_bind m k st :
  log_of (bind m k st)
  = log_of (m st) ++ log_of (k (result_of (m st)) (store_of (m st))).
Proof.
  unfold bind, result_of, store_of, log_of.
  destruct (m st) as [[a s] l]. simpl. now destruct (k a s) as [[b s'] l'].
Qed.

Lemma result_of_call (op : Store -> A * Store) st :
  result_of (call op st) = fst (op st).
Proof. unfold call, result_of. now destruct (op st). Qed.

Lemma store_of_call (op : Store -> A * Store) st :
  store_of (call op st) = snd (op st).
Proof. unfold call, store_of. now destruct (op st). Qed.

Lemma log_of_call (op : Store -> A * Store) st :
  log_of (call op st) = [snd (op st)].
Proof. unfold call, log_of. now destruct (op st). Qed.

Lemma result_of_query (f : Store -> A) st : result_of (query f st) = f st.
Proof. reflexivity. Qed.

Lemma store_of_query (f : Store -> A) st : store_of (query f st) = st.
Proof. reflexivity. Qed.

Lemma log_of_query (f : Store -> A) st : log_of (query f st) = [].
Proof. reflexivity. Qed.

Lemma result_of_ret (a : A) st : result_of (ret a st) = a.
Proof. reflexivity. Qed.

Lemma store_of_ret (a : A) st : store_of (ret a st) = st.
Proof. reflexivity. Qed.

Lemma log_of_ret (a : A) st : log_of (ret a st) = [].
Proof. reflexivity. Qed.

End RunEquations.

Create Rewrite HintDb run.

#[local] Hint Rewrite @result_of_bind @store_of_bind @log_of_bind
  @result_of_call @store_of_call @log_of_call @store_of_ret @log_of_ret
  @result_of_query @store_of_query @log_of_query @result_of_ret
  app_nil_r : run.

(** A status write followed by the recount of the owner's counters. *)
Lemma write_then_recount_Keeps waiting st id c c' now :
  Sound None waiting st ->
  getChunk id st = Some c ->
  Chunk.invoiceId c' = Chunk.invoiceId c ->
  Sound None waiting
    (store_of (updateInvoiceStats (Chunk.invoiceId c') now (withChunk st id c')))
  /\ Forall countsBounded
       (withChunk st id c'
        :: log_of (updateInvoiceStats (Chunk.invoiceId c') now
                     (withChunk st id c'))).
Proof.
  intros HS Hget Hown. rewrite Hown.
  assert (H1 : Sound (Some (Chunk.invoiceId c)) waiting (withChunk st id c'))
    by (apply withChunk_Sound with (c := c); auto).
  pose proof (@updateInvoiceStats_Sound _ _ now _ H1) as H2.
  rewrite updateInvoiceStats_log.
  split; [exact H2|].
  bounded_log; [|exact (Sound_bounded H2)].
  apply (@countsBounded_invoices st); [reflexivity | exact (Sound_bounded HS)].
Qed.

Lemma decideChunk_Keeps waiting status id now1 now2 st :
  Sound None waiting st ->
  Keeps waiting (decideChunk status id now1 now2 st).
Proof.
  intros HS. unfold Keeps, decideChunk. autorewrite with run.
  unfold updateChunkStatus.
  destruct (JsMap.get id (chunks st)) as [c|] eqn:Hget; cbv zeta; cbn [fst snd].
  - set (c' := Chunk.mk _ _ _ _ _ _ _ _ _ _ _ _ _).
    fold (withChunk st id c'). autorewrite with run.
    now apply write_then_recount_Keeps with (c := c).
  - autorewrite with run. split; [exact HS|].
    bounded_log. exact (Sound_bounded HS).
Qed.

Lemma patchChunk_Keeps waiting id body now1 now2 st :
  keepsOwner st (Patch id body now1 now2) = true ->
  Sound None waiting st ->
  Keeps waiting (patchChunk id body now1 now2 st).
Proof.
  intros Hkeep HS. unfold Keeps, patchChunk.
  destruct body as [body|message].
  2:{ autorewrite with run. now split. }
  autorewrite with run. unfold updateChunk.
  unfold keepsOwner, reparents, getChunk in Hkeep.
  destruct (JsMap.get (body_id body ?? id) (chunks st)) as [c|] eqn:Hget;
    cbv zeta; cbn [fst snd].
  - set (c' := applyChunkUpdates c (body_updates body) now1).
    fold (withChunk st (body_id body ?? id) c').
    assert (Hown : Chunk.invoiceId c' = Chunk.invoiceId c).
    { unfold c', applyChunkUpdates. simpl.
      destruct (ChunkUpdates.invoiceId (body_updates body)) as [i|];
        [|reflexivity].
      simpl. rewrite negb_involutive in Hkeep. now apply String.eqb_eq. }
    autorewrite with run.
    destruct (ChunkUpdates.status (body_updates body)) as [s|] eqn:Hs;
      cbn [isSome].
    + now apply write_then_recount_Keeps with (c := c).
    + assert (H1 : Sound None waiting (withChunk st (body_id body ?? id) c')).
      { apply withChunk_Sound with (c := c); auto.
        right. unfold c', applyChunkUpdates. simpl. now rewrite Hs. }
      autorewrite with run. split; [exact H1|].
      bounded_log.
      apply (@countsBounded_invoices st);
        [reflexivity | exact (Sound_bounded HS)].
  - autorewrite with run. split; [exact HS|].
    bounded_log. exact (Sound_bounded HS).
Qed.

Lemma finalizeInvoice_Keeps waiting id now st :
  Sound None waiting st -> Keeps waiting (finalizeInvoice id now st).
Proof.
  intros HS. unfold Keeps, finalizeInvoice. autorewrite with run.
  destruct (forallb _ _); cbn [negb]; autorewrite with run.
  - set (u := InvoiceUpdates.mk _ None None None None None).
    assert (Hu : keepsCounters u) by (repeat split).
    pose proof (@updateInvoice_Sound _ _ id _ now _ Hu HS) as H.
    destruct (fst (updateInvoice id u now st)); autorewrite with run;
      (split; [exact H|]); bounded_log; exact (Sound_bounded H).
  - now split.
Qed.

(** *** Every step keeps the invariant *)

Lemma commit_Inv {A : Type} w ts (r : A * Store * list Store) :
  Forall countsBounded (history w) ->
  Keeps (map task_invoiceId ts) r ->
  Inv (commit w ts r).
Proof.
  intros Hh [HS Hl]. split; [exact HS|].
  unfold commit. simpl. apply Forall_app. now split.
Qed.

Lemma findTask_waiting id s ts t :
  findTask id s ts = Some t -> In id (map task_invoiceId ts).
Proof.
  unfold findTask. intros H. apply find_some in H. destruct H as [Hin Hb].
  apply andb_true_iff in Hb. destruct Hb as [Hid _].
  apply String.eqb_eq in Hid. subst id. now apply in_map.
Qed.

Lemma dropTask_waiting id ts k :
  In k (map task_invoiceId (dropTask id ts)) ->
  In k (filter (fun k => negb (String.eqb k id)) (map task_invoiceId ts)).
Proof.
  unfold dropTask. rewrite in_map_iff. intros [t [<- Ht]].
  apply filter_In in Ht. destruct Ht as [Hin Hne].
  apply filter_In. split; [now apply in_map | exact Hne].
Qed.

Lemma dropTask_subset id ts k :
  In k (map task_invoiceId (dropTask id ts)) -> In k (map task_invoiceId ts).
Proof.
  intros H. apply dropTask_waiting in H. apply filter_In in H. tauto.
Qed.

Lemma exec_Inv op w w' :
  keepsOwner (store w) op = true ->
  exec op w = Some w' ->
  Inv w -> Inv w'.
Proof.
  intros Hkeep Hexec [HS Hh].
  destruct op as [filePath filename mimeType fileSize id now clock
                 | invoiceId clock sharp
                 | invoiceId clock reply
                 | id now1 now2 | id now1 now2 | id body now1 now2
                 | id now]; simpl in Hexec.
  - destruct (mem id (JsMap.keys (invoices (store w)))) eqn:Hmem;
      [discriminate|].
    injection Hexec as <-. apply commit_Inv; [exact Hh|].
    apply uploadSegment_Keeps; [|exact HS].
    apply get_None_keys. rewrite <- mem_In. now rewrite Hmem.
  - destruct (findTask invoiceId AwaitingConvert (tasks w)) as [t|] eqn:Ht;
      [|discriminate].
    injection Hexec as <-. apply commit_Inv; [exact Hh|].
    pose proof (findTask_waiting _ _ _ Ht) as Hin.
    destruct (@afterConvert_Keeps _ invoiceId clock
                (convertToBase64Image (task_mimeType t) sharp) _ HS)
      as [H1 H2].
    split; [|exact H2].
    apply Sound_fewer with (waiting := map task_invoiceId (tasks w));
      [|exact H1].
    intros k Hk. destruct (result_of _); simpl in Hk.
    + destruct Hk as [<- | Hk]; [exact Hin | now apply dropTask_subset in Hk].
    + now apply dropTask_subset in Hk.
  - destruct (findTask invoiceId AwaitingVision (tasks w)) as [t|] eqn:Ht;
      [|discriminate].
    destruct (freshChunkIds clock _ (store w)) eqn:Hfresh; [|discriminate].
    injection Hexec as <-. apply commit_Inv; [exact Hh|].
    pose proof (findTask_waiting _ _ _ Ht) as Hin.
    destruct (@afterVision_Keeps _ invoiceId clock
                (parseInvoiceWithVision reply) _ HS Hin Hfresh) as [H1 H2].
    split; [|exact H2].
    eapply Sound_fewer; [|exact H1].
    intros k Hk. now apply dropTask_waiting.
  - injection Hexec as <-. apply commit_Inv; [exact Hh|].
    now apply decideChunk_Keeps.
  - injection Hexec as <-. apply commit_Inv; [exact Hh|].
    now apply decideChunk_Keeps.
  - injection Hexec as <-. apply commit_Inv; [exact Hh|].
    now apply patchChunk_Keeps.
  - injection Hexec as <-. apply commit_Inv; [exact Hh|].
    now apply finalizeInvoice_Keeps.
Qed.

Lemma run_Inv ops :
  forall w w', run keepsOwner ops w = Some w' -> Inv w -> Inv w'.
Proof.
  induction ops as [|op ops IH]; intros w w'; simpl.
  - now intros [= <-].
  - destruct (keepsOwner (store w) op) eqn:Hkeep; [|discriminate].
    destruct (exec op w) as [w1|] eqn:Hexec; [|discriminate].
    intros Hrun Hinv. apply (IH w1 w' Hrun).
    exact (@exec_Inv op w w1 Hkeep Hexec Hinv).
Qed.

Lemma initial_Inv : Inv initial.
Proof.
  split; [exact Sound_initial|].
  bounded_log. intros k invoice. discriminate.
Qed.

Lemma reachableKeepingOwners_Inv w : reachableKeepingOwners w -> Inv w.
Proof. intros [ops Hrun]. exact (@run_Inv ops initial w Hrun initial_Inv). Qed.

(** ** The bound on the counters *)

(** C6, as the code has it. In every state reached from the empty server by
    uploads, collaborator outcomes, approvals, rejections, updates and
    finalizations in which no update gives a chunk another [invoiceId], every
    store that was ever written -- the current one included -- has
    [approvedChunks + rejectedChunks <= totalChunks] for every document. *)
Theorem counts_bounded_keeping_owners (w : World) :
  reachableKeepingOwners w ->
  forall st, In st (history w) \/ st = store w ->
  forall id invoice,
    getInvoice id st = Some invoice ->
    Invoice.approvedChunks invoice + Invoice.rejectedChunks invoice
    <= Invoice.totalChunks invoice.
Proof.
  intros Hreach st Hst. apply reachableKeepingOwners_Inv in Hreach.
  destruct Hreach as [HS Hh]. destruct Hst as [Hin | ->].
  - rewrite Forall_forall in Hh. exact (Hh st Hin).
  - exact (Sound_bounded HS).
Qed.

Lemma counts_bounded_keeping_owners_witness :
  exists invoice,
    getInvoice "invoice-1" (store Demo.editedWorld) = Some invoice
    /\ Invoice.approvedChunks invoice + Invoice.rejectedChunks invoice
       <= Invoice.totalChunks invoice.
Proof.
  eexists. split; [vm_compute; reflexivity|].
  apply (@counts_bounded_keeping_owners Demo.editedWorld) with
    (st := store Demo.editedWorld) (id := "invoice-1").
  - exists (Demo.reviewed ++ [Demo.saveFourth]). vm_compute. reflexivity.
  - now right.
  - vm_compute. reflexivity.
Defined.

(** C6, as stated, fails: an update may carry [invoiceId]. After the first
    chunk of one document is moved into another document that has a single
    chunk, the latter counts two approved chunks out of a total of one. *)
Lemma counts_exceed_total_after_move :
  reachable Demo.movedWorld
  /\ exists invoice,
       getInvoice "invoice-2" (store Demo.movedWorld) = Some invoice
       /\ Invoice.approvedChunks invoice = 2
       /\ Invoice.rejectedChunks invoice = 0
       /\ Invoice.totalChunks invoice = 1
       /\ ~ (Invoice.approvedChunks invoice + Invoice.rejectedChunks invoice
             <= Invoice.totalChunks invoice).
Proof.
  split.
  - exists (Demo.twoDocuments
            ++ [Patch "chunk-1" (Demo.moveTo "invoice-2" (Some approved))
                  5001 5002]).
    vm_compute. reflexivity.
  - eexists. split; [vm_compute; reflexivity|].
    simpl. repeat split. lia.
Qed.

(** ** Deciding a chunk again *)

(** Deciding a chunk the way it is decided already, in a store where the
    counters of its document agree with the statuses of its chunks. *)
Lemma decideChunk_again_local st id c s now1 now2 invoice :
  getChunk id st = Some c ->
  Chunk.status c = s ->
  getInvoice (Chunk.invoiceId c) st = Some invoice ->
  Invoice.approvedChunks invoice
  = tally (ownedWith (Chunk.invoiceId c) approved) st ->
  Invoice.rejectedChunks invoice
  = tally (ownedWith (Chunk.invoiceId c) rejected) st ->
  let st' := store_of (decideChunk s id now1 now2 st) in
  (exists c', getChunk id st' = Some c' /\ Chunk.status c' = Chunk.status c)
  /\ exists invoice',
       getInvoice (Chunk.invoiceId c) st' = Some invoice'
       /\ Invoice.approvedChunks invoice' = Invoice.approvedChunks invoice
       /\ Invoice.rejectedChunks invoice' = Invoice.rejectedChunks invoice.
Proof.
  intros Hget Hs Hinv Ha Hr. cbv zeta. unfold decideChunk.
  autorewrite with run.
  unfold updateChunkStatus. unfold getChunk in Hget. rewrite Hget.
  cbv zeta; cbn [fst snd].
  set (c' := Chunk.mk _ _ _ _ _ _ _ _ _ _ _ _ _).
  fold (withChunk st id c'). autorewrite with run.
  change (Chunk.invoiceId c') with (Chunk.invoiceId c).
  set (o := Chunk.invoiceId c) in *.
  assert (Hsame : forall k s', ownedWith k s' c' = ownedWith k s' c).
  { intros k s'. unfold ownedWith, owned, hasStatus, c'. simpl.
    now rewrite Hs. }
  split.
  - exists c'. split; [|unfold c'; simpl; congruence].
    unfold getChunk. rewrite updateInvoiceStats_chunks.
    apply get_set_same.
  - unfold updateInvoiceStats. autorewrite with run.
    rewrite getInvoice_updateInvoice, String.eqb_refl.
    change (getInvoice o (withChunk st id c')) with (getInvoice o st).
    rewrite Hinv. simpl option_map.
    eexists. split; [reflexivity|].
    unfold applyInvoiceUpdates, statsUpdate. simpl.
    rewrite !countStatus_tally.
    rewrite !(tally_withChunk _ st id c' Hget (Hsame _ _)).
    now rewrite Ha, Hr.
Qed.

Lemma decideChunk_again waiting st id c s now1 now2 :
  Sound None waiting st ->
  getChunk id st = Some c ->
  Chunk.status c = s ->
  let st' := store_of (decideChunk s id now1 now2 st) in
  (exists c', getChunk id st' = Some c' /\ Chunk.status c' = Chunk.status c)
  /\ exists invoice invoice',
       getInvoice (Chunk.invoiceId c) st = Some invoice
       /\ getInvoice (Chunk.invoiceId c) st' = Some invoice'
       /\ Invoice.approvedChunks invoice' = Invoice.approvedChunks invoice
       /\ Invoice.rejectedChunks invoice' = Invoice.rejectedChunks invoice.
Proof.
  intros HS Hget Hs. cbv zeta. destruct HS as [Ht Hc Hw Ho].
  assert (Hin : In c (JsMap.values (chunks st)))
    by now apply get_Some_In with (k := id).
  destruct (getInvoice (Chunk.invoiceId c) st) as [invoice|] eqn:Hinv;
    [|now destruct (Ho c Hin)].
  destruct (Hc _ invoice Hinv) as [Ha Hr]; [discriminate|].
  destruct (@decideChunk_again_local st id c s now1 now2 invoice
              Hget Hs Hinv Ha Hr) as [H1 [invoice' H2]].
  split; [exact H1|]. now exists invoice, invoice'.
Qed.

(** In any store at all, a decision repeated at once changes neither the
    status nor the counters that the first decision has left. *)
Lemma decide_twice st id s now1 now2 now3 now4 c1 invoice1 :
  let st1 := store_of (decideChunk s id now1 now2 st) in
  let st2 := store_of (decideChunk s id now3 now4 st1) in
  getChunk id st1 = Some c1 ->
  getInvoice (Chunk.invoiceId c1) st1 = Some invoice1 ->
  (exists c2, getChunk id st2 = Some c2 /\ Chunk.status c2 = Chunk.status c1)
  /\ exists invoice2,
       getInvoice (Chunk.invoiceId c1) st2 = Some invoice2
       /\ Invoice.approvedChunks invoice2 = Invoice.approvedChunks invoice1
       /\ Invoice.rejectedChunks invoice2 = Invoice.rejectedChunks invoice1.
Proof.
  cbv zeta. intros Hc1 Hi1.
  assert (Hfirst : Chunk.status c1 = s
                   /\ Invoice.approvedChunks invoice1
                      = tally (ownedWith (Chunk.invoiceId c1) approved)
                          (store_of (decideChunk s id now1 now2 st))
                   /\ Invoice.rejectedChunks invoice1
                      = tally (ownedWith (Chunk.invoiceId c1) rejected)
                          (store_of (decideChunk s id now1 now2 st))).
  { revert Hc1 Hi1. unfold decideChunk. autorewrite with run.
    unfold updateChunkStatus, getChunk.
    destruct (JsMap.get id (chunks st)) as [c|] eqn:Hget;
      cbv zeta; cbn [fst snd].
    - set (c' := Chunk.mk _ _ _ _ _ _ _ _ _ _ _ _ _).
      fold (withChunk st id c'). autorewrite with run.
      rewrite updateInvoiceStats_chunks.
      unfold withChunk at 1. cbn [chunks]. rewrite get_set_same.
      intros [= <-]. change (Chunk.invoiceId c') with (Chunk.invoiceId c).
      unfold updateInvoiceStats. autorewrite with run.
      rewrite getInvoice_updateInvoice, String.eqb_refl.
      destruct (getInvoice (Chunk.invoiceId c) (withChunk st id c'));
        simpl option_map; [|discriminate].
      intros [= <-]. split; [reflexivity|].
      rewrite !countStatus_tally.
      rewrite !(tally_same_chunks _ _ _
                  (updateInvoice_chunks _ _ _ (withChunk st id c'))).
      now split.
    - autorewrite with run. unfold getChunk. now rewrite Hget. }
  destruct Hfirst as [Hs [Ha Hr]].
  exact (@decideChunk_again_local _ id c1 s now3 now4 invoice1
           Hc1 Hs Hi1 Ha Hr).
Qed.

(** C7, as the code has it. In a state reached without any update that gives
    a chunk another [invoiceId], approving a chunk that is approved leaves
    its status and the two counters of its document as they were, and so
    does rejecting a chunk that is rejected. *)
Theorem decide_again_keeps_counts (w : World) (id : string) (c : Chunk.t)
    (now1 now2 : Date) :
  reachableKeepingOwners w ->
  getChunk id (store w) = Some c ->
  let unchanged (st' : Store) :=
    (exists c', getChunk id st' = Some c' /\ Chunk.status c' = Chunk.status c)
    /\ exists invoice invoice',
         getInvoice (Chunk.invoiceId c) (store w) = Some invoice
         /\ getInvoice (Chunk.invoiceId c) st' = Some invoice'
         /\ Invoice.approvedChunks invoice' = Invoice.approvedChunks invoice
         /\ Invoice.rejectedChunks invoice' = Invoice.rejectedChunks invoice in
  (Chunk.status c = approved ->
   unchanged (store_of (approveChunk id now1 now2 (store w))))
  /\ (Chunk.status c = rejected ->
      unchanged (store_of (rejectChunk id now1 now2 (store w)))).
Proof.
  intros Hreach Hget. apply reachableKeepingOwners_Inv in Hreach.
  destruct Hreach as [HS _]. cbv zeta.
  split; intros Hs.
  - exact (@decideChunk_again _ _ id c approved now1 now2 HS Hget Hs).
  - exact (@decideChunk_again _ _ id c rejected now1 now2 HS Hget Hs).
Qed.

Lemma decide_again_keeps_counts_witness :
  let st' := store_of (approveChunk "chunk-1" 7001 7002
                         (store Demo.reviewedWorld)) in
  option_map Chunk.status (getChunk "chunk-1" st') = Some approved
  /\ option_map Invoice.approvedChunks (getInvoice "invoice-1" st') = Some 2
  /\ option_map Invoice.rejectedChunks (getInvoice "invoice-1" st') = Some 1.
Proof.
  assert (Hreach : reachableKeepingOwners Demo.reviewedWorld)
    by (exists Demo.reviewed; vm_compute; reflexivity).
  destruct (@decide_again_keeps_counts Demo.reviewedWorld "chunk-1" _
              7001 7002 Hreach eq_refl) as [Happ _].
  destruct (Happ eq_refl)
    as [[c' [Hc' Hs]] [invoice [invoice' [Hi [Hi' [Ha Hr]]]]]].
  cbn [Chunk.invoiceId Chunk.status] in Hi, Hi', Hs.
  cbv zeta. rewrite Hc', Hi'. cbn [option_map]. rewrite Hs, Ha, Hr.
  vm_compute in Hi. injection Hi as <-. repeat split.
Defined.

(** C7, as stated, fails: after an update has moved the second approved
    chunk of a document to another document, the document still counts two
    approved chunks; approving its first chunk, which is approved, makes the
    count 1. *)
Lemma reapprove_changes_counts_after_move :
  let st := store Demo.staleWorld in
  let st' := store_of (approveChunk "chunk-1" 7001 7002 st) in
  reachable Demo.staleWorld
  /\ option_map Chunk.status (getChunk "chunk-1" st) = Some approved
  /\ option_map Chunk.invoiceId (getChunk "chunk-1" st) = Some "invoice-1"
  /\ option_map Invoice.approvedChunks (getInvoice "invoice-1" st) = Some 2
  /\ option_map Invoice.approvedChunks (getInvoice "invoice-1" st') = Some 1.
Proof.
  split.
  - exists (Demo.twoDocuments
            ++ [Patch "chunk-2" (Demo.moveTo "invoice-2" None) 5001 5002]).
    vm_compute. reflexivity.
  - vm_compute. repeat split.
Qed.

(** ** The run as three steps

    [processUploadedFile], which runs the pipeline without any request in
    between, is the upload step followed by the two collaborator outcomes. *)

Lemma findTask_head id mimeType s ts :
  findTask id s (mkTask id mimeType s :: ts) = Some (mkTask id mimeType s).
Proof.
  unfold findTask. simpl. rewrite String.eqb_refl. now destruct s.
Qed.

Lemma uninterrupted_run filePath filename mimeType fileSize id now clock
    sharp reply w image :
  mem id (JsMap.keys (invoices (store w))) = false ->
  convertToBase64Image mimeType sharp = ok image ->
  freshChunkIds clock (entriesOf (parseInvoiceWithVision reply)) (store w)
  = true ->
  let r := processUploadedFile filePath filename mimeType fileSize id now
             clock sharp reply (store w) in
  exists w',
    run anyOp
      [Upload filePath filename mimeType fileSize id now clock;
       ConvertDone id clock sharp;
       VisionDone id clock reply] w = Some w'
    /\ store w' = store_of r
    /\ history w' = history w ++ log_of r.
Proof.
  intros Hnew Hc Hfresh. cbv zeta.
  cbn [run anyOp exec]. rewrite Hnew.
  cbn [tasks commit]. rewrite findTask_head. cbn [task_mimeType].
  rewrite Hc. cbn [afterConvert].
  autorewrite with run. cbn [tasks commit store].
  rewrite findTask_head.
  autorewrite with run.
  assert (Hch : forall u2 n2,
             chunks (snd (updateInvoice id u2 n2
                            (store_of (uploadSegment filePath filename
                                         mimeType fileSize id now clock
                                         (store w)))))
             = chunks (store w)).
  { intros. rewrite updateInvoice_chunks. unfold uploadSegment.
    autorewrite with run. now rewrite updateInvoice_chunks. }
  rewrite (@freshChunkIds_same_chunks clock _ _ _
             (Hch (progressUpdate 50) (at50 clock))).
  rewrite Hfresh. eexists. split; [reflexivity|].
  cbn [store history commit].
  unfold processUploadedFile, processFileInBackground, uploadSegment.
  rewrite Hc. cbn [afterConvert].
  autorewrite with run. cbn [createInvoice fst snd Invoice.id].
  autorewrite with run. split; [reflexivity|].
  now rewrite <- !app_assoc.
Qed.

(** ** The chunks of a run, with requests in between *)







(** ** Remarks and scenarios *)

(** Finalizing an identifier that names no document, when no chunk refers to
    it, answers 404 and leaves the store as it was. *)
Remark finalize_unknown_document st id now :
  getInvoice id st = None ->
  getChunksByInvoice id st = [] ->
  finalizeInvoice id now st = (res_error 404 "Invoice not found", st, [st]).
Proof.
  intros Hnone Hchunks. unfold finalizeInvoice, bind, query, call, ret.
  rewrite Hchunks. simpl. unfold updateInvoice.
  unfold getInvoice in Hnone. now rewrite Hnone.
Qed.

(** The sort keeps the insertion order of chunks with equal sequence
    numbers. *)
Example sort_is_stable :
  let chunk id n :=
    Chunk.mk id "d" None n None None None None pending None None 0 0 in
  map Chunk.id
    (sortBySequence [chunk "a" 2; chunk "b" 1; chunk "c" 2; chunk "d" 1])
  = ["b"; "d"; "a"; "c"].
Proof. reflexivity. Qed.

(** The end-to-end scenario of the specification: four chunks; the first
    two approved, the third rejected, the fourth edited and saved; finalize
    is refused; the fourth is approved; finalize answers [rejected]. The
    snapshot of the fourth chunk is the one part that the code does not
    deliver. *)
Example end_to_end :
  let w1 := Demo.editedWorld in
  let w2 := Demo.worldAfter
              (Demo.reviewed
               ++ [Demo.saveFourth; Approve "chunk-4" 2201 2202]) in
  option_map Invoice.status (getInvoice "invoice-1" (store Demo.processedWorld))
  = Some I_ready_for_review
  /\ option_map Invoice.totalChunks
       (getInvoice "invoice-1" (store Demo.processedWorld)) = Some 4
  /\ map Chunk.status (getChunksByInvoice "invoice-1" (store w1))
     = [approved; approved; rejected; pending]
  /\ option_map Chunk.isEdited (getChunk "chunk-4" (store w1))
     = Some (Some true)
  /\ option_map Chunk.originalData (getChunk "chunk-4" (store w1))
     = Some None
  /\ result_of (finalizeInvoice "invoice-1" 2103 (store w1))
     = res_error 400 "All chunks must be reviewed before finalizing"
  /\ match result_of (finalizeInvoice "invoice-1" 2203 (store w2)) with
     | res_json invoice => Invoice.status invoice = I_rejected
     | res_error _ _ => False
     end.
Proof. vm_compute. repeat split. Qed.

(** Requests served while a run is waiting leave the progress of every
    document as it is: only the run writes [processingProgress]. *)
Lemma progressOf_updateInvoice id k updates now st :
  InvoiceUpdates.processingProgress updates = None ->
  progressOf k (snd (updateInvoice id updates now st)) = progressOf k st.
Proof.
  intros Hu. unfold progressOf. rewrite getInvoice_updateInvoice.
  destruct (String.eqb_spec k id) as [->|Hne]; [|reflexivity].
  destruct (getInvoice id st) as [invoice|]; [|reflexivity].
  simpl. now rewrite Hu.
Qed.

Lemma progressOf_updateInvoiceStats id k now st :
  progressOf k (store_of (updateInvoiceStats id now st)) = progressOf k st.
Proof.
  unfold updateInvoiceStats. autorewrite with run.
  now apply progressOf_updateInvoice.
Qed.

Lemma requests_keep_progress op w w' k :
  match op with
  | Approve _ _ _ | Reject _ _ _ | Patch _ _ _ _ | Finalize _ _ => True
  | _ => False
  end ->
  exec op w = Some w' ->
  progressOf k (store w') = progressOf k (store w).
Proof.
  destruct op as [| | | id now1 now2 | id now1 now2 | id body now1 now2
                 | id now]; intros Hop Hexec; try contradiction;
    injection Hexec as <-; cbn [store commit].
  - unfold approveChunk, decideChunk. autorewrite with run.
    unfold updateChunkStatus.
    destruct (JsMap.get id (chunks (store w))); cbv zeta; cbn [fst snd];
      autorewrite with run; [|reflexivity].
    now rewrite progressOf_updateInvoiceStats.
  - unfold rejectChunk, decideChunk. autorewrite with run.
    unfold updateChunkStatus.
    destruct (JsMap.get id (chunks (store w))); cbv zeta; cbn [fst snd];
      autorewrite with run; [|reflexivity].
    now rewrite progressOf_updateInvoiceStats.
  - unfold patchChunk. destruct body as [body|message]; [|reflexivity].
    autorewrite with run. unfold updateChunk.
    destruct (JsMap.get (body_id body ?? id) (chunks (store w)));
      cbv zeta; cbn [fst snd]; autorewrite with run; [|reflexivity].
    destruct (isSome _); autorewrite with run; [|reflexivity].
    now rewrite progressOf_updateInvoiceStats.
  - unfold finalizeInvoice. autorewrite with run.
    destruct (negb _); autorewrite with run; [reflexivity|].
    destruct (fst (updateInvoice _ _ _ _)); autorewrite with run;
      now apply progressOf_updateInvoice.
Qed.

(** * Further properties of the code *)

Unset Implicit Arguments.

(** ** What the listing functions return *)

Lemma insertBySequence_perm c l : Permutation (c :: l) (insertBySequence c l).
Proof.
  induction l as [|d l IH]; simpl; [reflexivity|].
  destruct (Z.leb _ _); [reflexivity|].
  rewrite perm_swap. now apply perm_skip.
Qed.

Lemma sortBySequence_perm l : Permutation l (sortBySequence l).
Proof.
  induction l as [|c l IH]; simpl; [constructor|].
  rewrite <- insertBySequence_perm. now apply perm_skip.
Qed.

Lemma insertBySequence_sorted c l :
  StronglySorted bySequence l -> StronglySorted bySequence (insertBySequence c l).
Proof.
  induction l as [|d l IH]; intros Hs; simpl.
  - constructor; constructor.
  - inversion Hs as [|? ? Hl Hd]; subst.
    destruct (Z.leb_spec (Chunk.sequenceNumber c) (Chunk.sequenceNumber d)).
    + constructor; [exact Hs|]. constructor; [assumption|].
      rewrite Forall_forall in *. intros x Hx. specialize (Hd x Hx).
      unfold bySequence in *. lia.
    + constructor; [now apply IH|].
      rewrite Forall_forall in *. intros x Hx.
      apply insertBySequence_In in Hx. destruct Hx as [-> | Hx].
      * unfold bySequence. lia.
      * now apply Hd.
Qed.

Lemma sortBySequence_sorted l : StronglySorted bySequence (sortBySequence l).
Proof.
  induction l as [|c l IH]; simpl; [constructor|].
  now apply insertBySequence_sorted.
Qed.

Lemma insertBySequence_stable n c l :
  filter (hasSequence n) (insertBySequence c l)
  = filter (hasSequence n) (c :: l).
Proof.
  induction l as [|d l IH]; [reflexivity|].
  simpl insertBySequence.
  destruct (Z.leb_spec (Chunk.sequenceNumber c) (Chunk.sequenceNumber d));
    [reflexivity|].
  cbn [filter]. rewrite IH. cbn [filter]. unfold hasSequence.
  destruct (Z.eqb_spec (Chunk.sequenceNumber d) n);
    destruct (Z.eqb_spec (Chunk.sequenceNumber c) n);
    try reflexivity; lia.
Qed.

Lemma sortBySequence_stable n l :
  filter (hasSequence n) (sortBySequence l) = filter (hasSequence n) l.
Proof.
  induction l as [|c l IH]; [reflexivity|].
  simpl sortBySequence. rewrite insertBySequence_stable.
  cbn [filter]. now rewrite IH.
Qed.

(** X1. [getChunksByInvoice] returns the stored chunks of the document, each
    once (a permutation of those selected from the map), in non-decreasing
    order of sequence number, chunks with the same sequence number staying in
    the order in which they were first stored. *)
Theorem getChunksByInvoice_sorted_stable (st : Store) (invoiceId : string) :
  let stored := filter (owned invoiceId) (JsMap.values (chunks st)) in
  Permutation stored (getChunksByInvoice invoiceId st)
  /\ StronglySorted bySequence (getChunksByInvoice invoiceId st)
  /\ forall n,
       filter (hasSequence n) (getChunksByInvoice invoiceId st)
       = filter (hasSequence n) stored.
Proof.
  cbv zeta. unfold getChunksByInvoice. fold (owned invoiceId).
  split; [apply sortBySequence_perm|].
  split; [apply sortBySequence_sorted|].
  intros n. apply sortBySequence_stable.
Qed.

Section SortWith.
Context {A : Type} (compare : A -> A -> Z).

Lemma insertWith_perm x l : Permutation (x :: l) (insertWith compare x l).
Proof.
  induction l as [|y l IH]; simpl; [reflexivity|].
  destruct (Z.leb _ _); [reflexivity|].
  rewrite perm_swap. now apply perm_skip.
Qed.

Lemma sortWith_perm l : Permutation l (sortWith compare l).
Proof.
  induction l as [|x l IH]; simpl; [constructor|].
  rewrite <- insertWith_perm. now apply perm_skip.
Qed.

Lemma sortWith_In x l : In x (sortWith compare l) <-> In x l.
Proof.
  split; apply Permutation_in;
    [symmetry|]; apply sortWith_perm.
Qed.

End SortWith.

Lemma insertWith_byRecency_sorted x l :
  StronglySorted newestFirst l ->
  StronglySorted newestFirst (insertWith byRecency x l).
Proof.
  induction l as [|y l IH]; intros Hs; simpl.
  - constructor; constructor.
  - inversion Hs as [|? ? Hl Hy]; subst. unfold byRecency at 1.
    destruct (Z.leb_spec (Invoice.createdAt y - Invoice.createdAt x) 0).
    + constructor; [exact Hs|]. constructor; [unfold newestFirst; lia|].
      rewrite Forall_forall in *. intros z Hz. specialize (Hy z Hz).
      unfold newestFirst in *. lia.
    + constructor; [now apply IH|].
      rewrite Forall_forall in *. intros z Hz.
      apply (Permutation_in _ (Permutation_sym (insertWith_perm byRecency x l)))
        in Hz.
      destruct Hz as [<- | Hz]; [unfold newestFirst; lia | now apply Hy].
Qed.

Lemma sortWith_byRecency_sorted l :
  StronglySorted newestFirst (sortWith byRecency l).
Proof.
  induction l as [|x l IH]; simpl; [constructor|].
  now apply insertWith_byRecency_sorted.
Qed.

Lemma insertWith_byRecency_stable t x l :
  filter (createdOn t) (insertWith byRecency x l)
  = filter (createdOn t) (x :: l).
Proof.
  induction l as [|y l IH]; [reflexivity|].
  simpl insertWith. unfold byRecency at 1.
  destruct (Z.leb_spec (Invoice.createdAt y - Invoice.createdAt x) 0);
    [reflexivity|].
  cbn [filter]. rewrite IH. cbn [filter]. unfold createdOn.
  destruct (Z.eqb_spec (Invoice.createdAt y) t);
    destruct (Z.eqb_spec (Invoice.createdAt x) t);
    try reflexivity; lia.
Qed.

Lemma sortWith_byRecency_stable t l :
  filter (createdOn t) (sortWith byRecency l) = filter (createdOn t) l.
Proof.
  induction l as [|x l IH]; [reflexivity|].
  simpl sortWith. rewrite insertWith_byRecency_stable.
  cbn [filter]. now rewrite IH.
Qed.

(** X2. [getAllInvoices] returns every stored document once, newest first,
    documents created at the same instant staying in the order in which they
    were stored. *)
Theorem getAllInvoices_newest_first (st : Store) :
  Permutation (JsMap.values (invoices st)) (getAllInvoices st)
  /\ StronglySorted newestFirst (getAllInvoices st)
  /\ forall t,
       filter (createdOn t) (getAllInvoices st)
       = filter (createdOn t) (JsMap.values (invoices st)).
Proof.
  unfold getAllInvoices.
  split; [apply sortWith_perm|].
  split; [apply sortWith_byRecency_sorted|].
  intros t. apply sortWith_byRecency_stable.
Qed.

(** X3. [GET /api/invoices] never writes. Without a [status] parameter, or
    with an empty one, it lists every document. With a non-empty string it
    lists exactly the stored documents whose status is that string, newest
    first, so a string that names no status gives the empty list and no
    error. With a repeated or nested parameter, which reaches the route as
    an array or an object, it answers the empty list, whatever the statuses
    of the documents. *)
Theorem listInvoices_by_status (st : Store) :
  (forall status,
     store_of (listInvoices status st) = st
     /\ log_of (listInvoices status st) = [])
  /\ result_of (listInvoices None st) = res_json (getAllInvoices st)
  /\ result_of (listInvoices (Some (q_string EmptyString)) st)
     = res_json (getAllInvoices st)
  /\ (forall s, s <> EmptyString ->
      exists l,
        result_of (listInvoices (Some (q_string s)) st) = res_json l
        /\ (forall i, In i l <->
                      In i (JsMap.values (invoices st))
                      /\ InvoiceStatus_name (Invoice.status i) = s)
        /\ StronglySorted newestFirst l
        /\ ((forall x, InvoiceStatus_name x <> s) -> l = []))
  /\ (forall items,
        result_of (listInvoices (Some (q_array items)) st) = res_json [])
  /\ (forall fields,
        result_of (listInvoices (Some (q_object fields)) st) = res_json []).
Proof.
  assert (Hnever : forall v,
            (forall i, statusIs v i = false) -> getInvoicesByStatus v st = []).
  { intros v Hv. unfold getInvoicesByStatus.
    rewrite filter_none; [reflexivity|]. intros i _. apply Hv. }
  split; [|split; [|split; [|split; [|split]]]].
  - intros [v|]; unfold listInvoices; [destruct (q_truthy v)|]; now split.
  - reflexivity.
  - reflexivity.
  - intros s Hs. exists (getInvoicesByStatus (q_string s) st).
    split; [|split; [|split]].
    + unfold listInvoices, q_truthy.
      destruct (String.eqb_spec s EmptyString); [contradiction | reflexivity].
    + intros i. unfold getInvoicesByStatus.
      rewrite sortWith_In, filter_In. unfold statusIs.
      rewrite String.eqb_eq. tauto.
    + apply sortWith_byRecency_sorted.
    + intros Hnone. apply Hnever. intros i. apply String.eqb_neq, Hnone.
  - intros items. unfold listInvoices. cbn [q_truthy].
    autorewrite with run. now rewrite Hnever.
  - intros fields. unfold listInvoices. cbn [q_truthy].
    autorewrite with run. now rewrite Hnever.
Qed.

Lemma listInvoices_by_status_witness :
  exists l,
    result_of (listInvoices (Some (q_string "review"))
                 (store Demo.reviewedWorld)) = res_json l
    /\ l = [].
Proof.
  destruct (listInvoices_by_status (store Demo.reviewedWorld))
    as [_ [_ [_ [H _]]]].
  destruct (H "review") as [l [Hl [_ [_ Hnone]]]]; [discriminate|].
  exists l. split; [exact Hl|].
  apply Hnone. intros x. destruct x; discriminate.
Defined.

(** ** Requests on chunks: errors, frame and recount *)

(** X4. Approving, rejecting or updating a chunk that is not stored answers
    404 "Chunk not found", and an update whose body fails validation answers
    400 with the validation message; none of them changes the store. *)
Theorem chunk_requests_fail_cleanly (st : Store) (id : string)
    (now1 now2 : Date) :
  (getChunk id st = None ->
   result_of (approveChunk id now1 now2 st) = res_error 404 "Chunk not found"
   /\ store_of (approveChunk id now1 now2 st) = st
   /\ result_of (rejectChunk id now1 now2 st) = res_error 404 "Chunk not found"
   /\ store_of (rejectChunk id now1 now2 st) = st)
  /\ (forall body,
        getChunk (body_id body ?? id) st = None ->
        result_of (patchChunk id (ok body) now1 now2 st)
        = res_error 404 "Chunk not found"
        /\ store_of (patchChunk id (ok body) now1 now2 st) = st)
  /\ (forall message,
        patchChunk id (throw message) now1 now2 st
        = (res_error 400 message, st, [])).
Proof.
  split; [|split].
  - intros Hnone. unfold getChunk in Hnone.
    unfold approveChunk, rejectChunk, decideChunk.
    autorewrite with run. unfold updateChunkStatus. rewrite Hnone.
    cbn [fst snd]. autorewrite with run. repeat split.
  - intros body Hnone. unfold getChunk in Hnone. unfold patchChunk.
    autorewrite with run. unfold updateChunk. rewrite Hnone.
    cbn [fst snd]. autorewrite with run. repeat split.
  - reflexivity.
Qed.

Lemma chunk_requests_fail_cleanly_witness :
  result_of (approveChunk "chunk-9" 1 2 (store Demo.reviewedWorld))
  = res_error 404 "Chunk not found"
  /\ store_of (approveChunk "chunk-9" 1 2 (store Demo.reviewedWorld))
     = store Demo.reviewedWorld.
Proof.
  destruct (proj1 (chunk_requests_fail_cleanly (store Demo.reviewedWorld)
                     "chunk-9" 1 2) eq_refl) as [H1 [H2 _]].
  now split.
Defined.

Lemma result_of_tuple {A : Type} (a : A) (s : Store) (l : list Store) :
  result_of (a, s, l) = a.
Proof. reflexivity. Qed.

Lemma store_of_tuple {A : Type} (a : A) (s : Store) (l : list Store) :
  store_of (a, s, l) = s.
Proof. reflexivity. Qed.

Lemma log_of_tuple {A : Type} (a : A) (s : Store) (l : list Store) :
  log_of (a, s, l) = l.
Proof. reflexivity. Qed.

Lemma decideChunk_store status id now1 now2 st c :
  getChunk id st = Some c ->
  decideChunk status id now1 now2 st
  = (res_json (decided status now1 c),
     store_of (updateInvoiceStats (Chunk.invoiceId c) now2
                 (withChunk st id (decided status now1 c))),
     [withChunk st id (decided status now1 c);
      store_of (updateInvoiceStats (Chunk.invoiceId c) now2
                  (withChunk st id (decided status now1 c)))]).
Proof.
  intros Hget. unfold getChunk in Hget.
  unfold decideChunk, bind, call, updateChunkStatus. rewrite Hget.
  fold (decided status now1 c). fold (withChunk st id (decided status now1 c)).
  change (Chunk.invoiceId (decided status now1 c)) with (Chunk.invoiceId c).
  pose proof (updateInvoiceStats_log (Chunk.invoiceId c) now2
                (withChunk st id (decided status now1 c))) as Hlog.
  unfold store_of, log_of in *.
  destruct (updateInvoiceStats _ _ _) as [[u s] l]. simpl in *. subst l.
  reflexivity.
Qed.

Lemma getChunk_withChunk_other st id c k :
  k <> id -> getChunk k (withChunk st id c) = getChunk k st.
Proof. intros H. unfold getChunk, withChunk. simpl. now apply get_set_other. Qed.

Lemma getChunk_updateInvoiceStats o now st k :
  getChunk k (store_of (updateInvoiceStats o now st)) = getChunk k st.
Proof. unfold getChunk. now rewrite updateInvoiceStats_chunks. Qed.

Lemma getInvoice_updateInvoiceStats o now st k :
  getInvoice k (store_of (updateInvoiceStats o now st))
  = if String.eqb k o
    then option_map
           (fun i => applyInvoiceUpdates i
                       (statsUpdate
                          (countStatus approved (getChunksByInvoice o st))
                          (countStatus rejected (getChunksByInvoice o st)))
                       now)
           (getInvoice o st)
    else getInvoice k st.
Proof.
  unfold updateInvoiceStats. autorewrite with run.
  apply getInvoice_updateInvoice.
Qed.

Lemma getChunksByInvoice_same_chunks st st' k :
  chunks st' = chunks st -> getChunksByInvoice k st' = getChunksByInvoice k st.
Proof. unfold getChunksByInvoice. now intros ->. Qed.

(** X5. A decision (approve or reject) on a stored chunk writes that chunk
    and the document it belongs to, and nothing else: the chunk is stored
    with the new status and [updatedAt], every other chunk is as before, and
    so is every other document. *)
Theorem decision_frame (st : Store) (status : ChunkStatus) (id : string)
    (now1 now2 : Date) (c : Chunk.t) :
  getChunk id st = Some c ->
  let st' := store_of (decideChunk status id now1 now2 st) in
  result_of (decideChunk status id now1 now2 st)
  = res_json (decided status now1 c)
  /\ getChunk id st' = Some (decided status now1 c)
  /\ (forall k, k <> id -> getChunk k st' = getChunk k st)
  /\ (forall k, k <> Chunk.invoiceId c -> getInvoice k st' = getInvoice k st).
Proof.
  intros Hget. cbv zeta. rewrite (decideChunk_store status id now1 now2 st c Hget).
  rewrite result_of_tuple, store_of_tuple.
  split; [reflexivity|]. split; [|split].
  - rewrite getChunk_updateInvoiceStats. unfold getChunk, withChunk. simpl.
    apply get_set_same.
  - intros k Hk. rewrite getChunk_updateInvoiceStats.
    now apply getChunk_withChunk_other.
  - intros k Hk. rewrite getInvoice_updateInvoiceStats.
    destruct (String.eqb_spec k (Chunk.invoiceId c)); [contradiction|].
    reflexivity.
Qed.

Lemma decision_frame_witness :
  let st' := store_of (decideChunk rejected "chunk-4" 1 2
                         (store Demo.reviewedWorld)) in
  option_map Chunk.status (getChunk "chunk-4" st') = Some rejected
  /\ getChunk "chunk-1" st' = getChunk "chunk-1" (store Demo.reviewedWorld).
Proof.
  destruct (decision_frame (store Demo.reviewedWorld) rejected "chunk-4" 1 2
              _ eq_refl) as [_ [H1 [H2 _]]].
  cbv zeta. rewrite H1. split; [reflexivity|].
  apply H2. discriminate.
Defined.

(** X6. After a decision on a chunk whose document is stored, the counters
    of that document are the numbers of its chunks that are approved and
    rejected, as [getChunksByInvoice] lists them after the request; every
    other field of the document -- [status], [processingProgress],
    [totalChunks], [extractedText], [createdAt], [id], [filename],
    [originalPath], [mimeType], [fileSize] -- is kept, [updatedAt] apart.
    This holds in every store, whatever the counters were before. *)
Theorem decision_recounts (st : Store) (status : ChunkStatus) (id : string)
    (now1 now2 : Date) (c : Chunk.t) (invoice : Invoice.t) :
  getChunk id st = Some c ->
  getInvoice (Chunk.invoiceId c) st = Some invoice ->
  let st' := store_of (decideChunk status id now1 now2 st) in
  exists invoice',
    getInvoice (Chunk.invoiceId c) st' = Some invoice'
    /\ Invoice.approvedChunks invoice'
       = countStatus approved (getChunksByInvoice (Chunk.invoiceId c) st')
    /\ Invoice.rejectedChunks invoice'
       = countStatus rejected (getChunksByInvoice (Chunk.invoiceId c) st')
    /\ Invoice.status invoice' = Invoice.status invoice
    /\ Invoice.processingProgress invoice' = Invoice.processingProgress invoice
    /\ Invoice.totalChunks invoice' = Invoice.totalChunks invoice
    /\ Invoice.extractedText invoice' = Invoice.extractedText invoice
    /\ Invoice.createdAt invoice' = Invoice.createdAt invoice
    /\ Invoice.id invoice' = Invoice.id invoice
    /\ Invoice.filename invoice' = Invoice.filename invoice
    /\ Invoice.originalPath invoice' = Invoice.originalPath invoice
    /\ Invoice.mimeType invoice' = Invoice.mimeType invoice
    /\ Invoice.fileSize invoice' = Invoice.fileSize invoice.
Proof.
  intros Hget Hinv. cbv zeta. rewrite (decideChunk_store status id now1 now2 st c Hget).
  rewrite store_of_tuple.
  set (s1 := withChunk st id (decided status now1 c)).
  rewrite getInvoice_updateInvoiceStats, String.eqb_refl.
  change (getInvoice (Chunk.invoiceId c) s1)
    with (getInvoice (Chunk.invoiceId c) st).
  rewrite Hinv. cbn [option_map].
  eexists. split; [reflexivity|].
  rewrite (getChunksByInvoice_same_chunks _ _ (Chunk.invoiceId c)
             (updateInvoiceStats_chunks (Chunk.invoiceId c) now2 s1)).
  simpl. repeat split.
Qed.

Lemma decision_recounts_witness :
  let st' := store_of (decideChunk approved "chunk-1" 1 2
                         (store Demo.staleWorld)) in
  option_map Invoice.approvedChunks (getInvoice "invoice-1" st') = Some 1
  /\ countStatus approved (getChunksByInvoice "invoice-1" st') = 1.
Proof.
  destruct (decision_recounts (store Demo.staleWorld) approved "chunk-1" 1 2
              _ _ eq_refl eq_refl) as [invoice' [Hi [Ha _]]].
  cbv zeta. cbn [Chunk.invoiceId] in Hi, Ha.
  rewrite Hi. cbn [option_map]. rewrite Ha.
  split; [f_equal|]; vm_compute; reflexivity.
Defined.

(** X7. An update of a stored chunk writes the chunk named by the [id] of
    the body when it has one and by the URL otherwise, keeping its [id] and
    [createdAt]; every other chunk is as before. When the body has no
    [status], no document is written, whatever else the body changes; when
    it has one, the only document written is the one the chunk belongs to
    after the update. *)
Theorem update_frame (st : Store) (id : string) (body : PatchBody)
    (now1 now2 : Date) (c : Chunk.t) :
  let target := body_id body ?? id in
  let c' := applyChunkUpdates c (body_updates body) now1 in
  let st' := store_of (patchChunk id (ok body) now1 now2 st) in
  getChunk target st = Some c ->
  result_of (patchChunk id (ok body) now1 now2 st) = res_json c'
  /\ getChunk target st' = Some c'
  /\ Chunk.id c' = Chunk.id c
  /\ Chunk.createdAt c' = Chunk.createdAt c
  /\ (forall k, k <> target -> getChunk k st' = getChunk k st)
  /\ (ChunkUpdates.status (body_updates body) = None ->
      invoices st' = invoices st)
  /\ (forall k, k <> Chunk.invoiceId c' -> getInvoice k st' = getInvoice k st).
Proof.
  cbv zeta. intros Hget. unfold getChunk in Hget.
  unfold patchChunk. autorewrite with run. unfold updateChunk.
  rewrite Hget. cbv zeta; cbn [fst snd].
  set (c' := applyChunkUpdates c (body_updates body) now1).
  fold (withChunk st (body_id body ?? id) c'). autorewrite with run.
  destruct (ChunkUpdates.status (body_updates body)) as [s|];
    cbn [isSome]; autorewrite with run.
  - split; [reflexivity|]. split; [|split; [|split; [|split; [|split]]]];
      try reflexivity.
    + rewrite getChunk_updateInvoiceStats. unfold getChunk, withChunk. simpl.
      apply get_set_same.
    + intros k Hk. rewrite getChunk_updateInvoiceStats.
      now apply getChunk_withChunk_other.
    + discriminate.
    + intros k Hk. rewrite getInvoice_updateInvoiceStats.
      destruct (String.eqb_spec k (Chunk.invoiceId c')); [contradiction|].
      reflexivity.
  - split; [reflexivity|]. split; [|split; [|split; [|split; [|split]]]];
      try reflexivity.
    + unfold getChunk, withChunk. simpl. apply get_set_same.
    + intros k Hk. now apply getChunk_withChunk_other.
Qed.

Lemma update_frame_witness :
  let body := mkPatchBody (Some "chunk-2")
                (ChunkUpdates.mk None None None (Some (JStr "Line one")) None
                   None None None None None) in
  let st' := store_of (patchChunk "chunk-1" (ok body) 1 2
                         (store Demo.reviewedWorld)) in
  getChunk "chunk-1" st' = getChunk "chunk-1" (store Demo.reviewedWorld)
  /\ option_map Chunk.title (getChunk "chunk-2" st')
     = Some (Some (JStr "Line one"))
  /\ invoices st' = invoices (store Demo.reviewedWorld).
Proof.
  cbv zeta.
  destruct (update_frame (store Demo.reviewedWorld) "chunk-1"
              (mkPatchBody (Some "chunk-2")
                 (ChunkUpdates.mk None None None (Some (JStr "Line one")) None
                    None None None None None))
              1 2 _ eq_refl) as [_ [H1 [_ [_ [H2 [H3 _]]]]]].
  split; [apply H2; discriminate|].
  split; [|exact (H3 eq_refl)].
  cbn [nullish body_id] in H1. rewrite H1. reflexivity.
Defined.

(** ** Finalizing again *)

(** X8. Finalize is accepted again on a finalized document: a second
    finalize right after a successful one succeeds too, returns the same
    status and changes nothing but [updatedAt]. *)
Theorem finalize_twice (st st' : Store) (id : string) (now now' : Date)
    (updated : Invoice.t) (log : list Store) :
  finalizeInvoice id now st = (res_json updated, st', log) ->
  result_of (finalizeInvoice id now' st') = res_json (touched now' updated)
  /\ getInvoice id (store_of (finalizeInvoice id now' st'))
     = Some (touched now' updated)
  /\ chunks (store_of (finalizeInvoice id now' st')) = chunks st
  /\ forall k, k <> id ->
       getInvoice k (store_of (finalizeInvoice id now' st')) = getInvoice k st.
Proof.
  intros H. unfold finalizeInvoice, bind, query, call, ret in H.
  destruct (forallb _ (getChunksByInvoice id st)) eqn:Hall; simpl in H;
    [|discriminate].
  unfold updateInvoice in H.
  destruct (JsMap.get id (invoices st)) as [invoice|] eqn:Hget;
    simpl in H; [|discriminate].
  injection H as <- <- _.
  set (u := applyInvoiceUpdates invoice _ now).
  fold (withInvoice st id u).
  assert (Hch : getChunksByInvoice id (withInvoice st id u)
                = getChunksByInvoice id st) by reflexivity.
  assert (Hpass := finalizeInvoice_passed (withInvoice st id u) id now'
                     (getInvoice_withInvoice st id u)).
  rewrite Hch in Hpass. specialize (Hpass Hall). cbv zeta in Hpass.
  rewrite Hpass. rewrite result_of_tuple, store_of_tuple.
  assert (Hsame : applyInvoiceUpdates u
                    (InvoiceUpdates.mk
                       (Some (if existsb (hasStatus rejected)
                                   (getChunksByInvoice id st)
                              then I_rejected else I_approved))
                       None None None None None) now'
                  = touched now' u).
  { unfold u, applyInvoiceUpdates, touched. simpl. reflexivity. }
  rewrite Hsame. split; [reflexivity|]. split; [|split].
  - unfold getInvoice. simpl. apply get_set_same.
  - reflexivity.
  - intros k Hk. unfold getInvoice. simpl.
    rewrite !get_set_other by exact Hk. reflexivity.
Qed.

Lemma finalize_twice_witness :
  let st1 := store_of (finalizeInvoice "invoice-1" 6001
                         (store Demo.decidedWorld)) in
  option_map Invoice.status
    (getInvoice "invoice-1" (store_of (finalizeInvoice "invoice-1" 6002 st1)))
  = Some I_rejected.
Proof.
  cbv zeta.
  assert (H : finalizeInvoice "invoice-1" 6001 (store Demo.decidedWorld) = _)
    by (vm_compute; reflexivity).
  destruct (finalize_twice _ _ "invoice-1" 6001 6002 _ _ H) as [_ [H2 _]].
  rewrite H, store_of_tuple. rewrite H2. reflexivity.
Defined.

(** ** The extraction and the upload *)

Lemma prefix_append (s t : string) : String.prefix s (s ++ t) = true.
Proof.
  induction s as [|a s IH]; simpl; [now destruct t|].
  destruct (Ascii.ascii_dec a a); [exact IH | contradiction].
Qed.

(** X9. The extraction succeeds exactly on a reply whose parsed content has
    an array under [chunks]. It then returns one entry per element of the
    array, the entry at position [i] numbered [i + 1], and as text either the
    reply's own truthy [extractedText] or the empty string. In every other
    case it throws a message that starts with "Failed to parse invoice: ". *)
Theorem vision_reply_outcome (reply : VisionReply) :
  match parseInvoiceWithVision reply with
  | ok parsed =>
      exists result items,
        reply = vision_content (ok result)
        /\ prop result "chunks" = Some (JArr items)
        /\ List.length (parsed_chunks parsed) = List.length items
        /\ (forall i e, nth_error (parsed_chunks parsed) i = Some e ->
              ExtractedChunk.sequenceNumber e = Z.of_nat i + 1)
        /\ (parsed_extractedText parsed = JStr EmptyString
            \/ truthy (parsed_extractedText parsed) = true
               /\ prop result "extractedText"
                  = Some (parsed_extractedText parsed))
  | throw message =>
      String.prefix "Failed to parse invoice: " message = true
      /\ forall result items,
           reply = vision_content (ok result) ->
           prop result "chunks" <> Some (JArr items)
  end.
Proof.
  assert (Hfail : forall m result0,
            (forall items, prop result0 "chunks" <> Some (JArr items)) ->
            String.prefix "Failed to parse invoice: "
              ("Failed to parse invoice: " ++ m) = true
            /\ forall result items,
                 vision_content (ok result0) = vision_content (ok result) ->
                 prop result "chunks" <> Some (JArr items)).
  { intros m result0 H. split; [apply prefix_append|].
    intros result items [= <-]. apply H. }
  destruct reply as [m | [result | m]].
  - split; [apply prefix_append | discriminate].
  - destruct result as [| b | q | s | l | fields];
      try (apply Hfail; intros items; discriminate).
    unfold parseInvoiceWithVision.
    destruct (prop (JObj fields) "chunks") as [[| | | | items |]|] eqn:Hc;
      try (apply Hfail; intros items'; rewrite Hc; discriminate).
    exists (JObj fields), items. split; [reflexivity|]. split; [exact Hc|].
    cbn [parsed_chunks parsed_extractedText]. split; [|split].
    + apply mapi_from_length.
    + intros i e. unfold mapi. rewrite mapi_from_nth.
      destruct (nth_error items i); [|discriminate].
      intros [= <-]. reflexivity.
    + destruct (prop (JObj fields) "extractedText") as [text|];
        [|now left].
      destruct (truthy text) eqn:Ht; [right; now split | now left].
  - split; [apply prefix_append | discriminate].
Qed.

(** X10. What the upload filter lets through is either an image type, whose
    conversion is the one of [sharp], or [application/pdf]; and an accepted
    PDF is always refused by the pipeline: the run ends with the document
    [rejected] at progress 0 after three writes, the chunks untouched,
    whatever the collaborators would have answered. *)
Theorem accepted_types_and_pipeline (filePath filename mimeType : string)
    (fileSize : Z) (id : string) (now : Date) (clock : RunClock)
    (sharp : result string) (reply : VisionReply) (st : Store) :
  let r := processUploadedFile filePath filename mimeType fileSize id now
             clock sharp reply st in
  fileFilter mimeType = true ->
  (String.prefix "image/" mimeType = true
   /\ convertToBase64Image mimeType sharp = sharp)
  \/ (mimeType = "application/pdf"
      /\ option_map Invoice.status (getInvoice id (store_of r))
         = Some I_rejected
      /\ progressOf id (store_of r) = Some 0
      /\ chunks (store_of r) = chunks st
      /\ map (progressOf id) (log_of r) = [Some 10; Some 25; Some 0]).
Proof.
  cbv zeta. unfold fileFilter, allowedTypes. cbn [existsb].
  destruct (String.eqb_spec mimeType "image/jpeg") as [->|_];
    [intros _; left; now split|].
  destruct (String.eqb_spec mimeType "image/png") as [->|_];
    [intros _; left; now split|].
  destruct (String.eqb_spec mimeType "image/webp") as [->|_];
    [intros _; left; now split|].
  destruct (String.eqb_spec mimeType "application/pdf") as [->|_];
    [intros _; right | discriminate].
  split; [reflexivity|].
  rewrite processUploadedFile_run. cbv zeta.
  rewrite (@background_convert_fails id "application/pdf" clock sharp reply
             _ _ (getInvoice_withInvoice st id _) _ eq_refl).
  unfold store_of, log_of, progressOf. cbn [fst snd map].
  rewrite !getInvoice_withInvoice. repeat split.
Qed.

Lemma accepted_types_and_pipeline_witness :
  option_map Invoice.status
    (getInvoice "invoice-9"
       (store_of (processUploadedFile "uploads/f9" "scan.pdf"
                    "application/pdf" 2048 "invoice-9" 7000 Demo.clock
                    (ok "base64") Demo.reply MemStorage)))
  = Some I_rejected.
Proof.
  destruct (accepted_types_and_pipeline "uploads/f9" "scan.pdf"
              "application/pdf" 2048 "invoice-9" 7000 Demo.clock
              (ok "base64") Demo.reply MemStorage eq_refl)
    as [[H _] | [_ [H _]]]; [discriminate H | exact H].
Defined.

(** X11. An upload request without a file answers 400 and makes no storage
    call. With a file it answers the identifier drawn for the document, and
    by then the document is stored under that identifier as [processing] at
    progress 25 with no text and the three counters at 0; the chunks and
    every other document are as before. *)
Theorem upload_response (file : option MulterFile) (id : string) (now : Date)
    (clock : RunClock) (st : Store) :
  let r := uploadRoute file id now clock st in
  match file with
  | None => r = (res_error 400 "No file uploaded", st, [])
  | Some f =>
      result_of r = res_json id
      /\ getInvoice id (store_of r)
         = Some (Invoice.mk id (file_filename f) (file_path f)
                   (file_mimetype f) (file_size f) I_processing None
                   25 0 0 0 now (at25 clock))
      /\ chunks (store_of r) = chunks st
      /\ (forall k, k <> id -> getInvoice k (store_of r) = getInvoice k st)
      /\ map (progressOf id) (log_of r) = [Some 10; Some 25]
  end.
Proof.
  cbv zeta. destruct file as [f|]; [|reflexivity].
  unfold uploadRoute, uploadSegment, bind, call, ret, createInvoice.
  cbn [fst snd Invoice.id nullish InsertInvoice.status
       InsertInvoice.processingProgress InsertInvoice.totalChunks
       InsertInvoice.approvedChunks InsertInvoice.rejectedChunks
       InsertInvoice.filename InsertInvoice.originalPath
       InsertInvoice.mimeType InsertInvoice.fileSize
       InsertInvoice.extractedText].
  set (i10 := Invoice.mk id _ _ _ _ _ _ _ _ _ _ _ _).
  fold (withInvoice st id i10).
  rewrite (@updateInvoice_found _ _ _ (progressUpdate 25) (at25 clock)
             (getInvoice_withInvoice st id i10)).
  unfold result_of, store_of, log_of. cbn [fst snd].
  split; [reflexivity|]. split; [apply getInvoice_withInvoice|].
  split; [reflexivity|]. split.
  - intros k Hk. now rewrite !getInvoice_withInvoice_other.
  - unfold progressOf. cbn [map app]. now rewrite !getInvoice_withInvoice.
Qed.

(** ** The review page and the finalization gate *)

Lemma tally_by_status (k : string) (st : Store) :
  tally (owned k) st
  = tally (ownedWith k approved) st + tally (ownedWith k rejected) st
    + tally (awaiting k) st.
Proof.
  unfold tally. induction (JsMap.values (chunks st)) as [|c l IH];
    [reflexivity|].
  cbn [filter]. unfold ownedWith, awaiting, hasStatus.
  destruct (owned k c); cbn [andb]; [|exact IH].
  destruct (Chunk.status c); cbn [ChunkStatus_eqb orb List.length];
    unfold ownedWith, awaiting, hasStatus in IH; lia.
Qed.

Lemma tally_positive (p : Chunk.t -> bool) (st : Store) :
  0 < tally p st <->
  exists c, In c (JsMap.values (chunks st)) /\ p c = true.
Proof.
  split.
  - intros H. destruct (filter p (JsMap.values (chunks st))) as [|c l] eqn:E.
    + unfold tally in H. rewrite E in H. simpl in H. lia.
    + exists c. apply filter_In. rewrite E. now left.
  - intros [c [Hc Hp]]. pose proof (tally_nonneg p st) as H0.
    destruct (Z.eq_dec (tally p st) 0) as [Hz|Hz]; [|lia].
    rewrite (tally_zero_none p st c Hz Hc) in Hp. discriminate.
Qed.

Lemma gate_closed_iff_awaiting (st : Store) (id : string) :
  forallb (fun c => negb (hasStatus pending c) && negb (hasStatus editing c))
    (getChunksByInvoice id st) = false
  <-> 0 < tally (awaiting id) st.
Proof.
  rewrite allReviewed_false, tally_positive.
  split; intros [c H]; exists c.
  - destruct H as [[Hin Hown] Hs]. split; [exact Hin|].
    unfold awaiting, owned. rewrite Hown, String.eqb_refl. cbn [andb].
    apply orb_true_iff. rewrite !hasStatus_true. exact Hs.
  - destruct H as [Hin Hp]. unfold awaiting in Hp.
    apply andb_true_iff in Hp. destruct Hp as [Hown Hs].
    apply orb_true_iff in Hs. rewrite !hasStatus_true in Hs.
    split; [|exact Hs]. split; [exact Hin|]. now apply String.eqb_eq.
Qed.

Lemma orZero_id (x : Z) : orZero x = x.
Proof. unfold orZero. destruct (Z.eqb_spec x 0); congruence. Qed.

(** X12. As long as no update has given a chunk another [invoiceId], the
    "pending" figure that the review page computes from the three counters
    of a document is the number of its chunks that are pending or being
    edited, and the page's Finalize button agrees with the server's gate:
    the figure is positive exactly when a finalize request would be
    answered 400, and zero exactly when it would be answered with the
    document. *)
Theorem finalize_button_agrees (w : World) (id : string)
    (invoice : Invoice.t) (now : Date) :
  reachableKeepingOwners w ->
  getInvoice id (store w) = Some invoice ->
  pendingChunks invoice = tally (awaiting id) (store w)
  /\ (0 < pendingChunks invoice <->
      result_of (finalizeInvoice id now (store w))
      = res_error 400 "All chunks must be reviewed before finalizing")
  /\ (pendingChunks invoice = 0 <->
      exists updated,
        result_of (finalizeInvoice id now (store w)) = res_json updated).
Proof.
  intros Hreach Hget.
  destruct (reachableKeepingOwners_Inv Hreach) as [[Ht Hc _ _] _].
  assert (Hp : pendingChunks invoice = tally (awaiting id) (store w)).
  { unfold pendingChunks. rewrite !orZero_id.
    destruct (Hc id invoice Hget) as [Ha Hr]; [discriminate|].
    rewrite (Ht id invoice Hget), Ha, Hr, (tally_by_status id (store w)).
    lia. }
  split; [exact Hp|]. rewrite Hp.
  pose proof (gate_closed_iff_awaiting (store w) id) as Hgate.
  pose proof (tally_nonneg (awaiting id) (store w)) as H0.
  destruct (forallb _ (getChunksByInvoice id (store w))) eqn:Hall.
  - rewrite (finalizeInvoice_passed _ _ now Hget Hall). cbv zeta.
    rewrite result_of_tuple.
    assert (Hz : ~ 0 < tally (awaiting id) (store w))
      by (intros H; apply Hgate in H; discriminate).
    split; split.
    + intros H. contradiction.
    + discriminate.
    + intros _. eexists. reflexivity.
    + intros _. lia.
  - assert (Hpos : 0 < tally (awaiting id) (store w)) by now apply Hgate.
    assert (Hres : result_of (finalizeInvoice id now (store w))
                   = res_error 400
                       "All chunks must be reviewed before finalizing").
    { unfold finalizeInvoice. autorewrite with run. rewrite Hall.
      reflexivity. }
    rewrite Hres. split; split.
    + reflexivity.
    + intros _. exact Hpos.
    + intros H. lia.
    + intros [updated H]. discriminate.
Qed.

Lemma finalize_button_agrees_witness :
  exists invoice,
    getInvoice "invoice-1" (store Demo.reviewedWorld) = Some invoice
    /\ pendingChunks invoice = 1
    /\ result_of (finalizeInvoice "invoice-1" 3000 (store Demo.reviewedWorld))
       = res_error 400 "All chunks must be reviewed before finalizing".
Proof.
  eexists. split; [vm_compute; reflexivity|].
  assert (Hreach : reachableKeepingOwners Demo.reviewedWorld)
    by (exists Demo.reviewed; vm_compute; reflexivity).
  destruct (finalize_button_agrees Demo.reviewedWorld "invoice-1" _ 3000
              Hreach eq_refl) as [H1 [H2 _]].
  split; [reflexivity|]. apply H2. reflexivity.
Defined.

(** X13. [GET /api/invoices/:id] reads only, in every store. It answers
    404 exactly when there is no such document; otherwise it returns the
    document with the chunks that [getChunksByInvoice] lists for it, each of
    them the document's own. When the store is one the server has reached
    without an update giving a chunk another [invoiceId], the three counters
    of the returned document are moreover the counts of that very list: its
    length, its approved and its rejected chunks. *)
Theorem get_invoice_consistent (st : Store) (id : string) :
  store_of (getInvoiceRoute id st) = st
  /\ log_of (getInvoiceRoute id st) = []
  /\ match result_of (getInvoiceRoute id st) with
     | res_json r =>
         getInvoice id st = Some (InvoiceWithChunks.invoice r)
         /\ InvoiceWithChunks.chunks r = getChunksByInvoice id st
         /\ Forall (fun c => Chunk.invoiceId c = id)
              (InvoiceWithChunks.chunks r)
         /\ (forall w, reachableKeepingOwners w -> store w = st ->
              Invoice.totalChunks (InvoiceWithChunks.invoice r)
              = Z.of_nat (List.length (InvoiceWithChunks.chunks r))
              /\ Invoice.approvedChunks (InvoiceWithChunks.invoice r)
                 = countStatus approved (InvoiceWithChunks.chunks r)
              /\ Invoice.rejectedChunks (InvoiceWithChunks.invoice r)
                 = countStatus rejected (InvoiceWithChunks.chunks r))
     | res_error code message =>
         code = 404 /\ message = "Invoice not found"
         /\ getInvoice id st = None
     end.
Proof.
  unfold getInvoiceRoute. autorewrite with run.
  unfold getInvoiceWithChunks.
  destruct (JsMap.get id (invoices st)) as [invoice|] eqn:Hget;
    autorewrite with run.
  - split; [reflexivity|]. split; [reflexivity|].
    cbn [InvoiceWithChunks.invoice InvoiceWithChunks.chunks].
    fold (getChunksByInvoice id st).
    split; [exact Hget|]. split; [reflexivity|]. split.
    + apply Forall_forall. intros c Hin.
      apply getChunksByInvoice_In in Hin. now destruct Hin.
    + intros w Hreach Hst. subst st.
      destruct (reachableKeepingOwners_Inv Hreach) as [[Ht Hc _ _] _].
      rewrite length_tally, !countStatus_tally.
      destruct (Hc id invoice Hget) as [Ha Hr]; [discriminate|].
      rewrite (Ht id invoice Hget). now split.
  - split; [reflexivity|]. split; [reflexivity|].
    split; [reflexivity|]. split; [reflexivity | exact Hget].
Qed.

Lemma get_invoice_consistent_witness :
  match result_of (getInvoiceRoute "invoice-1" (store Demo.reviewedWorld)) with
  | res_json r =>
      Invoice.totalChunks (InvoiceWithChunks.invoice r)
      = Z.of_nat (List.length (InvoiceWithChunks.chunks r))
  | res_error _ _ => False
  end.
Proof.
  assert (Hreach : reachableKeepingOwners Demo.reviewedWorld)
    by (exists Demo.reviewed; vm_compute; reflexivity).
  destruct (get_invoice_consistent (store Demo.reviewedWorld) "invoice-1")
    as [_ [_ H]].
  destruct (result_of (getInvoiceRoute "invoice-1" (store Demo.reviewedWorld)))
    as [r | code message] eqn:E.
  - destruct H as [_ [_ [_ H]]].
    now destruct (H Demo.reviewedWorld Hreach eq_refl) as [H1 _].
  - vm_compute in E. discriminate E.
Defined.

(** ** The progress of a document and the run that writes it *)

Lemma Staged_step (st st' : Store) (ts ts' : list Task) (id : string) (p : Z) :
  (forall k, progressOf k st'
             = if String.eqb k id then Some p else progressOf k st) ->
  (forall t, In t ts' ->
     (task_invoiceId t = id /\ stageProgress (task_stage t) = p)
     \/ (In t ts /\ task_invoiceId t <> id)) ->
  (forall t, In t ts -> task_invoiceId t <> id -> In t ts') ->
  (p = 0 \/ p = 100 \/ exists t, In t ts' /\ task_invoiceId t = id) ->
  Staged st ts -> Staged st' ts'.
Proof.
  intros Hprog Hnew Hold Hp [J1 J2]. split.
  - intros t Ht. rewrite Hprog.
    destruct (Hnew t Ht) as [[Hid Hs] | [Hin Hne]].
    + rewrite Hid, String.eqb_refl. now rewrite Hs.
    + destruct (String.eqb_spec (task_invoiceId t) id); [contradiction|].
      now apply J1.
  - intros k q. rewrite Hprog.
    destruct (String.eqb_spec k id) as [->|Hne].
    + intros [= <-]. exact Hp.
    + intros Hq. destruct (J2 k q Hq) as [H|[H|[t [Hin Hk]]]]; auto.
      right; right. exists t. split; [|exact Hk].
      apply Hold; [exact Hin | congruence].
Qed.

Lemma progressOf_write (id k : string) (updates : InvoiceUpdates.t)
    (now : Date) (st : Store) (p : Z) :
  InvoiceUpdates.processingProgress updates = Some p ->
  getInvoice id st <> None ->
  progressOf k (snd (updateInvoice id updates now st))
  = if String.eqb k id then Some p else progressOf k st.
Proof.
  intros Hu Hex. unfold progressOf. rewrite getInvoice_updateInvoice.
  destruct (String.eqb k id); [|reflexivity].
  destruct (getInvoice id st) as [invoice|]; [|contradiction].
  simpl. now rewrite Hu.
Qed.

Lemma upload_segment_store (filePath filename mimeType : string)
    (fileSize : Z) (id : string) (now : Date) (clock : RunClock) (st : Store) :
  exists i10,
    store_of (uploadSegment filePath filename mimeType fileSize id now clock st)
    = snd (updateInvoice id (progressUpdate 25) (at25 clock)
             (withInvoice st id i10)).
Proof.
  unfold uploadSegment. autorewrite with run.
  unfold createInvoice. cbn [fst snd Invoice.id].
  eexists. reflexivity.
Qed.

Lemma progressOf_uploadSegment (filePath filename mimeType : string)
    (fileSize : Z) (id : string) (now : Date) (clock : RunClock)
    (st : Store) (k : string) :
  progressOf k (store_of (uploadSegment filePath filename mimeType fileSize
                            id now clock st))
  = if String.eqb k id then Some 25 else progressOf k st.
Proof.
  destruct (upload_segment_store filePath filename mimeType fileSize id now
              clock st) as [i10 ->].
  rewrite (progressOf_write id k (progressUpdate 25) (at25 clock) _ 25
             eq_refl).
  - destruct (String.eqb_spec k id) as [->|Hne]; [reflexivity|].
    unfold progressOf. now rewrite getInvoice_withInvoice_other.
  - rewrite getInvoice_withInvoice. discriminate.
Qed.

Lemma progressOf_afterConvert (id : string) (clock : RunClock)
    (outcome : result string) (st : Store) (k : string) :
  getInvoice id st <> None ->
  progressOf k (store_of (afterConvert id clock outcome st))
  = if String.eqb k id
    then Some (if result_of (afterConvert id clock outcome st) then 50 else 0)
    else progressOf k st.
Proof.
  intros Hex. destruct outcome as [image|message];
    unfold afterConvert, onPipelineError; autorewrite with run.
  - now apply progressOf_write.
  - now apply progressOf_write.
Qed.

Lemma progressOf_afterVision (id : string) (clock : RunClock)
    (outcome : result ParsedInvoiceData) (st : Store) (k : string) :
  getInvoice id st <> None ->
  progressOf k (store_of (afterVision id clock outcome st))
  = if String.eqb k id
    then Some (match outcome with ok _ => 100 | throw _ => 0 end)
    else progressOf k st.
Proof.
  intros Hex. destruct outcome as [parsedData|message];
    unfold afterVision, onPipelineError; autorewrite with run.
  - rewrite createChunks_run. rewrite result_of_tuple, store_of_tuple.
    set (s75 := snd (updateInvoice id (progressUpdate 75) (at75 clock) st)).
    set (stored := mkStore (invoices s75) _).
    assert (H75 : getInvoice id stored <> None)
      by (apply (getInvoice_updateInvoice_exists id (progressUpdate 75)
                   (at75 clock) st id Hex)).
    rewrite (progressOf_write id k
               (readyUpdate (parsed_extractedText parsedData)
                  (Z.of_nat (List.length
                     (mapi_from (createdChunk id clock) 0
                        (parsed_chunks parsedData)))))
               (atReady clock) stored 100 eq_refl H75).
    destruct (String.eqb_spec k id) as [->|Hne]; [reflexivity|].
    change (progressOf k stored) with (progressOf k s75).
    unfold s75.
    rewrite (progressOf_write id k (progressUpdate 75) (at75 clock) st 75
               eq_refl Hex).
    destruct (String.eqb_spec k id); [contradiction | reflexivity].
  - now apply progressOf_write.
Qed.

Lemma dropTask_In (id : string) (ts : list Task) (t : Task) :
  In t (dropTask id ts) <-> In t ts /\ task_invoiceId t <> id.
Proof.
  unfold dropTask. rewrite filter_In, negb_true_iff.
  destruct (String.eqb_spec (task_invoiceId t) id); intuition congruence.
Qed.

Lemma findTask_In (id : string) (s : Stage) (ts : list Task) (t : Task) :
  findTask id s ts = Some t ->
  In t ts /\ task_invoiceId t = id /\ task_stage t = s.
Proof.
  unfold findTask. intros H. apply find_some in H. destruct H as [Hin Hb].
  apply andb_true_iff in Hb. destruct Hb as [Hid Hs].
  apply String.eqb_eq in Hid. split; [exact Hin|]. split; [exact Hid|].
  unfold isStage in Hs. destruct s, (task_stage t); congruence.
Qed.

Lemma exec_Staged (op : Op) (w w' : World) :
  exec op w = Some w' ->
  Staged (store w) (tasks w) -> Staged (store w') (tasks w').
Proof.
  intros Hexec HJ.
  destruct op as [filePath filename mimeType fileSize id now clock
                 | invoiceId clock sharp
                 | invoiceId clock reply
                 | id now1 now2 | id now1 now2 | id body now1 now2
                 | id now].
  - simpl in Hexec.
    destruct (mem id (JsMap.keys (invoices (store w)))) eqn:Hmem;
      [discriminate|].
    injection Hexec as <-. cbn [store tasks commit].
    assert (Hnone : progressOf id (store w) = None).
    { unfold progressOf, getInvoice.
      assert (H : JsMap.get id (invoices (store w)) = None).
      { apply get_None_keys. rewrite <- mem_In. now rewrite Hmem. }
      now rewrite H. }
    assert (Hother : forall t, In t (tasks w) -> task_invoiceId t <> id).
    { intros t Ht E. destruct HJ as [J1 _]. specialize (J1 t Ht).
      rewrite E, Hnone in J1. discriminate. }
    apply (Staged_step (store w) _ (tasks w) _ id 25).
    + intros k. apply progressOf_uploadSegment.
    + intros t [<- | Ht]; [left; now split | right].
      split; [exact Ht | now apply Hother].
    + intros t Ht _. now right.
    + right; right. eexists. split; [now left | reflexivity].
    + exact HJ.
  - simpl in Hexec.
    destruct (findTask invoiceId AwaitingConvert (tasks w)) as [t|] eqn:Ht;
      [|discriminate].
    injection Hexec as <-. cbn [store tasks commit].
    destruct (findTask_In _ _ _ _ Ht) as [Hin [Hid Hs]].
    assert (Hex : getInvoice invoiceId (store w) <> None).
    { destruct HJ as [J1 _]. specialize (J1 t Hin). rewrite Hid in J1.
      unfold progressOf in J1.
      now destruct (getInvoice invoiceId (store w)). }
    set (r := afterConvert invoiceId clock
                (convertToBase64Image (task_mimeType t) sharp) (store w)).
    apply (Staged_step (store w) _ (tasks w) _ invoiceId
             (if result_of r then 50 else 0)).
    + intros k. now apply progressOf_afterConvert.
    + intros t'. destruct (result_of r).
      * intros [<- | Ht']; [left; now split | right].
        now apply dropTask_In.
      * intros Ht'. right. now apply dropTask_In.
    + intros t' Ht' Hne. destruct (result_of r);
        [right|]; now apply dropTask_In.
    + destruct (result_of r); [|now left].
      right; right. eexists. split; [now left | reflexivity].
    + exact HJ.
  - simpl in Hexec.
    destruct (findTask invoiceId AwaitingVision (tasks w)) as [t|] eqn:Ht;
      [|discriminate].
    destruct (freshChunkIds clock _ (store w)); [|discriminate].
    injection Hexec as <-. cbn [store tasks commit].
    destruct (findTask_In _ _ _ _ Ht) as [Hin [Hid Hs]].
    assert (Hex : getInvoice invoiceId (store w) <> None).
    { destruct HJ as [J1 _]. specialize (J1 t Hin). rewrite Hid in J1.
      unfold progressOf in J1.
      now destruct (getInvoice invoiceId (store w)). }
    apply (Staged_step (store w) _ (tasks w) _ invoiceId
             (match parseInvoiceWithVision reply with
              | ok _ => 100 | throw _ => 0 end)).
    + intros k. now apply progressOf_afterVision.
    + intros t' Ht'. right. now apply dropTask_In.
    + intros t' Ht' Hne. now apply dropTask_In.
    + destruct (parseInvoiceWithVision reply); [right|]; now left.
    + exact HJ.
  - pose proof (fun k => requests_keep_progress (Approve id now1 now2) w k
                           I Hexec) as Hsame.
    injection Hexec as <-. cbn [tasks commit] in *.
    destruct HJ as [J1 J2]. split.
    + intros t Ht. rewrite Hsame. now apply J1.
    + intros k p. rewrite Hsame. apply J2.
  - pose proof (fun k => requests_keep_progress (Reject id now1 now2) w k
                           I Hexec) as Hsame.
    injection Hexec as <-. cbn [tasks commit] in *.
    destruct HJ as [J1 J2]. split.
    + intros t Ht. rewrite Hsame. now apply J1.
    + intros k p. rewrite Hsame. apply J2.
  - pose proof (fun k => requests_keep_progress (Patch id body now1 now2) w k
                           I Hexec) as Hsame.
    injection Hexec as <-. cbn [tasks commit] in *.
    destruct HJ as [J1 J2]. split.
    + intros t Ht. rewrite Hsame. now apply J1.
    + intros k p. rewrite Hsame. apply J2.
  - pose proof (fun k => requests_keep_progress (Finalize id now) w k
                           I Hexec) as Hsame.
    injection Hexec as <-. cbn [tasks commit] in *.
    destruct HJ as [J1 J2]. split.
    + intros t Ht. rewrite Hsame. now apply J1.
    + intros k p. rewrite Hsame. apply J2.
Qed.

Lemma run_Staged (allowed : Store -> Op -> bool) (ops : list Op) :
  forall w w', run allowed ops w = Some w' ->
               Staged (store w) (tasks w) -> Staged (store w') (tasks w').
Proof.
  induction ops as [|op ops IH]; intros w w'; simpl.
  - now intros [= <-].
  - destruct (allowed (store w) op); [|discriminate].
    destruct (exec op w) as [w1|] eqn:Hexec; [|discriminate].
    intros Hrun HJ. apply (IH w1 w' Hrun).
    exact (exec_Staged op w w1 Hexec HJ).
Qed.

(** X14. Between two steps of the server -- a request served, or a run
    resumed by a collaborator's answer -- the progress of a document is 0,
    25, 50 or 100: the values 10 and 75 are written and overwritten within
    one step. It is 25 exactly while the document's run waits for the image
    conversion and 50 exactly while it waits for the extraction. This holds
    whatever requests are interleaved with the runs. *)
Theorem progress_tracks_run (w : World) (k : string) (invoice : Invoice.t) :
  reachable w ->
  getInvoice k (store w) = Some invoice ->
  let p := Invoice.processingProgress invoice in
  (p = 0 \/ p = 25 \/ p = 50 \/ p = 100)
  /\ (p = 25 <-> isSome (findTask k AwaitingConvert (tasks w)) = true)
  /\ (p = 50 <-> isSome (findTask k AwaitingVision (tasks w)) = true).
Proof.
  intros [ops Hrun] Hget. cbv zeta.
  assert (HJ : Staged (store w) (tasks w)).
  { apply (run_Staged anyOp ops initial w Hrun). split.
    - intros t [].
    - intros k0 p. discriminate. }
  destruct HJ as [J1 J2].
  assert (Hp : progressOf k (store w)
               = Some (Invoice.processingProgress invoice))
    by (unfold progressOf; now rewrite Hget).
  assert (Hfound : forall s,
            isSome (findTask k s (tasks w)) = true ->
            Invoice.processingProgress invoice = stageProgress s).
  { intros s Hs. destruct (findTask k s (tasks w)) as [t|] eqn:Ht;
      [|discriminate].
    destruct (findTask_In _ _ _ _ Ht) as [Hin [Hid Hst]].
    specialize (J1 t Hin). rewrite Hid, Hst, Hp in J1. congruence. }
  assert (Hwaits : forall s,
            Invoice.processingProgress invoice = stageProgress s ->
            isSome (findTask k s (tasks w)) = true).
  { intros s Hs. destruct (J2 k _ Hp) as [H|[H|[t [Hin Hid]]]];
      [destruct s; simpl in Hs; lia | destruct s; simpl in Hs; lia |].
    destruct (findTask k s (tasks w)) as [t'|] eqn:Ht; [reflexivity|].
    exfalso. unfold findTask in Ht.
    pose proof (find_none _ _ Ht t Hin) as Hb. cbv beta in Hb.
    rewrite Hid, String.eqb_refl in Hb. cbn [andb] in Hb.
    specialize (J1 t Hin). rewrite Hid, Hp in J1.
    assert (Hst : stageProgress (task_stage t) = stageProgress s)
      by congruence.
    unfold isStage in Hb. destruct s, (task_stage t);
      simpl in Hst; try discriminate Hb; lia. }
  split; [|split].
  - destruct (J2 k _ Hp) as [H|[H|[t [Hin Hid]]]]; [tauto | tauto |].
    specialize (J1 t Hin). rewrite Hid, Hp in J1.
    injection J1 as ->. destruct (task_stage t); simpl; tauto.
  - split; [apply (Hwaits AwaitingConvert) | apply (Hfound AwaitingConvert)].
  - split; [apply (Hwaits AwaitingVision) | apply (Hfound AwaitingVision)].
Qed.

Lemma progress_tracks_run_witness :
  exists invoice,
    getInvoice "invoice-1" (store Demo.uploadedWorld) = Some invoice
    /\ Invoice.processingProgress invoice = 25
    /\ isSome (findTask "invoice-1" AwaitingConvert (tasks Demo.uploadedWorld))
       = true.
Proof.
  eexists. split; [vm_compute; reflexivity|].
  assert (Hreach : reachable Demo.uploadedWorld)
    by (exists [Demo.upload]; vm_compute; reflexivity).
  destruct (progress_tracks_run Demo.uploadedWorld "invoice-1" _ Hreach
              eq_refl) as [_ [H _]].
  split; [reflexivity|]. apply H. reflexivity.
Defined.

(** ** What no step undoes *)

Section Preserved.

(** A property of the store that every storage call keeps, the two
    creations being made under a new key. *)
Variable P : Store -> Prop.
Hypothesis P_createInvoice :
  forall insertInvoice id now st,
    getInvoice id st = None -> P st ->
    P (snd (createInvoice insertInvoice id now st)).
Hypothesis P_updateInvoice :
  forall id updates now st, P st -> P (snd (updateInvoice id updates now st)).
Hypothesis P_createChunk :
  forall insertChunk id now st,
    getChunk id st = None -> P st ->
    P (snd (createChunk insertChunk id now st)).
Hypothesis P_updateChunk :
  forall id updates now st, P st -> P (snd (updateChunk id updates now st)).
Hypothesis P_updateChunkStatus :
  forall id status now st,
    P st -> P (snd (updateChunkStatus id status now st)).

Lemma updateInvoiceStats_preserves (id : string) (now : Date) (st : Store) :
  P st -> P (store_of (updateInvoiceStats id now st)).
Proof.
  intros H. unfold updateInvoiceStats. autorewrite with run.
  now apply P_updateInvoice.
Qed.

Lemma decideChunk_preserves (status : ChunkStatus) (id : string)
    (now1 now2 : Date) (st : Store) :
  P st -> P (store_of (decideChunk status id now1 now2 st)).
Proof.
  intros H. unfold decideChunk. autorewrite with run.
  pose proof (P_updateChunkStatus id status now1 st H) as H1.
  destruct (fst (updateChunkStatus id status now1 st)); autorewrite with run;
    [now apply updateInvoiceStats_preserves | exact H1].
Qed.

Lemma patchChunk_preserves (id : string) (body : result PatchBody)
    (now1 now2 : Date) (st : Store) :
  P st -> P (store_of (patchChunk id body now1 now2 st)).
Proof.
  intros H. destruct body as [body|message]; [|exact H].
  unfold patchChunk. autorewrite with run.
  pose proof (P_updateChunk (body_id body ?? id) (body_updates body) now1 st H)
    as H1.
  destruct (fst (updateChunk _ _ _ _)); autorewrite with run; [|exact H1].
  destruct (isSome _); autorewrite with run;
    [now apply updateInvoiceStats_preserves | exact H1].
Qed.

Lemma finalizeInvoice_preserves (id : string) (now : Date) (st : Store) :
  P st -> P (store_of (finalizeInvoice id now st)).
Proof.
  intros H. unfold finalizeInvoice. autorewrite with run.
  destruct (negb _); autorewrite with run; [exact H|].
  destruct (fst (updateInvoice _ _ _ _)); autorewrite with run;
    now apply P_updateInvoice.
Qed.

Lemma uploadSegment_preserves (filePath filename mimeType : string)
    (fileSize : Z) (id : string) (now : Date) (clock : RunClock) (st : Store) :
  getInvoice id st = None -> P st ->
  P (store_of (uploadSegment filePath filename mimeType fileSize id now
                 clock st)).
Proof.
  intros Hnew H. unfold uploadSegment. autorewrite with run.
  apply P_updateInvoice. now apply P_createInvoice.
Qed.

Lemma afterConvert_preserves (id : string) (clock : RunClock)
    (outcome : result string) (st : Store) :
  P st -> P (store_of (afterConvert id clock outcome st)).
Proof.
  intros H. destruct outcome; unfold afterConvert, onPipelineError;
    autorewrite with run; now apply P_updateInvoice.
Qed.

Lemma createChunks_preserves (invoiceId : string) (clock : RunClock)
    (entries : list ExtractedChunk.t) :
  forall index st,
    distinct (map (uuidOfChunk clock) (seq index (List.length entries)))
    = true ->
    (forall k, In k (map (uuidOfChunk clock)
                       (seq index (List.length entries))) ->
               getChunk k st = None) ->
    P st ->
    P (store_of (createChunks invoiceId clock index entries st)).
Proof.
  induction entries as [|e entries IH]; intros index st Hd Hnew H.
  - exact H.
  - cbn [createChunks]. autorewrite with run.
    cbn [List.length seq map] in Hd, Hnew.
    apply distinct_cons in Hd. destruct Hd as [Hfirst Hd].
    apply IH.
    + exact Hd.
    + intros k Hk. unfold getChunk, createChunk. cbn [snd chunks].
      rewrite get_set_other.
      * apply Hnew. now right.
      * intros ->. contradiction.
    + apply P_createChunk; [|exact H]. apply Hnew. now left.
Qed.

Lemma afterVision_preserves (id : string) (clock : RunClock)
    (outcome : result ParsedInvoiceData) (st : Store) :
  freshChunkIds clock (entriesOf outcome) st = true ->
  P st -> P (store_of (afterVision id clock outcome st)).
Proof.
  intros Hfresh H. destruct outcome as [parsedData|message];
    unfold afterVision, onPipelineError; autorewrite with run;
    [|now apply P_updateInvoice].
  apply P_updateInvoice.
  destruct (freshChunkIds_spec _ _ _ Hfresh) as [Hd Hnew].
  apply createChunks_preserves.
  - exact Hd.
  - intros k Hk. unfold getChunk. rewrite updateInvoice_chunks.
    apply get_None_keys. now apply Hnew.
  - now apply P_updateInvoice.
Qed.

Lemma exec_preserves (op : Op) (w w' : World) :
  exec op w = Some w' -> P (store w) -> P (store w').
Proof.
  intros Hexec H.
  destruct op as [filePath filename mimeType fileSize id now clock
                 | invoiceId clock sharp
                 | invoiceId clock reply
                 | id now1 now2 | id now1 now2 | id body now1 now2
                 | id now]; simpl in Hexec.
  - destruct (mem id (JsMap.keys (invoices (store w)))) eqn:Hmem;
      [discriminate|].
    injection Hexec as <-. cbn [store commit].
    apply uploadSegment_preserves; [|exact H].
    apply get_None_keys. rewrite <- mem_In. now rewrite Hmem.
  - destruct (findTask invoiceId AwaitingConvert (tasks w)); [|discriminate].
    injection Hexec as <-. cbn [store commit].
    now apply afterConvert_preserves.
  - destruct (findTask invoiceId AwaitingVision (tasks w)); [|discriminate].
    destruct (freshChunkIds clock _ (store w)) eqn:Hfresh; [|discriminate].
    injection Hexec as <-. cbn [store commit].
    now apply afterVision_preserves.
  - injection Hexec as <-. now apply decideChunk_preserves.
  - injection Hexec as <-. now apply decideChunk_preserves.
  - injection Hexec as <-. now apply patchChunk_preserves.
  - injection Hexec as <-. now apply finalizeInvoice_preserves.
Qed.

Lemma run_preserves (allowed : Store -> Op -> bool) (ops : list Op) :
  forall w w', run allowed ops w = Some w' -> P (store w) -> P (store w').
Proof.
  induction ops as [|op ops IH]; intros w w'; simpl.
  - now intros [= <-].
  - destruct (allowed (store w) op); [|discriminate].
    destruct (exec op w) as [w1|] eqn:Hexec; [|discriminate].
    intros Hrun H. apply (IH w1 w' Hrun).
    exact (exec_preserves op w w1 Hexec H).
Qed.

End Preserved.

Lemma sameFile_refl (a : Invoice.t) : sameFile a a.
Proof. repeat split. Qed.

Lemma Extends_refl (st : Store) : Extends st st.
Proof.
  split.
  - intros k invoice H. exists invoice. split; [exact H | apply sameFile_refl].
  - intros k c H. exists c. now split.
Qed.

Lemma Extends_trans (a b c : Store) : Extends a b -> Extends b c -> Extends a c.
Proof.
  intros [Hi1 Hc1] [Hi2 Hc2]. split.
  - intros k i H. destruct (Hi1 k i H) as [i1 [H1 S1]].
    destruct (Hi2 k i1 H1) as [i2 [H2 S2]]. exists i2. split; [exact H2|].
    unfold sameFile in *. intuition congruence.
  - intros k x H. destruct (Hc1 k x H) as [x1 [H1 [A1 B1]]].
    destruct (Hc2 k x1 H1) as [x2 [H2 [A2 B2]]]. exists x2.
    split; [exact H2|]. split; congruence.
Qed.

Lemma Extends_updateInvoice (id : string) (updates : InvoiceUpdates.t)
    (now : Date) (st : Store) :
  Extends st (snd (updateInvoice id updates now st)).
Proof.
  split.
  - intros k invoice H. rewrite getInvoice_updateInvoice.
    destruct (String.eqb_spec k id) as [->|Hne].
    + rewrite H. eexists. split; [reflexivity|]. repeat split.
    + exists invoice. split; [exact H | apply sameFile_refl].
  - intros k c H. exists c. unfold getChunk in *.
    rewrite updateInvoice_chunks. now split.
Qed.

Lemma Extends_createInvoice (insertInvoice : InsertInvoice.t) (id : string)
    (now : Date) (st : Store) :
  getInvoice id st = None ->
  Extends st (snd (createInvoice insertInvoice id now st)).
Proof.
  intros Hnew. split.
  - intros k invoice H. exists invoice. split; [|apply sameFile_refl].
    unfold getInvoice, createInvoice. cbn [snd invoices].
    rewrite get_set_other; [exact H|]. intros ->. congruence.
  - intros k c H. exists c. now split.
Qed.

Lemma Extends_createChunk (insertChunk : InsertChunk.t) (id : string)
    (now : Date) (st : Store) :
  getChunk id st = None ->
  Extends st (snd (createChunk insertChunk id now st)).
Proof.
  intros Hnew. split.
  - intros k invoice H. exists invoice. split; [exact H|apply sameFile_refl].
  - intros k c H. exists c. split; [|now split].
    unfold getChunk, createChunk. cbn [snd chunks].
    rewrite get_set_other; [exact H|]. intros ->. congruence.
Qed.

Lemma Extends_updateChunk (id : string) (updates : ChunkUpdates.t)
    (now : Date) (st : Store) :
  Extends st (snd (updateChunk id updates now st)).
Proof.
  unfold updateChunk.
  destruct (JsMap.get id (chunks st)) as [chunk|] eqn:E;
    [|apply Extends_refl].
  split.
  - intros k invoice H. exists invoice. split; [exact H|apply sameFile_refl].
  - intros k c H. unfold getChunk in *. cbn [snd chunks].
    destruct (String.eqb_spec k id) as [->|Hne].
    + rewrite get_set_same. eexists. split; [reflexivity|].
      rewrite E in H. injection H as <-. now split.
    + rewrite get_set_other by exact Hne. exists c. now split.
Qed.

Lemma Extends_updateChunkStatus (id : string) (status : ChunkStatus)
    (now : Date) (st : Store) :
  Extends st (snd (updateChunkStatus id status now st)).
Proof.
  unfold updateChunkStatus.
  destruct (JsMap.get id (chunks st)) as [chunk|] eqn:E;
    [|apply Extends_refl].
  split.
  - intros k invoice H. exists invoice. split; [exact H|apply sameFile_refl].
  - intros k c H. unfold getChunk in *. cbn [snd chunks].
    destruct (String.eqb_spec k id) as [->|Hne].
    + rewrite get_set_same. eexists. split; [reflexivity|].
      rewrite E in H. injection H as <-. now split.
    + rewrite get_set_other by exact Hne. exists c. now split.
Qed.

(** X15. Nothing is ever deleted or re-identified. Whatever steps the
    server takes from whatever state -- uploads, collaborator outcomes,
    approvals, rejections, updates, finalizations -- every document that
    was stored is still stored under the same key with the same [id],
    [filename], [originalPath], [mimeType], [fileSize] and [createdAt], and
    every chunk is still stored under the same key with the same [id] and
    [createdAt]. *)
Theorem stored_records_persist (ops : list Op) (w w' : World) :
  run anyOp ops w = Some w' ->
  Extends (store w) (store w').
Proof.
  intros Hrun.
  apply (run_preserves (Extends (store w))) with (allowed := anyOp)
    (ops := ops) (w := w); [| | | | |exact Hrun|apply Extends_refl].
  - intros insertInvoice id now st Hnew H.
    exact (Extends_trans _ _ _ H
             (Extends_createInvoice insertInvoice id now st Hnew)).
  - intros id updates now st H.
    exact (Extends_trans _ _ _ H (Extends_updateInvoice id updates now st)).
  - intros insertChunk id now st Hnew H.
    exact (Extends_trans _ _ _ H
             (Extends_createChunk insertChunk id now st Hnew)).
  - intros id updates now st H.
    exact (Extends_trans _ _ _ H (Extends_updateChunk id updates now st)).
  - intros id status now st H.
    exact (Extends_trans _ _ _ H (Extends_updateChunkStatus id status now st)).
Qed.

Lemma stored_records_persist_witness :
  exists c',
    getChunk "chunk-1" (store Demo.decidedWorld) = Some c'
    /\ Chunk.id c' = "chunk-1"
    /\ Chunk.createdAt c'
       = Chunk.createdAt (Demo.chunkAt Demo.processedWorld "chunk-1").
Proof.
  assert (Hrun : run anyOp
                   [Approve "chunk-1" 2001 2002; Approve "chunk-2" 2003 2004;
                    Reject "chunk-3" 2005 2006; Approve "chunk-4" 2007 2008]
                   Demo.processedWorld = Some Demo.decidedWorld)
    by (vm_compute; reflexivity).
  destruct (stored_records_persist _ _ _ Hrun) as [_ H].
  destruct (H "chunk-1" (Demo.chunkAt Demo.processedWorld "chunk-1") eq_refl)
    as [c' [H1 [H2 H3]]].
  exists c'. split; [exact H1|]. split; [exact H2 | exact H3].
Defined.

Lemma run_KeyedById (allowed : Store -> Op -> bool) (ops : list Op)
    (w w' : World) :
  run allowed ops w = Some w' -> KeyedById (store w) -> KeyedById (store w').
Proof.
  intros Hrun H0.
  apply (run_preserves KeyedById) with (allowed := allowed)
    (ops := ops) (w := w); [| | | | |exact Hrun|exact H0].
  - intros insertInvoice id now st _ [Hi Hc]. split; [|exact Hc].
    intros k invoice. unfold getInvoice, createInvoice. cbn [snd invoices].
    destruct (String.eqb_spec k id) as [->|Hne].
    + rewrite get_set_same. now intros [= <-].
    + rewrite get_set_other by exact Hne. apply Hi.
  - intros id updates now st [Hi Hc]. split.
    + intros k invoice. rewrite getInvoice_updateInvoice.
      destruct (String.eqb_spec k id) as [->|Hne]; [|apply Hi].
      destruct (getInvoice id st) as [i|] eqn:E; [|discriminate].
      intros [= <-]. simpl. now apply Hi.
    + intros k c. unfold getChunk. rewrite updateInvoice_chunks. apply Hc.
  - intros insertChunk id now st _ [Hi Hc]. split; [exact Hi|].
    intros k c. unfold getChunk, createChunk. cbn [snd chunks].
    destruct (String.eqb_spec k id) as [->|Hne].
    + rewrite get_set_same. now intros [= <-].
    + rewrite get_set_other by exact Hne. apply Hc.
  - intros id updates now st [Hi Hc]. split.
    + unfold updateChunk. now destruct (JsMap.get id (chunks st)).
    + intros k c. unfold updateChunk, getChunk.
      destruct (JsMap.get id (chunks st)) as [chunk|] eqn:E; [|apply Hc].
      cbn [snd chunks]. destruct (String.eqb_spec k id) as [->|Hne].
      * rewrite get_set_same. intros [= <-]. simpl. now apply Hc.
      * rewrite get_set_other by exact Hne. apply Hc.
  - intros id status now st [Hi Hc]. split.
    + unfold updateChunkStatus. now destruct (JsMap.get id (chunks st)).
    + intros k c. unfold updateChunkStatus, getChunk.
      destruct (JsMap.get id (chunks st)) as [chunk|] eqn:E; [|apply Hc].
      cbn [snd chunks]. destruct (String.eqb_spec k id) as [->|Hne].
      * rewrite get_set_same. intros [= <-]. simpl. now apply Hc.
      * rewrite get_set_other by exact Hne. apply Hc.
Qed.

Lemma KeyedById_initial : KeyedById (store initial).
Proof. split; intros k x; discriminate. Qed.

(** X16. In every state the server can reach, every document and every
    chunk is stored under its own [id]: the key of the map and the [id] of
    the record never come apart, whatever the requests. *)
Theorem keys_are_ids (w : World) :
  reachable w -> KeyedById (store w).
Proof.
  intros [ops Hrun].
  exact (run_KeyedById anyOp ops initial w Hrun KeyedById_initial).
Qed.

Lemma keys_are_ids_witness :
  Chunk.id (Demo.chunkAt Demo.reviewedWorld "chunk-2") = "chunk-2".
Proof.
  assert (Hreach : reachable Demo.reviewedWorld)
    by (exists Demo.reviewed; vm_compute; reflexivity).
  exact (proj2 (keys_are_ids Demo.reviewedWorld Hreach) "chunk-2" _ eq_refl).
Defined.

(** ** The keyboard navigator *)

Lemma at_index_range (chunks : list Chunk.t) (i : Z) :
  (exists c, at_index chunks i = Some c)
  <-> 0 <= i < Z.of_nat (List.length chunks).
Proof.
  split.
  - intros [c H]. apply at_index_nth in H. destruct H as [H0 Hn].
    assert (Hlt : (Z.to_nat i < List.length chunks)%nat)
      by (apply nth_error_Some; congruence).
    lia.
  - intros [H0 Hlt].
    destruct (nth_error chunks (Z.to_nat i)) as [c|] eqn:E.
    + exists c. apply at_index_nth. now split.
    + apply nth_error_None in E. lia.
Qed.

Lemma findIndex_in_range (p : Chunk.t -> Z -> bool) (chunks : list Chunk.t) :
  0 <= findIndex p chunks ->
  findIndex p chunks < Z.of_nat (List.length chunks).
Proof.
  unfold findIndex. intros H.
  destruct (findIndex_from_found p chunks (Z.le_refl 0) H)
    as [n [x [Hj [Hn _]]]].
  rewrite Hj. assert (Hlt : (n < List.length chunks)%nat)
    by (apply nth_error_Some; congruence).
  lia.
Qed.

Lemma decideFocused_shape (notify : Chunk.t -> NavEffect)
    (chunks : list Chunk.t) (i : Z) (c : Chunk.t) :
  0 <= i < Z.of_nat (List.length chunks) ->
  0 <= fst (decideFocused notify chunks i c) < Z.of_nat (List.length chunks)
  /\ forall eff, In eff (snd (decideFocused notify chunks i c)) ->
                 eff = preventDefault \/ eff = notify c.
Proof.
  intros Hi. unfold decideFocused.
  destruct (hasStatus pending c); cbv zeta; cbn [fst snd].
  - split.
    + destruct (Z.geb_spec (findIndex
                              (fun chunk index =>
                                 Z.gtb index i && hasStatus pending chunk)
                              chunks) 0) as [Hge|Hlt]; [|exact Hi].
      split; [lia|]. apply findIndex_in_range. lia.
    + intros eff [<-|[<-|[]]]; tauto.
  - split; [exact Hi|]. intros eff [<-|[]]. now left.
Qed.

(** X17. A key press never takes the cursor off the list: with a chunk at
    the cursor there is a chunk at the new cursor, whatever the key. The
    only chunk a key press acts on is the one at the cursor. With the focus
    in an input or a text area, or with no chunk at the cursor, the press
    does nothing at all, not even [preventDefault]. *)
Theorem key_press_keeps_cursor_valid (chunks : list Chunk.t) (i : Z)
    (event : KeyboardEvent) :
  let i' := fst (handleKeyDown chunks i event) in
  let effects := snd (handleKeyDown chunks i event) in
  (at_index chunks i = None \/ target event <> OtherTarget ->
   i' = i /\ effects = [])
  /\ (forall c, at_index chunks i = Some c ->
        (exists c', at_index chunks i' = Some c')
        /\ forall eff, In eff effects ->
             eff = preventDefault \/ eff = onApprove c
             \/ eff = onReject c \/ eff = onEdit c).
Proof.
  cbv zeta. split.
  - intros [Hnone | Htarget]; unfold handleKeyDown.
    + rewrite Hnone. now destruct (target event).
    + destruct (target event); [now split | now split | contradiction].
  - intros c Hat.
    assert (Hi : 0 <= i < Z.of_nat (List.length chunks))
      by (apply at_index_range; now exists c).
    unfold handleKeyDown.
    destruct (target event);
      [split; [now exists c | intros eff []]
      |split; [now exists c | intros eff []]|].
    rewrite Hat. cbv zeta.
    destruct (String.eqb (key event) "Tab").
    { destruct (shiftKey event); cbn [fst snd]; split;
        try (intros eff [<-|[]]; now left);
        apply at_index_range.
      - destruct (Z.gtb_spec i 0); lia.
      - destruct (Z.ltb_spec i (Z.of_nat (List.length chunks) - 1)); lia. }
    destruct (String.eqb (key event) "Enter").
    { destruct (decideFocused_shape onApprove chunks i c Hi) as [H1 H2].
      split; [now apply at_index_range|].
      intros eff Heff. destruct (H2 eff Heff); tauto. }
    destruct (String.eqb (key event) "r" || String.eqb (key event) "R").
    { destruct (decideFocused_shape onReject chunks i c Hi) as [H1 H2].
      split; [now apply at_index_range|].
      intros eff Heff. destruct (H2 eff Heff); tauto. }
    destruct (String.eqb (key event) "e" || String.eqb (key event) "E").
    { cbn [fst snd]. split; [now exists c|].
      intros eff [<-|[<-|[]]]; tauto. }
    destruct (String.eqb (key event) "Escape").
    { cbn [fst snd]. split; [now exists c|]. intros eff [<-|[]]; tauto. }
    destruct (String.eqb (key event) "ArrowDown").
    { cbn [fst snd]. split; [|intros eff [<-|[]]; tauto].
      apply at_index_range.
      destruct (Z.ltb_spec i (Z.of_nat (List.length chunks) - 1)); lia. }
    destruct (String.eqb (key event) "ArrowUp").
    { cbn [fst snd]. split; [|intros eff [<-|[]]; tauto].
      apply at_index_range. destruct (Z.gtb_spec i 0); lia. }
    cbn [fst snd]. split; [now exists c | intros eff []].
Qed.

(** X18. With a chunk at the cursor and the focus outside a text field,
    [Tab] moves to the next chunk and wraps from the last to the first,
    [Shift+Tab] moves to the previous chunk and wraps from the first to the
    last, and each undoes the other; [ArrowDown] and [ArrowUp] move the same
    way but stop at the ends. *)
Theorem movement_keys (chunks : list Chunk.t) (i : Z) :
  let len := Z.of_nat (List.length chunks) in
  let press k shift j := fst (handleKeyDown chunks j (mkKey k shift OtherTarget)) in
  0 <= i < len ->
  press "Tab" false i = (i + 1) mod len
  /\ press "Tab" true i = (i - 1) mod len
  /\ press "Tab" true (press "Tab" false i) = i
  /\ press "Tab" false (press "Tab" true i) = i
  /\ press "ArrowDown" false i = Z.min (i + 1) (len - 1)
  /\ press "ArrowUp" false i = Z.max (i - 1) 0.
Proof.
  cbv zeta. intros Hi.
  assert (Hstep : forall j, 0 <= j < Z.of_nat (List.length chunks) ->
            fst (handleKeyDown chunks j (mkKey "Tab" false OtherTarget))
            = (if Z.ltb j (Z.of_nat (List.length chunks) - 1)
               then j + 1 else 0)
            /\ fst (handleKeyDown chunks j (mkKey "Tab" true OtherTarget))
               = (if Z.gtb j 0 then j - 1
                  else Z.of_nat (List.length chunks) - 1)
            /\ fst (handleKeyDown chunks j (mkKey "ArrowDown" false OtherTarget))
               = (if Z.ltb j (Z.of_nat (List.length chunks) - 1)
                  then j + 1 else j)
            /\ fst (handleKeyDown chunks j (mkKey "ArrowUp" false OtherTarget))
               = (if Z.gtb j 0 then j - 1 else j)).
  { intros j Hj. destruct (proj2 (at_index_range chunks j) Hj) as [c Hc].
    unfold handleKeyDown. cbn [target key shiftKey]. rewrite Hc.
    repeat split. }
  destruct (Hstep i Hi) as [Hn [Hp [Hd Hu]]].
  rewrite Hn, Hp, Hd, Hu.
  set (len := Z.of_nat (List.length chunks)) in *.
  assert (Hnext : 0 <= (if Z.ltb i (len - 1) then i + 1 else 0) < len)
    by (destruct (Z.ltb_spec i (len - 1)); lia).
  assert (Hprev : 0 <= (if Z.gtb i 0 then i - 1 else len - 1) < len)
    by (destruct (Z.gtb_spec i 0); lia).
  destruct (Hstep _ Hnext) as [_ [Hp' _]].
  destruct (Hstep _ Hprev) as [Hn' _].
  rewrite Hp', Hn'. fold len.
  assert (Hm1 : (i + 1) mod len = if Z.ltb i (len - 1) then i + 1 else 0).
  { destruct (Z.ltb_spec i (len - 1)); [apply Z.mod_small; lia|].
    replace (i + 1) with (0 + 1 * len) by lia.
    rewrite Z.mod_add by lia. apply Z.mod_small. lia. }
  assert (Hm2 : (i - 1) mod len = if Z.gtb i 0 then i - 1 else len - 1).
  { destruct (Z.gtb_spec i 0); [apply Z.mod_small; lia|].
    replace (i - 1) with (len - 1 + (-1) * len) by lia.
    rewrite Z.mod_add by lia. apply Z.mod_small. lia. }
  rewrite Hm1, Hm2.
  destruct (Z.ltb_spec i (len - 1)) as [Hlt|Hge];
    destruct (Z.gtb_spec i 0) as [Hgt|Hle];
    repeat split; cbv beta iota;
    repeat match goal with
           | |- context [Z.ltb ?a ?b] => destruct (Z.ltb_spec a b)
           | |- context [Z.gtb ?a ?b] => destruct (Z.gtb_spec a b)
           end; lia.
Qed.

Lemma movement_keys_witness :
  let chunks := getChunksByInvoice "invoice-1" (store Demo.reviewedWorld) in
  fst (handleKeyDown chunks 3 (mkKey "Tab" false OtherTarget)) = 0
  /\ fst (handleKeyDown chunks 0 (mkKey "Tab" true OtherTarget)) = 3.
Proof.
  cbv zeta.
  assert (H3 : 0 <= 3 < Z.of_nat (List.length
                 (getChunksByInvoice "invoice-1" (store Demo.reviewedWorld))))
    by (vm_compute; split; [discriminate | reflexivity]).
  assert (H0 : 0 <= 0 < Z.of_nat (List.length
                 (getChunksByInvoice "invoice-1" (store Demo.reviewedWorld))))
    by (vm_compute; split; [discriminate | reflexivity]).
  destruct (movement_keys _ 3 H3) as [Hn _].
  destruct (movement_keys _ 0 H0) as [_ [Hp _]].
  split; [rewrite Hn | rewrite Hp]; reflexivity.
Defined.

(** X19. Whenever the chunk list changes, the cursor goes to the first
    pending chunk of the list, wherever it was; only when no chunk is
    pending does it stay where it is. *)
Theorem focus_goes_to_first_pending (chunks : list Chunk.t) (i : Z) :
  let r := focusFirstPending chunks i in
  (exists c, at_index chunks r = Some c
             /\ Chunk.status c = pending
             /\ forall k c', k < r -> at_index chunks k = Some c' ->
                             Chunk.status c' <> pending)
  \/ (r = i /\ forall c, In c chunks -> Chunk.status c <> pending).
Proof.
  cbv zeta. unfold focusFirstPending, findIndex.
  set (p := fun (chunk : Chunk.t) (_ : Z) => hasStatus pending chunk).
  destruct (findIndex_from_range p 0 chunks) as [Hnone|Hsome].
  - right. rewrite Hnone. split; [reflexivity|].
    intros c Hc. apply In_nth_error in Hc. destruct Hc as [n Hn].
    apply hasStatus_false.
    exact (@findIndex_from_none p 0 chunks Hnone (Z.le_refl 0) n c Hn).
  - left.
    destruct (findIndex_from_found p chunks (Z.le_refl 0) Hsome)
      as [n [x [Hj [Hn [Hp Hbefore]]]]].
    rewrite Hj. simpl (0 + _).
    assert (Hge : Z.geb (Z.of_nat n) 0 = true) by (apply Z.geb_le; lia).
    rewrite Hge. exists x. split; [|split].
    + apply at_index_nth. split; [lia|]. now rewrite Nat2Z.id.
    + now apply hasStatus_true.
    + intros k c' Hk Hat. apply at_index_nth in Hat.
      destruct Hat as [Hk0 Hkn]. apply hasStatus_false.
      apply (Hbefore (Z.to_nat k) c'); [lia | exact Hkn].
Qed.

(** ** The upload list *)

Lemma uploadStep_coherent (prev : list UploadedFile) (ev : UploadEvent) :
  Forall coherent prev -> Forall coherent (uploadStep prev ev).
Proof.
  intros H. destruct ev as [names | name | name invoiceId | name message
                           | name]; cbn [uploadStep].
  - apply Forall_app. split; [exact H|].
    apply Forall_forall. intros uf Huf. apply in_map_iff in Huf.
    destruct Huf as [n [<- _]]. unfold coherent. simpl. repeat split; lia.
  - apply Forall_forall. intros uf Huf. apply in_map_iff in Huf.
    destruct Huf as [old [<- Hold]].
    rewrite Forall_forall in H. specialize (H old Hold).
    destruct (String.eqb (up_name old) name && isUploading old) eqn:E;
      [|exact H].
    apply andb_true_iff in E. destruct E as [_ E].
    unfold isUploading in E. unfold coherent in *. cbn [up_status up_progress
      up_invoiceId up_error].
    destruct (up_status old); try discriminate.
    destruct H as [[H0 H90] [Hm [Hi He]]].
    split; [lia|]. split; [|now split].
    destruct (Z.min_spec (up_progress old + 10) 90) as [[_ ->] | [_ ->]];
      [|reflexivity].
    rewrite <- Zplus_mod_idemp_l, Hm. reflexivity.
  - apply Forall_forall. intros uf Huf. apply in_map_iff in Huf.
    destruct Huf as [old [<- Hold]].
    rewrite Forall_forall in H. specialize (H old Hold).
    destruct (String.eqb (up_name old) name); [|exact H].
    unfold coherent. simpl. split; [reflexivity | discriminate].
  - apply Forall_forall. intros uf Huf. apply in_map_iff in Huf.
    destruct Huf as [old [<- Hold]].
    rewrite Forall_forall in H. specialize (H old Hold).
    destruct (String.eqb (up_name old) name); [|exact H].
    unfold coherent. simpl. split; [reflexivity | discriminate].
  - rewrite Forall_forall in *. intros uf Huf. apply filter_In in Huf.
    now apply H.
Qed.

Lemma fold_uploadStep_coherent (events : list UploadEvent) :
  forall l, Forall coherent l ->
            Forall coherent (fold_left uploadStep events l).
Proof.
  induction events as [|ev events IH]; intros l Hl; [exact Hl|].
  simpl. apply IH. now apply uploadStep_coherent.
Qed.

(** X20. Whatever files are dropped, whatever timers tick, whatever
    uploads succeed or fail and whatever entries are removed, in whatever
    order: an entry that is uploading shows a multiple of 10 between 0 and
    90 and has neither an invoice identifier nor an error; an entry shows
    100 exactly when its upload has succeeded, and then it has an invoice
    identifier; a failed entry shows 0 and has an error message. *)
Theorem upload_list_coherent (events : list UploadEvent) (uf : UploadedFile) :
  In uf (uploadList events) ->
  coherent uf
  /\ (up_progress uf = 100 <-> up_status uf = st_success).
Proof.
  intros Hin.
  assert (Hall : Forall coherent (uploadList events))
    by (apply fold_uploadStep_coherent; constructor).
  rewrite Forall_forall in Hall. specialize (Hall uf Hin).
  split; [exact Hall|].
  unfold coherent in Hall. destruct (up_status uf).
  - split; [lia | discriminate].
  - tauto.
  - split; [lia | discriminate].
Qed.

Lemma upload_list_coherent_witness :
  coherent (mkUploaded "a.png" 90 st_uploading None None).
Proof.
  assert (Hin : In (mkUploaded "a.png" 90 st_uploading None None)
                  (uploadList
                     ([ev_drop ["a.png"; "b.png"]]
                      ++ repeat (ev_tick "a.png") 12
                      ++ [ev_error "b.png" "Request failed"])))
    by (vm_compute; now left).
  exact (proj1 (upload_list_coherent _ _ Hin)).
Defined.

(** ** Approve All Remaining *)

Lemma keys_set {V : Type} (m : JsMap.t V) (k : string) (v : V) :
  JsMap.keys (JsMap.set k v m)
  = if mem k (JsMap.keys m) then JsMap.keys m else JsMap.keys m ++ [k].
Proof.
  unfold mem, JsMap.keys in *.
  induction m as [|[k' v'] m IH]; [reflexivity|].
  simpl. destruct (String.eqb_spec k k') as [->|Hne]; simpl; [reflexivity|].
  rewrite IH. now destruct (existsb (String.eqb k) (map fst m)).
Qed.

Lemma NoDup_keys_set {V : Type} (m : JsMap.t V) (k : string) (v : V) :
  NoDup (JsMap.keys m) -> NoDup (JsMap.keys (JsMap.set k v m)).
Proof.
  intros H. rewrite keys_set. destruct (mem k (JsMap.keys m)) eqn:E;
    [exact H|].
  apply NoDup_app; [exact H | repeat constructor; intros [] |].
  intros a Ha [<-|[]]. apply mem_In in Ha. congruence.
Qed.

Lemma get_of_In {V : Type} (m : JsMap.t V) (k : string) (v : V) :
  NoDup (JsMap.keys m) -> In (k, v) m -> JsMap.get k m = Some v.
Proof.
  induction m as [|[k' v'] m IH]; intros Hnd Hin; [destruct Hin|].
  cbn [JsMap.keys map fst] in Hnd. inversion Hnd as [|? ? Hnew Hrest]; subst.
  cbn [JsMap.get]. destruct Hin as [[= -> ->] | Hin].
  - now rewrite String.eqb_refl.
  - destruct (String.eqb_spec k k') as [->|Hne]; [|now apply IH].
    exfalso. apply Hnew. unfold JsMap.keys.
    change k' with (fst (k', v)). now apply in_map.
Qed.

Lemma run_UniqueKeys (allowed : Store -> Op -> bool) (ops : list Op)
    (w w' : World) :
  run allowed ops w = Some w' -> UniqueKeys (store w) -> UniqueKeys (store w').
Proof.
  intros Hrun H0.
  apply (run_preserves UniqueKeys) with (allowed := allowed)
    (ops := ops) (w := w); [| | | | |exact Hrun|exact H0].
  - intros insertInvoice id now st _ [Hi Hc]. split; [|exact Hc].
    apply NoDup_keys_set. exact Hi.
  - intros id updates now st [Hi Hc]. unfold updateInvoice.
    destruct (JsMap.get id (invoices st)); [|now split].
    split; [apply NoDup_keys_set; exact Hi | exact Hc].
  - intros insertChunk id now st _ [Hi Hc]. split; [exact Hi|].
    apply NoDup_keys_set. exact Hc.
  - intros id updates now st [Hi Hc]. unfold updateChunk.
    destruct (JsMap.get id (chunks st)); [|now split].
    split; [exact Hi | apply NoDup_keys_set; exact Hc].
  - intros id status now st [Hi Hc]. unfold updateChunkStatus.
    destruct (JsMap.get id (chunks st)); [|now split].
    split; [exact Hi | apply NoDup_keys_set; exact Hc].
Qed.

Lemma stored_under_id (st : Store) (c : Chunk.t) :
  KeyedById st -> UniqueKeys st ->
  In c (JsMap.values (chunks st)) -> getChunk (Chunk.id c) st = Some c.
Proof.
  intros [_ Hk] [_ Hu] Hin.
  destruct (In_values_get _ _ Hin) as [k [_ Hkc]].
  pose proof (get_of_In (chunks st) k c Hu Hkc) as Hget.
  rewrite (Hk k c Hget). exact Hget.
Qed.

Lemma getChunk_decideChunk (status : ChunkStatus) (id : string)
    (now1 now2 : Date) (st : Store) (k : string) :
  getChunk k (store_of (decideChunk status id now1 now2 st))
  = if String.eqb k id
    then option_map (decided status now1) (getChunk id st)
    else getChunk k st.
Proof.
  destruct (getChunk id st) as [c|] eqn:Hget.
  - rewrite (decideChunk_store status id now1 now2 st c Hget).
    rewrite store_of_tuple, getChunk_updateInvoiceStats.
    destruct (String.eqb_spec k id) as [->|Hne].
    + unfold getChunk, withChunk. simpl. apply get_set_same.
    + now apply getChunk_withChunk_other.
  - unfold decideChunk. autorewrite with run. unfold updateChunkStatus.
    unfold getChunk in Hget. rewrite Hget. cbn [fst snd].
    autorewrite with run.
    destruct (String.eqb_spec k id) as [->|Hne]; [|reflexivity].
    exact Hget.
Qed.

Lemma run_approvals (reqs : list (string * Date * Date)) :
  forall w, exists w',
    run anyOp (approvals reqs) w = Some w'
    /\ forall k,
         match getChunk k (store w) with
         | Some c =>
             exists c',
               getChunk k (store w') = Some c'
               /\ Chunk.invoiceId c' = Chunk.invoiceId c
               /\ Chunk.status c'
                  = if mem k (map (fun r => fst (fst r)) reqs)
                    then approved else Chunk.status c
         | None => getChunk k (store w') = None
         end.
Proof.
  induction reqs as [|[[id now1] now2] reqs IH]; intros w.
  - exists w. split; [reflexivity|]. intros k.
    destruct (getChunk k (store w)) as [c|]; [|reflexivity].
    exists c. now split.
  - cbn [approvals map run anyOp exec fst snd].
    set (w1 := commit w (tasks w) (approveChunk id now1 now2 (store w))).
    destruct (IH w1) as [w' [Hrun Heff]].
    exists w'. split; [exact Hrun|]. intros k. specialize (Heff k).
    unfold w1 in Heff. cbn [store commit] in Heff. unfold approveChunk in Heff.
    rewrite getChunk_decideChunk in Heff.
    unfold mem. cbn [existsb].
    fold (mem k (map (fun r : string * Date * Date => fst (fst r)) reqs)).
    destruct (String.eqb_spec k id) as [E|Hne]; cbn [orb].
    + subst k.
      destruct (getChunk id (store w)) as [c|]; cbn [option_map] in Heff;
        [|exact Heff].
      destruct Heff as [c' [H1 [H2 H3]]]. exists c'.
      split; [exact H1|]. split; [exact H2|].
      rewrite H3. cbn [decided Chunk.status].
      now destruct (mem id _).
    + exact Heff.
Qed.

(** X21. "Approve All Remaining", end to end. When the approve requests
    that the button sends for the chunks of a document -- one for each
    pending chunk of the list it shows -- have been served, in whatever
    order, every chunk that was pending in that document is approved, every
    other chunk of the server has the status it had, and the button is
    disabled on the new list. *)
Theorem approve_all_remaining (w : World) (id : string)
    (reqs : list (string * Date * Date)) :
  reachable w ->
  Permutation (map (fun r => fst (fst r)) reqs)
    (approveAllRemaining (getChunksByInvoice id (store w))) ->
  exists w',
    run anyOp (approvals reqs) w = Some w'
    /\ (forall k c, getChunk k (store w) = Some c ->
          exists c',
            getChunk k (store w') = Some c'
            /\ Chunk.invoiceId c' = Chunk.invoiceId c
            /\ Chunk.status c'
               = if owned id c && hasStatus pending c
                 then approved else Chunk.status c)
    /\ approveAllDisabled (getChunksByInvoice id (store w')) = true.
Proof.
  intros [ops Hreach] Hperm.
  assert (HK : KeyedById (store w))
    by exact (run_KeyedById anyOp ops initial w Hreach KeyedById_initial).
  assert (HU : UniqueKeys (store w)).
  { apply (run_UniqueKeys anyOp ops initial w Hreach).
    split; constructor. }
  destruct (run_approvals reqs w) as [w' [Hrun Heff]].
  pose proof (run_KeyedById anyOp _ w w' Hrun HK) as HK'.
  pose proof (run_UniqueKeys anyOp _ w w' Hrun HU) as HU'.
  set (ids := map (fun r : string * Date * Date => fst (fst r)) reqs) in *.
  assert (Hsent : forall k c, getChunk k (store w) = Some c ->
            mem k ids = owned id c && hasStatus pending c).
  { intros k c Hget.
    assert (Hid : Chunk.id c = k) by (destruct HK as [_ H]; now apply H).
    destruct (owned id c && hasStatus pending c) eqn:E.
    - apply mem_In. apply (Permutation_in _ (Permutation_sym Hperm)).
      unfold approveAllRemaining. rewrite <- Hid. apply in_map.
      apply andb_true_iff in E. destruct E as [Hown Hpend].
      apply filter_In. split; [|exact Hpend].
      apply getChunksByInvoice_In. split.
      + unfold getChunk in Hget. exact (get_Some_In _ _ Hget).
      + now apply String.eqb_eq.
    - destruct (mem k ids) eqn:Hm; [|reflexivity].
      apply mem_In in Hm. apply (Permutation_in _ Hperm) in Hm.
      unfold approveAllRemaining in Hm. apply in_map_iff in Hm.
      destruct Hm as [d [Hd Hin]]. apply filter_In in Hin.
      destruct Hin as [Hin Hpend]. apply getChunksByInvoice_In in Hin.
      destruct Hin as [Hval Hown].
      pose proof (stored_under_id _ d HK HU Hval) as Hgd.
      rewrite Hd, Hget in Hgd. injection Hgd as ->.
      unfold owned in E. rewrite Hown, String.eqb_refl, Hpend in E.
      discriminate. }
  exists w'. split; [exact Hrun|]. split.
  - intros k c Hget. specialize (Heff k). rewrite Hget in Heff.
    destruct Heff as [c' [H1 [H2 H3]]]. exists c'.
    split; [exact H1|]. split; [exact H2|].
    now rewrite <- (Hsent k c Hget).
  - unfold approveAllDisabled. apply forallb_forall. intros c' Hin.
    apply getChunksByInvoice_In in Hin. destruct Hin as [Hval Hown].
    pose proof (stored_under_id _ c' HK' HU' Hval) as Hg'.
    specialize (Heff (Chunk.id c')).
    destruct (getChunk (Chunk.id c') (store w)) as [c|] eqn:Hget;
      [|congruence].
    destruct Heff as [c'' [H1 [H2 H3]]].
    rewrite Hg' in H1. injection H1 as <-.
    apply negb_true_iff, hasStatus_false. rewrite H3.
    rewrite (Hsent _ c Hget). unfold owned.
    rewrite <- H2, Hown, String.eqb_refl. cbn [andb].
    destruct (hasStatus pending c) eqn:Hp; [discriminate|].
    now apply hasStatus_false.
Qed.

Lemma approve_all_remaining_witness :
  exists w',
    run anyOp (approvals [("chunk-4", 3001, 3002)]) Demo.reviewedWorld
    = Some w'
    /\ approveAllDisabled (getChunksByInvoice "invoice-1" (store w')) = true.
Proof.
  assert (Hreach : reachable Demo.reviewedWorld)
    by (exists Demo.reviewed; vm_compute; reflexivity).
  assert (Hperm : Permutation
                    (map (fun r : string * Date * Date => fst (fst r))
                       [("chunk-4", 3001, 3002)])
                    (approveAllRemaining
                       (getChunksByInvoice "invoice-1"
                          (store Demo.reviewedWorld))))
    by (vm_compute; apply Permutation_refl).
  destruct (approve_all_remaining Demo.reviewedWorld "invoice-1"
              [("chunk-4", 3001, 3002)] Hreach Hperm) as [w' [H1 [_ H3]]].
  exists w'. now split.
Defined.

(** ** What review requests leave alone *)

Lemma updateInvoiceStats_reviewKeeps (o : string) (now : Date) (st : Store)
    (k : string) (invoice : Invoice.t) :
  getInvoice k st = Some invoice ->
  exists invoice',
    getInvoice k (store_of (updateInvoiceStats o now st)) = Some invoice'
    /\ reviewKeeps invoice invoice'.
Proof.
  intros Hget. rewrite getInvoice_updateInvoiceStats.
  destruct (String.eqb_spec k o) as [<-|Hne].
  - rewrite Hget. eexists. split; [reflexivity|]. repeat split.
  - exists invoice. split; [exact Hget|]. repeat split.
Qed.

(** X22. Approving, rejecting or updating a chunk never changes the status,
    the extracted text, the progress or the total of any document, nor its
    file: of a document these requests write the two counters and
    [updatedAt] only. In particular, deciding the last chunk does not
    finalize the document. *)
Theorem review_keeps_document (op : Op) (w w' : World) (k : string)
    (invoice : Invoice.t) :
  match op with
  | Approve _ _ _ | Reject _ _ _ | Patch _ _ _ _ => True
  | _ => False
  end ->
  exec op w = Some w' ->
  getInvoice k (store w) = Some invoice ->
  exists invoice',
    getInvoice k (store w') = Some invoice' /\ reviewKeeps invoice invoice'.
Proof.
  assert (Hdecide : forall status id now1 now2,
            getInvoice k (store w) = Some invoice ->
            exists invoice',
              getInvoice k (store_of (decideChunk status id now1 now2 (store w)))
              = Some invoice'
              /\ reviewKeeps invoice invoice').
  { intros status id now1 now2 Hget.
    destruct (getChunk id (store w)) as [c|] eqn:Hc.
    - rewrite (decideChunk_store status id now1 now2 (store w) c Hc).
      rewrite store_of_tuple.
      now apply updateInvoiceStats_reviewKeeps.
    - unfold decideChunk. autorewrite with run. unfold updateChunkStatus.
      unfold getChunk in Hc. rewrite Hc. cbn [fst snd]. autorewrite with run.
      exists invoice. split; [exact Hget|]. repeat split. }
  destruct op as [| | | id now1 now2 | id now1 now2 | id body now1 now2 |];
    intros Hop Hexec Hget; try contradiction;
    injection Hexec as <-; cbn [store commit].
  - now apply Hdecide.
  - now apply Hdecide.
  - destruct body as [body|message];
      [|exists invoice; split; [exact Hget | repeat split]].
    unfold patchChunk. autorewrite with run. unfold updateChunk.
    destruct (JsMap.get (body_id body ?? id) (chunks (store w))) as [c|];
      cbv zeta; cbn [fst snd]; autorewrite with run;
      [|exists invoice; split; [exact Hget | repeat split]].
    destruct (isSome _); autorewrite with run;
      [|exists invoice; split; [exact Hget | repeat split]].
    now apply updateInvoiceStats_reviewKeeps.
Qed.

Lemma review_keeps_document_witness :
  option_map Invoice.status
    (getInvoice "invoice-1" (store Demo.decidedWorld))
  = Some I_ready_for_review.
Proof.
  assert (Hexec : exec (Approve "chunk-4" 2007 2008) Demo.reviewedWorld
                  = Some Demo.decidedWorld) by (vm_compute; reflexivity).
  destruct (review_keeps_document (Approve "chunk-4" 2007 2008)
              Demo.reviewedWorld Demo.decidedWorld "invoice-1" _ I Hexec
              eq_refl) as [invoice' [Hget [Hstatus _]]].
  rewrite Hget. cbn [option_map]. rewrite Hstatus. reflexivity.
Defined.

(** ** The owner of a chunk *)

(** X23. As long as no update has given a chunk another [invoiceId], every
    stored chunk belongs to a stored document. *)
Theorem chunks_have_documents (w : World) (k : string) (c : Chunk.t) :
  reachableKeepingOwners w ->
  getChunk k (store w) = Some c ->
  exists invoice, getInvoice (Chunk.invoiceId c) (store w) = Some invoice.
Proof.
  intros Hreach Hget.
  destruct (reachableKeepingOwners_Inv Hreach) as [[_ _ _ Ho] _].
  unfold getChunk in Hget.
  pose proof (Ho c (get_Some_In _ _ Hget)) as Hex.
  destruct (getInvoice (Chunk.invoiceId c) (store w)) as [invoice|];
    [now exists invoice | contradiction].
Qed.

Lemma chunks_have_documents_witness :
  exists invoice,
    getInvoice (Chunk.invoiceId (Demo.chunkAt Demo.reviewedWorld "chunk-3"))
      (store Demo.reviewedWorld) = Some invoice.
Proof.
  assert (Hreach : reachableKeepingOwners Demo.reviewedWorld)
    by (exists Demo.reviewed; vm_compute; reflexivity).
  exact (chunks_have_documents Demo.reviewedWorld "chunk-3" _ Hreach eq_refl).
Defined.

(** X24. The update request does not check the [invoiceId] it is given. An
    update that names a document that does not exist is accepted: it
    answers with the chunk, now owned by that identifier, no document is
    created for it, and no document is written at all -- the counters of
    the document the chunk came from are not recounted either, even when
    the body carries a [status]. *)
Theorem update_does_not_check_owner (st : Store) (id : string)
    (body : PatchBody) (now1 now2 : Date) (c : Chunk.t) (o : string) :
  let target := body_id body ?? id in
  let c' := applyChunkUpdates c (body_updates body) now1 in
  let st' := store_of (patchChunk id (ok body) now1 now2 st) in
  getChunk target st = Some c ->
  ChunkUpdates.invoiceId (body_updates body) = Some o ->
  getInvoice o st = None ->
  result_of (patchChunk id (ok body) now1 now2 st) = res_json c'
  /\ getChunk target st' = Some c'
  /\ Chunk.invoiceId c' = o
  /\ getInvoice o st' = None
  /\ invoices st' = invoices st.
Proof.
  cbv zeta. intros Hget Ho Hnone. unfold getChunk in Hget.
  assert (Hown : Chunk.invoiceId (applyChunkUpdates c (body_updates body) now1)
                 = o) by (cbn [applyChunkUpdates Chunk.invoiceId];
                          now rewrite Ho).
  unfold patchChunk. autorewrite with run. unfold updateChunk.
  rewrite Hget. cbv zeta; cbn [fst snd].
  set (c' := applyChunkUpdates c (body_updates body) now1) in *.
  fold (withChunk st (body_id body ?? id) c'). autorewrite with run.
  assert (Hstats : store_of (updateInvoiceStats (Chunk.invoiceId c') now2
                               (withChunk st (body_id body ?? id) c'))
                   = withChunk st (body_id body ?? id) c').
  { unfold updateInvoiceStats. autorewrite with run. unfold updateInvoice.
    rewrite Hown. cbn [withChunk invoices].
    unfold getInvoice in Hnone. now rewrite Hnone. }
  assert (Hsame : store_of
                    ((if isSome (ChunkUpdates.status (body_updates body))
                      then updateInvoiceStats (Chunk.invoiceId c') now2
                      else ret tt)
                       (withChunk st (body_id body ?? id) c'))
                  = withChunk st (body_id body ?? id) c').
  { destruct (isSome _); [exact Hstats | reflexivity]. }
  rewrite Hsame.
  split; [reflexivity|]. split; [|split; [exact Hown|split]].
  - unfold getChunk, withChunk. simpl. apply get_set_same.
  - exact Hnone.
  - reflexivity.
Qed.

Lemma update_does_not_check_owner_witness :
  let body := mkPatchBody None
                (ChunkUpdates.mk (Some "no-such-invoice") None None None None
                   None None (Some rejected) None None) in
  let st' := store_of (patchChunk "chunk-1" (ok body) 1 2
                         (store Demo.reviewedWorld)) in
  option_map Chunk.invoiceId (getChunk "chunk-1" st')
  = Some "no-such-invoice"
  /\ invoices st' = invoices (store Demo.reviewedWorld).
Proof.
  cbv zeta.
  destruct (update_does_not_check_owner (store Demo.reviewedWorld) "chunk-1"
              (mkPatchBody None
                 (ChunkUpdates.mk (Some "no-such-invoice") None None None None
                    None None (Some rejected) None None))
              1 2 _ "no-such-invoice" eq_refl eq_refl eq_refl)
    as [_ [H1 [H2 [_ H3]]]].
  split; [|exact H3].
  cbn [nullish body_id] in H1. rewrite H1. cbn [option_map]. now rewrite H2.
Defined.
